(** * project_pyratio: production-chain ratios for a crafting game

    A shallow embedding of the Python sources under [project_pyratio/]
    (abbreviations.py, products.py, facilities.py, rates.py, recipes.py,
    rational_utilities.py, databases.py, recipe_readers.py, factories.py,
    data_loaders.py, algorithms.py) and the properties of the
    specification that concern them.

    Conventions of the embedding.
    - A Python [str] is a [string]. A character of the embedding is a
      Unicode code point below 256, the range of [ascii]: the character
      with code 201 is the capital E with an acute accent, the one with
      code 160 the no-break space. The classes [str.isalpha],
      [str.isupper] and the white space of [str.strip] are Python's on
      that range.
    - [fractions.Fraction] is [Qc], the rationals in lowest terms, so that
      Python's [==] on fractions is Leibniz equality.
    - A [dict] is a [gmap], a [set] is a [gset].
    - A call either returns a value, raises an exception, or does not
      finish within the recursion depth it was given: see [outcome]. *)

From Stdlib Require Import ZArith QArith Qcanon String Ascii.
From stdpp Require Import base option list strings numbers functions sorting gmap fin_maps.

Local Open Scope string_scope.
Local Open Scope list_scope.

(** * Exceptions and outcomes *)

(** The exceptions the sources raise, explicitly or not. A [ValueError]
    carries the literal text of its message and the values formatted
    into it. *)
Inductive exn :=
| ValueError (msg : string) (args : list string)
| UnboundLocalError (name : string)
| NameError (name : string)
| KeyError (key : string)
| ZeroDivisionError.

(** [Diverge] is the outcome of a call that did not finish within the
    recursion depth it was given. A call whose outcome is [Diverge] at
    every depth never returns (CPython ends such a call with
    [RecursionError] once its stack limit is reached). *)
Inductive outcome (A : Type) :=
| Ok (a : A)
| Raise (e : exn)
| Diverge.
Arguments Ok {A} a.
Arguments Raise {A} e.
Arguments Diverge {A}.

Definition returns {A} (o : outcome A) : bool :=
  match o with Ok _ => true | _ => false end.

Global Instance outcome_ret : MRet outcome := λ A a, Ok a.
Global Instance outcome_bind : MBind outcome := λ A B f o,
  match o with
  | Ok a => f a
  | Raise e => Raise e
  | Diverge => Diverge
  end.
Global Instance outcome_fmap : FMap outcome := λ A B f o,
  match o with
  | Ok a => Ok (f a)
  | Raise e => Raise e
  | Diverge => Diverge
  end.

(** Methods of a mutable object thread the object's state: a computation
    over a state [S] returns an outcome together with the state it leaves
    behind, also when it raises. *)
Definition M (S A : Type) : Type := S → outcome A * S.

Global Instance M_ret {S} : MRet (M S) := λ A a s, (Ok a, s).
Global Instance M_bind {S} : MBind (M S) := λ A B f m s,
  match m s with
  | (Ok a, s') => f a s'
  | (Raise e, s') => (Raise e, s')
  | (Diverge, s') => (Diverge, s')
  end.

Global Instance M_fmap {S} : FMap (M S) := λ A B f m s,
  match m s with
  | (Ok a, s') => (Ok (f a), s')
  | (Raise e, s') => (Raise e, s')
  | (Diverge, s') => (Diverge, s')
  end.

Definition raise {S A} (e : exn) : M S A := λ s, (Raise e, s).
Definition diverge {S A} : M S A := λ s, (Diverge, s).
Definition get {S} : M S S := λ s, (Ok s, s).
Definition gets {S A} (f : S → A) : M S A := λ s, (Ok (f s), s).
Definition modify {S} (f : S → S) : M S unit := λ s, (Ok tt, f s).
Definition lift {S A} (o : outcome A) : M S A := λ s, (o, s).

(** [for x in l: body x] *)
Fixpoint for_each {S A} (l : list A) (body : A → M S unit) : M S unit :=
  match l with
  | [] => mret tt
  | x :: l' => body x ;; for_each l' body
  end.

(** * Characters and strings *)

Definition code (c : ascii) : N := N_of_ascii c.

(** The class [A-Z]. *)
Definition is_capital (c : ascii) : bool :=
  (65 <=? code c)%N && (code c <=? 90)%N.

(** The class [0-9]. *)
Definition is_digit (c : ascii) : bool :=
  (48 <=? code c)%N && (code c <=? 57)%N.

(** [str.isalpha] on one character: the letters A to Z and a to z, the
    two ordinal indicators, the micro sign, and the accented letters
    from 192 to 255 without the signs of multiplication (215) and of
    division (247). *)
Definition isalpha_char (c : ascii) : bool :=
  is_capital c || ((97 <=? code c)%N && (code c <=? 122)%N)
  || (code c =? 170)%N || (code c =? 181)%N || (code c =? 186)%N
  || ((192 <=? code c)%N && (code c <=? 214)%N)
  || ((216 <=? code c)%N && (code c <=? 246)%N)
  || ((248 <=? code c)%N && (code c <=? 255)%N).

(** [str.isupper] on one character: A to Z and the accented capitals
    from 192 to 222, without the sign of multiplication. *)
Definition isupper_char (c : ascii) : bool :=
  is_capital c
  || ((192 <=? code c)%N && (code c <=? 214)%N)
  || ((216 <=? code c)%N && (code c <=? 222)%N).

(** [str.isspace] on one character, the white space [str.strip] removes:
    tab to carriage return, the four information separators, the space,
    the next-line control (133) and the no-break space (160). *)
Definition isspace_char (c : ascii) : bool :=
  ((9 <=? code c)%N && (code c <=? 13)%N)
  || ((28 <=? code c)%N && (code c <=? 32)%N)
  || (code c =? 133)%N || (code c =? 160)%N.

Fixpoint all_chars (p : ascii → bool) (s : string) : bool :=
  match s with
  | EmptyString => true
  | String c s' => p c && all_chars p s'
  end.

(** [str.isalpha]: every character is alphabetic and there is at least
    one. *)
Definition isalpha (s : string) : bool :=
  negb (String.eqb s "") && all_chars isalpha_char s.

Fixpoint lstrip (s : string) : string :=
  match s with
  | EmptyString => EmptyString
  | String c s' => if isspace_char c then lstrip s' else s
  end.

Fixpoint rstrip (s : string) : string :=
  match s with
  | EmptyString => EmptyString
  | String c s' =>
      let r := rstrip s' in
      if isspace_char c && String.eqb r "" then EmptyString else String c r
  end.

(** [str.strip()] *)
Definition strip (s : string) : string := rstrip (lstrip s).

Fixpoint string_chars (s : string) : list ascii :=
  match s with
  | EmptyString => []
  | String c s' => c :: string_chars s'
  end.

(** [sep.join(items)] *)
Fixpoint join {A} (sep : A) (items : list A) : list A :=
  match items with
  | [] => []
  | [x] => [x]
  | x :: items' => x :: sep :: join sep items'
  end.

(** * Regular expressions

    Every pattern of the sources is a sequence of anchors and of
    character sets under a quantifier, some of them inside a capturing
    group. [re_match] follows the backtracking matcher of Python's [re]:
    a quantifier is greedy and gives characters back one at a time. *)

Inductive quant := One | Star | Plus.

Inductive node :=
| Bol                                         (* ^ *)
| Eol                                         (* $ *)
| Chars (set : ascii → bool) (q : quant)      (* a set, possibly repeated *)
| Group (set : ascii → bool) (q : quant).     (* the same, captured *)

(** [.] matches anything but a newline. *)
Definition dot (c : ascii) : bool := negb (code c =? 10)%N.

Definition lit (c : ascii) : ascii → bool := Ascii.eqb c.

(** [$] matches at the end of the string and before a final newline. *)
Definition at_end (s : string) : bool :=
  match s with
  | EmptyString => true
  | String c EmptyString => (code c =? 10)%N
  | _ => false
  end.

Fixpoint greedy {A} (set : ascii → bool) (k : string → string → option A)
    (taken s : string) : option A :=
  match s with
  | String c s' =>
      if set c then
        match greedy set k (taken +:+ String c "") s' with
        | Some r => Some r
        | None => k taken s
        end
      else k taken s
  | EmptyString => k taken s
  end.

Definition repeated {A} (set : ascii → bool) (q : quant)
    (k : string → string → option A) (s : string) : option A :=
  match q with
  | Star => greedy set k "" s
  | One =>
      match s with
      | String c s' => if set c then k (String c "") s' else None
      | EmptyString => None
      end
  | Plus =>
      match s with
      | String c s' => if set c then greedy set k (String c "") s' else None
      | EmptyString => None
      end
  end.

(** [run p bol s]: match the pattern [p] against [s], where [bol] tells
    whether [s] starts at the beginning of the subject. The result lists
    the captured groups from left to right. *)
Fixpoint run (p : list node) (bol : bool) (s : string) : option (list string) :=
  match p with
  | [] => Some []
  | Bol :: p' => if bol then run p' bol s else None
  | Eol :: p' => if at_end s then run p' bol s else None
  | Chars set q :: p' =>
      repeated set q
        (λ taken rest, run p' (bol && String.eqb taken "") rest) s
  | Group set q :: p' =>
      repeated set q
        (λ taken rest,
           cons taken <$> run p' (bol && String.eqb taken "") rest) s
  end.

(** [re.match(pattern, s)] *)
Definition re_match (pattern : list node) (s : string) : option (list string) :=
  run pattern true s.

(** * abbreviations.py *)

(** [NON_CAPITALS = "[^A-Z]*"] *)
Definition NON_CAPITALS : node := Chars (λ c, negb (is_capital c)) Star.

(** The pattern fragment one character of [f"^{string}$"] stands for.
    The characters of [string] are letters, which a pattern takes
    literally. *)
Definition fragment (c : ascii) : node :=
  if Ascii.eqb c "^" then Bol
  else if Ascii.eqb c "$" then Eol
  else Chars (lit c) One.

Record Abbreviation := mkAbbreviation {
  abbrev_string : string;
  abbrev_regex : list node
}.

Definition Abbreviation_init (s : string) : outcome Abbreviation :=
  if String.eqb s "" then
    Raise (ValueError "empty abbreviation string" [])
  else if negb (isalpha s) then
    Raise (ValueError "non-alphabetic abbreviation string: {string!r}" [])
  else
    Ok {| abbrev_string := s;
          abbrev_regex :=
            join NON_CAPITALS (fragment <$> string_chars ("^" +:+ s +:+ "$")) |}.

Definition abbreviates (a : Abbreviation) (long_string : string) : bool :=
  bool_decide (is_Some (re_match (abbrev_regex a) long_string)).

Record AbbreviationResolver := mkResolver {
  string_collection : gset string;
  lookup_table : gmap string string
}.

Definition AbbreviationResolver_init (strings : list string) : AbbreviationResolver :=
  {| string_collection := list_to_set strings; lookup_table := ∅ |}.

Definition _resolve_abbreviation (abbrev : Abbreviation) : M AbbreviationResolver string :=
  self ← get;
  let possible_matches : gset string :=
    filter (λ long_string, abbreviates abbrev long_string = true)
           (string_collection self) in
  if decide (1 < size possible_matches) then
    raise (ValueError "too many strings match abbreviation: "
             (abbrev_string abbrev :: elements possible_matches))
  else if decide (size possible_matches = 0) then
    raise (ValueError "found no strings matching abbreviation: "
             [abbrev_string abbrev])
  else
    match elements possible_matches with
    | long_string :: _ => mret long_string
    | [] => raise (KeyError "pop from an empty set")
    end.

(** [AbbreviationResolver.__call__] *)
Definition resolve (abbrev_str : string) : M AbbreviationResolver string :=
  self ← get;
  match lookup_table self !! abbrev_str with
  | Some full => mret full
  | None =>
      abbrev ← lift (Abbreviation_init abbrev_str);
      _resolve_abbreviation abbrev
  end.

(** * products.py *)

Record Product := mkProduct { product_name : string }.

Global Instance Product_eq_dec : EqDecision Product.
Proof. solve_decision. Defined.
Global Instance Product_countable : Countable Product :=
  inj_countable' product_name mkProduct (λ p, match p with mkProduct _ => eq_refl end).

Definition Product_init (name : string) : outcome Product :=
  let name := strip name in
  if String.eqb name "" then
    Raise (ValueError "product name empty or all whitespace" [])
  else Ok {| product_name := name |}.

Record ProductQuantity (T : Type) := mkProductQuantity {
  quantity : T;
  product : Product
}.
Arguments mkProductQuantity {T} quantity product.
Arguments quantity {T} p.
Arguments product {T} p.

(** The constructor takes a [Product] or the name of one. *)
Definition ProductQuantity_init {T} (quantity : T) (product : Product + string)
    : outcome (ProductQuantity T) :=
  product ← match product with
            | inl p => Ok p
            | inr name => Product_init name
            end;
  Ok (mkProductQuantity quantity product).

(** The [name] property. *)
Definition ProductQuantity_name {T} (pq : ProductQuantity T) : string :=
  product_name (product pq).

(** * facilities.py *)

Record FacilityCategory := mkFacilityCategory { category_name : string }.

Global Instance FacilityCategory_eq_dec : EqDecision FacilityCategory.
Proof. solve_decision. Defined.
Global Instance FacilityCategory_countable : Countable FacilityCategory :=
  inj_countable' category_name mkFacilityCategory
    (λ c, match c with mkFacilityCategory _ => eq_refl end).

Definition FacilityCategory_init (name : string) : outcome FacilityCategory :=
  let name := strip name in
  if String.eqb name "" then
    Raise (ValueError "facility category name empty or all whitespace" [])
  else Ok {| category_name := name |}.

Record Facility := mkFacility {
  category : FacilityCategory;
  adjective : string;
  speed : Qc
}.

Definition Facility_init (category : FacilityCategory + string)
    (adjective : string) (speed : Qc) : outcome Facility :=
  category ← match category with
             | inl c => Ok c
             | inr name => FacilityCategory_init name
             end;
  Ok (mkFacility category adjective speed).

(** The [name] property. *)
Definition Facility_name (f : Facility) : string :=
  if String.eqb (adjective f) "" then category_name (category f)
  else adjective f +:+ " " +:+ category_name (category f).

(** * rates.py *)

(** [Fraction.__truediv__] *)
Definition Fraction_div (a b : Qc) : outcome Qc :=
  if decide (b = 0%Qc) then Raise ZeroDivisionError else Ok (a / b)%Qc.

Record Time := mkTime { seconds : Qc }.
Record Rate := mkRate { per_second : Qc }.

(** [Time(rate)] and [Rate(time)]: the constructors invert a quantity of
    the other type. *)
Definition Time_of_Rate (r : Rate) : outcome Time :=
  mkTime <$> Fraction_div 1%Qc (per_second r).
Definition Rate_of_Time (t : Time) : outcome Rate :=
  mkRate <$> Fraction_div 1%Qc (seconds t).

Definition Time_zero : Time := mkTime 0%Qc.
Definition Time_neg (a : Time) : Time := mkTime (- seconds a)%Qc.
Definition Time_add (a b : Time) : Time := mkTime (seconds a + seconds b)%Qc.
Definition Time_sub (a b : Time) : Time := mkTime (seconds a - seconds b)%Qc.
(** [Time.__mul__] with a scalar, and with a [Rate]. *)
Definition Time_mul (a : Time) (k : Qc) : Time := mkTime (seconds a * k)%Qc.
Definition Time_mul_Rate (a : Time) (r : Rate) : Qc := (seconds a * per_second r)%Qc.
(** [Time.__truediv__] with a [Time], and with a scalar. *)
Definition Time_div_Time (a b : Time) : outcome Qc :=
  Fraction_div (seconds a) (seconds b).
Definition Time_div (a : Time) (k : Qc) : outcome Time :=
  mkTime <$> Fraction_div (seconds a) k.
(** [Time.__rtruediv__]: [other / self] is computed as [Rate(self / other)]. *)
Definition Time_rtruediv (self : Time) (other : Qc) : outcome Rate :=
  t ← Time_div self other; Rate_of_Time t.

Definition Rate_zero : Rate := mkRate 0%Qc.
Definition Rate_neg (a : Rate) : Rate := mkRate (- per_second a)%Qc.
Definition Rate_add (a b : Rate) : Rate := mkRate (per_second a + per_second b)%Qc.
Definition Rate_sub (a b : Rate) : Rate := mkRate (per_second a - per_second b)%Qc.
Definition Rate_mul (a : Rate) (k : Qc) : Rate := mkRate (per_second a * k)%Qc.
Definition Rate_mul_Time (a : Rate) (t : Time) : Qc := (per_second a * seconds t)%Qc.
Definition Rate_div_Rate (a b : Rate) : outcome Qc :=
  Fraction_div (per_second a) (per_second b).
Definition Rate_div (a : Rate) (k : Qc) : outcome Rate :=
  mkRate <$> Fraction_div (per_second a) k.
Definition Rate_rtruediv (self : Rate) (other : Qc) : outcome Time :=
  r ← Rate_div self other; Time_of_Rate r.

(** The order the dataclass derives: that of the single field. *)
Definition Rate_lt (a b : Rate) : bool := bool_decide (per_second a < per_second b)%Qc.
Definition Rate_le (a b : Rate) : bool := bool_decide (per_second a ≤ per_second b)%Qc.
Definition Rate_gt (a b : Rate) : bool := Rate_lt b a.

(** * recipes.py *)

Record Recipe := mkRecipe {
  recipe_name : string;
  outputs : list (ProductQuantity Z);
  inputs : list (ProductQuantity Z);
  period : Time;
  made_in : FacilityCategory
}.

(** [sorted(l, key=key)]: the sort is stable, an element goes in front of
    the later ones with the same key. *)
Fixpoint insert_by_key {A} (key : A → Z) (x : A) (l : list A) : list A :=
  match l with
  | [] => [x]
  | y :: l' => if (key x <=? key y)%Z then x :: l else y :: insert_by_key key x l'
  end.

Definition sorted {A} (key : A → Z) (l : list A) : list A :=
  foldr (insert_by_key key) [] l.

(** [hash] of an [int] (CPython, 64-bit build): the value is reduced
    modulo the Mersenne prime 2^61 - 1, keeps the sign, and -1 is
    reserved. *)
Definition hash_modulus : Z := 2 ^ 61 - 1.

Definition hash_int (n : Z) : Z :=
  let h := (Z.sgn n * (Z.abs n mod hash_modulus))%Z in
  if (h =? -1)%Z then (-2)%Z else h.

Section hashing.
(** The hash of a [str] is keyed per process and that of a [tuple]
    combines the hashes of its items; neither is fixed here. *)
Variable hash_str : string → Z.
Variable hash_tuple : list Z → Z.

(** A frozen dataclass hashes the tuple of its fields. *)
Definition hash_Product (p : Product) : Z :=
  hash_tuple [hash_str (product_name p)].

Definition hash_ProductQuantity (pq : ProductQuantity Z) : Z :=
  hash_tuple [hash_int (quantity pq); hash_Product (product pq)].

Definition Recipe_init (name : option string)
    (outputs inputs : list (ProductQuantity Z))
    (period : Time) (made_in : FacilityCategory) : outcome Recipe :=
  (* [autoname] is bound only when there is exactly one output *)
  let autoname : option string :=
    match outputs with
    | [output] => Some (ProductQuantity_name output)
    | _ => None
    end in
  name ← match name with
         | Some name => Ok name
         | None =>
             match autoname with
             | Some autoname => Ok autoname
             | None => Raise (UnboundLocalError "autoname")
             end
         end;
  let cleaned_name := strip name in
  if String.eqb cleaned_name "" then
    Raise (ValueError "recipe name empty or all whitespace" [])
  else if (length outputs <? 1)%nat then
    Raise (ValueError "recipe output collection is empty" [])
  else if (length inputs <? 1)%nat then
    Raise (ValueError "recipe input collection is empty" [])
  else
    Ok {| recipe_name := cleaned_name;
          outputs := sorted hash_ProductQuantity outputs;
          inputs := sorted hash_ProductQuantity inputs;
          period := period;
          made_in := made_in |}.
End hashing.

(** * rational_utilities.py *)

Definition digit_value (c : ascii) : Z := (Z.of_N (code c) - 48)%Z.

Fixpoint digits_value (acc : Z) (s : string) : Z :=
  match s with
  | EmptyString => acc
  | String c s' => digits_value (10 * acc + digit_value c)%Z s'
  end.

(** [int(s)], for a decimal literal without sign. *)
Definition int_of_string (s : string) : outcome Z :=
  if negb (String.eqb s "") && all_chars is_digit s then Ok (digits_value 0 s)
  else Raise (ValueError "invalid literal for int() with base 10: " [s]).

(** The text before the first dot, and the text after it when there is
    one. *)
Fixpoint split_at_dot (s : string) : string * option string :=
  match s with
  | EmptyString => (EmptyString, None)
  | String c s' =>
      if Ascii.eqb c "." then (EmptyString, Some s')
      else let '(num, decimal) := split_at_dot s' in (String c num, decimal)
  end.

(** [Fraction(s)] for a string of digits and dots, the strings the arrow
    pattern captures: an integer, or a decimal literal with digits on at
    least one side of its dot. [None] stands for the [ValueError] that
    [try_read_rational] catches. *)
Definition try_read_rational (s : string) : option Qc :=
  match split_at_dot s with
  | (num, None) =>
      if negb (String.eqb num "") && all_chars is_digit num
      then Some (Qc_of_Z (digits_value 0 num)) else None
  | (num, Some decimal) =>
      if all_chars is_digit num && all_chars is_digit decimal
         && negb (String.eqb num "" && String.eqb decimal "")
      then Some (Qc_of_Z (digits_value 0 (num +:+ decimal))
                 / Qc_of_Z (10 ^ Z.of_nat (String.length decimal)))%Qc
      else None
  end.

Definition read_rational (s : string) : outcome Qc :=
  match try_read_rational s with
  | Some r => Ok r
  | None => Raise (ValueError "string could not be read as a rational" [s])
  end.

(** * databases.py *)

(** The part of a [DataBase] the recipe reader consults. *)
Record DataBase := mkDataBase {
  facility_categories : gset FacilityCategory;
  products : gset Product
}.

(** * recipe_readers.py *)

Definition space : ascii → bool := lit " ".

(** [^\#.*$] *)
Definition COMMENT_LINE_REGEX : list node :=
  [Bol; Chars (lit "#") One; Chars dot Star; Eol].

(** [^\^ *([0-9.]+) *s *\((.+)\)$] *)
Definition ARROW_LINE_REGEX : list node :=
  [Bol; Chars (lit "^") One; Chars space Star;
   Group (λ c, is_digit c || lit "." c) Plus; Chars space Star;
   Chars (lit "s") One; Chars space Star;
   Chars (lit "(") One; Group dot Plus; Chars (lit ")") One; Eol].

(** [^<> *(.+)$] *)
Definition NAMETAG_LINE_REGEX : list node :=
  [Bol; Chars (lit "<") One; Chars (lit ">") One; Chars space Star;
   Group dot Plus; Eol].

(** [^([0-9]+) +(.+)$] *)
Definition INGREDIENT_LINE_REGEX : list node :=
  [Bol; Group is_digit Plus; Chars space Plus; Group dot Plus; Eol].

(** [enumerate(l)] *)
Definition enumerate {A} (l : list A) : list (nat * A) := imap pair l.

(** [l[start:stop]] *)
Definition slice {A} (start stop : nat) (l : list A) : list A :=
  take (stop - start) (drop start l).

Definition _split_on_blank_lines (list_of_lines : list string) : list (list string) :=
  let step (st : list (list string) * option nat) (il : nat * string) :=
    let '(list_of_blocks, current_block_start) := st in
    let '(i, line) := il in
    if String.eqb line "" then
      (match current_block_start with
       | Some start => list_of_blocks ++ [slice start i list_of_lines]
       | None => list_of_blocks
       end, None)
    else
      match current_block_start with
      | None => (list_of_blocks, Some i)
      | Some _ => st
      end in
  let '(list_of_blocks, current_block_start) :=
    foldl step ([], None) (enumerate list_of_lines) in
  match current_block_start with
  | Some start => list_of_blocks ++ [drop start list_of_lines]
  | None => list_of_blocks
  end.

(** The objects the substitution pass of [read_recipe_file] works on. *)
Record reader := mkReader {
  file_lines : list string;
  product_resolver : AbbreviationResolver;
  category_resolver : AbbreviationResolver
}.

Definition call_product_resolver (s : string) : M reader string := λ st,
  let '(o, r) := resolve s (product_resolver st) in
  (o, mkReader (file_lines st) r (category_resolver st)).

Definition call_category_resolver (s : string) : M reader string := λ st,
  let '(o, r) := resolve s (category_resolver st) in
  (o, mkReader (file_lines st) (product_resolver st) r).

(** [file_lines[i] = line] *)
Definition set_line (i : nat) (line : string) : M reader unit :=
  modify (λ st, mkReader (<[i := line]> (file_lines st))
                  (product_resolver st) (category_resolver st)).

(** [lines] is what [f.readlines()] returns. The pass visits every line
    once; a line is replaced after it has been read. *)
Definition read_recipe_file (lines : list string) (db : DataBase)
    : outcome (list (list string)) :=
  let stripped := strip <$> lines in
  let kept := filter (λ line, re_match COMMENT_LINE_REGEX line = None) stripped in
  let all_products : gset string := set_map product_name (products db) in
  let all_categories : gset string := set_map category_name (facility_categories db) in
  let body (il : nat * string) : M reader unit :=
    let '(i, line) := il in
    match re_match INGREDIENT_LINE_REGEX line with
    | Some groups =>
        match groups with
        | [number_string; product_name] =>
            if decide (product_name ∉ all_products) then
              (* the name [productname] is bound nowhere *)
              productname ← raise (NameError "productname");
              full_product_name ← call_product_resolver productname;
              set_line i (number_string +:+ " " +:+ full_product_name)
            else mret tt
        | _ => mret tt
        end
    | None =>
        match re_match ARROW_LINE_REGEX line with
        | Some [seconds_string; category_name] =>
            if decide (category_name ∉ all_categories) then
              full_category_name ← call_category_resolver category_name;
              set_line i ("^ " +:+ seconds_string +:+ " s ("
                          +:+ full_category_name +:+ ")")
            else mret tt
        | _ => mret tt
        end
    end in
  let start :=
    {| file_lines := kept;
       product_resolver := AbbreviationResolver_init (elements all_products);
       category_resolver := AbbreviationResolver_init (elements all_categories) |} in
  match for_each (enumerate kept) body start with
  | (Ok _, st) => Ok (_split_on_blank_lines (file_lines st))
  | (Raise e, _) => Raise e
  | (Diverge, _) => Diverge
  end.

Definition _parse_ingredient (recipe_block : list string) (i : Z)
    : outcome (option (ProductQuantity Z)) :=
  if (i <? 0)%Z || (i >=? Z.of_nat (length recipe_block))%Z then Ok None
  else
    match re_match INGREDIENT_LINE_REGEX (default "" (recipe_block !! Z.to_nat i)) with
    | Some [number_string; product_name] =>
        n ← int_of_string number_string;
        Some <$> ProductQuantity_init n (inr product_name)
    | _ => Ok None
    end.

Definition _parse_arrow_line (recipe_block : list string) (i : Z)
    : outcome (Time * FacilityCategory) :=
  if (i <? 0)%Z || (i >=? Z.of_nat (length recipe_block))%Z then
    Raise (ValueError "arrow line index out of bounds" [])
  else
    let line := default "" (recipe_block !! Z.to_nat i) in
    match re_match ARROW_LINE_REGEX line with
    | Some [seconds_string; category_name] =>
        seconds ← read_rational seconds_string;
        made_in ← FacilityCategory_init category_name;
        Ok (mkTime seconds, made_in)
    | _ => Raise (ValueError "unable to parse arrow line: " [line])
    end.

Definition _parse_nametag_line (recipe_block : list string) (i : Z)
    : outcome (option string) :=
  if (i <? 0)%Z || (i >=? Z.of_nat (length recipe_block))%Z then Ok None
  else if (i =? Z.of_nat (length recipe_block) - 1)%Z then
    Raise (ValueError "started to parse nametag line before end of recipe" [])
  else
    let line := default "" (recipe_block !! Z.to_nat i) in
    match re_match NAMETAG_LINE_REGEX line with
    | Some [recipe_name] => Ok (Some recipe_name)
    | _ => Raise (ValueError "unable to parse nametag line: " [line])
    end.

(** The loop [while ingredient is not None] of [read_recipe]. It stops at
    the end of the block at the latest, so [length recipe_block] rounds
    are enough. *)
Fixpoint ingredient_lines (rounds : nat) (recipe_block : list string) (i : Z)
    (ingredients : list (ProductQuantity Z))
    : outcome (list (ProductQuantity Z) * Z) :=
  ingredient ← _parse_ingredient recipe_block i;
  match ingredient with
  | None => Ok (ingredients, i)
  | Some ingredient =>
      match rounds with
      | 0 => Diverge
      | S rounds' =>
          ingredient_lines rounds' recipe_block (i + 1)%Z (ingredients ++ [ingredient])
      end
  end.

Section reading.
Variable hash_str : string → Z.
Variable hash_tuple : list Z → Z.

Definition read_recipe (recipe_block : list string) : outcome Recipe :=
  let i := 0%Z in
  '(r_outputs, i) ← ingredient_lines (length recipe_block) recipe_block i [];
  '(r_period, r_madein) ← _parse_arrow_line recipe_block i;
  let i := (i + 1)%Z in
  '(r_inputs, i) ← ingredient_lines (length recipe_block) recipe_block i [];
  r_name ← _parse_nametag_line recipe_block i;
  Recipe_init hash_str hash_tuple r_name r_outputs r_inputs r_period r_madein.
End reading.

(** * factories.py *)

(** [d[key]] *)
Definition getitem (d : gmap Product Rate) (key : Product) : outcome Rate :=
  match d !! key with
  | Some r => Ok r
  | None => Raise (KeyError (product_name key))
  end.

(** [key in d] *)
Definition contains {V} (d : gmap Product V) (key : Product) : bool :=
  bool_decide (is_Some (d !! key)).

(** [for x in l], with the local variable [acc] the body updates. *)
Fixpoint fold_each {S A B} (l : list A) (acc : B) (body : B → A → M S B) : M S B :=
  match l with
  | [] => mret acc
  | x :: l' => acc' ← body acc x; fold_each l' acc' body
  end.

Module RecipeCrafter.

Record t := mk {
  recipe : Recipe;
  facility : Facility;
  how_many : Qc;
  _rates : gmap Product Rate
}.

Definition __init__ (recipe : Recipe) (facility : Facility) (how_many : Qc)
    : outcome t :=
  if bool_decide (how_many ≤ 0)%Qc then
    Raise (ValueError "RecipeProducer should not have howmany <= 0" [])
  else Ok (mk recipe facility how_many ∅).

Definition set_rates (f : gmap Product Rate → gmap Product Rate) : M t unit :=
  modify (λ self, mk (recipe self) (facility self) (how_many self) (f (_rates self))).

Definition set_how_many (f : Qc → Qc) : M t unit :=
  modify (λ self, mk (recipe self) (facility self) (f (how_many self)) (_rates self)).

Definition _compute_rates : M t (gmap Product Rate) :=
  set_rates (λ _, ∅);;
  self ← get;
  for_each (outputs (recipe self)) (λ output,
    self ← get;
    recipe_rate ← lift (Time_rtruediv (period (recipe self))
                                      (Qc_of_Z (quantity output)));
    let total_rate :=
      Rate_mul (Rate_mul recipe_rate (speed (facility self))) (how_many self) in
    set_rates (λ rates,
      <[product output :=
          Rate_add (default Rate_zero (rates !! product output)) total_rate]> rates));;
  for_each (inputs (recipe self)) (λ input_,
    self ← get;
    recipe_rate ← lift (Time_rtruediv (period (recipe self))
                                      (Qc_of_Z (quantity input_)));
    let total_rate :=
      Rate_mul (Rate_mul recipe_rate (speed (facility self))) (how_many self) in
    set_rates (λ rates,
      <[product input_ :=
          Rate_sub (default Rate_zero (rates !! product input_)) total_rate]> rates));;
  gets _rates.

(** The [rates] property. Its last line reads the property again, one
    level deeper, where the attribute [_rates] was to be returned. *)
Fixpoint rates (depth : nat) : M t (gmap Product Rate) :=
  match depth with
  | 0 => diverge
  | S depth' =>
      self ← get;
      (if bool_decide (size (_rates self) = 0)
       then _compute_rates;; mret tt else mret tt);;
      rates depth'
  end.

Definition with_goal (depth : nat) (recipe : Recipe) (facility : Facility)
    (goal : ProductQuantity Rate) : outcome t :=
  let p := product goal in
  let rate := quantity goal in
  rc ← __init__ recipe facility 1%Qc;
  let body : M t unit :=
    absent ← (λ rs, negb (contains rs p)) <$> rates depth;
    unproductive ←
      (if absent : bool then mret true
       else rs ← rates depth; r ← lift (getitem rs p);
            mret (Rate_le r Rate_zero));
    if unproductive : bool then
      raise (ValueError "given recipe does not produce goal product" [])
    else
      rs ← rates depth;
      r ← lift (getitem rs p);
      rate_ratio ← lift (Rate_div_Rate rate r);
      set_how_many (λ n, n * rate_ratio)%Qc;;
      _compute_rates;;
      mret tt in
  match body rc with
  | (Ok _, rc) => Ok rc
  | (Raise e, _) => Raise e
  | (Diverge, _) => Diverge
  end.

End RecipeCrafter.

Module Factory.

(** A crafter is a mutable object that its factory and the caller
    share: the factory lists references into a store of crafters, and
    two references are the same crafter when they are equal. *)
Abbreviation ref := nat.

Record t := mk {
  goal : ProductQuantity Rate;
  crafters : list ref;
  _rates : gmap Product Rate;
  ignored_rates : gmap Product bool
}.

Record world := mkWorld {
  factory : t;
  store : ref → RecipeCrafter.t
}.

Definition __init__ (goal : ProductQuantity Rate) : t := mk goal [] ∅ ∅.

(** A method of the crafter behind [rc]. *)
Definition on_crafter {A} (rc : ref) (m : M RecipeCrafter.t A) : M world A :=
  λ w, let '(o, c) := m (store w rc) in
       (o, mkWorld (factory w) (<[rc := c]> (store w))).

Definition set_rates (f : gmap Product Rate → gmap Product Rate) : M world unit :=
  modify (λ w, let self := factory w in
    mkWorld (mk (goal self) (crafters self) (f (_rates self)) (ignored_rates self))
            (store w)).

Definition set_ignored_rates (f : gmap Product bool → gmap Product bool)
    : M world unit :=
  modify (λ w, let self := factory w in
    mkWorld (mk (goal self) (crafters self) (_rates self) (f (ignored_rates self)))
            (store w)).

Definition set_crafters (f : list ref → list ref) : M world unit :=
  modify (λ w, let self := factory w in
    mkWorld (mk (goal self) (f (crafters self)) (_rates self) (ignored_rates self))
            (store w)).

Definition _compute_rates (depth : nat) : M world (gmap Product Rate) :=
  set_rates (λ _, ∅);;
  self ← gets factory;
  set_rates (<[product (goal self) := Rate_neg (quantity (goal self))]>);;
  for_each (crafters self) (λ crafter,
    crafter_rates ← on_crafter crafter (RecipeCrafter.rates depth);
    for_each (map_to_list crafter_rates) (λ item,
      let '(product, rate) := item in
      set_rates (λ rates,
        <[product := Rate_add (default Rate_zero (rates !! product)) rate]> rates)));;
  gets (λ w, _rates (factory w)).

(** The [rates] property. *)
Definition rates (depth : nat) : M world (gmap Product Rate) :=
  self ← gets factory;
  (if bool_decide (size (_rates self) = 0)
   then _compute_rates depth;; mret tt else mret tt);;
  gets (λ w, _rates (factory w)).

Definition is_ignored (depth : nat) (p : Product) : M world bool :=
  rs ← rates depth;
  if negb (contains rs p) then
    raise (ValueError "product must exist to check if ignored" [])
  else gets (λ w, default false (ignored_rates (factory w) !! p)).

Definition negative_rates (depth : nat) : M world (gmap Product Rate) :=
  rs ← rates depth;
  fold_each (map_to_list rs) ∅ (λ negatives item,
    let '(product, product_rate) := item in
    ignored ← is_ignored depth product;
    if negb ignored && Rate_lt product_rate Rate_zero
    then mret (<[product := product_rate]> negatives)
    else mret negatives).

Definition find_crafters (depth : nat) (p : Product) : M world (list ref) :=
  self ← gets factory;
  fold_each (crafters self) [] (λ found crafter,
    present ← (λ rs, contains rs p) <$> on_crafter crafter (RecipeCrafter.rates depth);
    producing ←
      (if present : bool then
         rs ← on_crafter crafter (RecipeCrafter.rates depth);
         r ← lift (getitem rs p);
         mret (Rate_gt r Rate_zero)
       else mret false);
    mret (if producing : bool then found ++ [crafter] else found)).

Definition set_ignored (depth : nat) (p : Product) : M world unit :=
  rs ← rates depth;
  if negb (contains rs p) then
    raise (ValueError "product must exist to be set as ignored" [])
  else set_ignored_rates (<[p := true]>).

Definition set_all_ignored (depth : nat) : M world unit :=
  rs ← rates depth;
  for_each (map_to_list rs) (λ item, set_ignored_rates (<[item.1 := true]>)).

Definition connect_crafter (depth : nat) (rc : ref) : M world unit :=
  self ← gets factory;
  if bool_decide (rc ∈ crafters self) then
    raise (ValueError "cannot connect same crafter to a factory twice" [])
  else
    set_crafters (λ l, l ++ [rc]);;
    _compute_rates depth;;
    mret tt.

Definition upgrade_crafter (depth : nat) (rc : ref)
    (production_increase : ProductQuantity Rate) : M world unit :=
  let target := product production_increase in
  let delta_rate := quantity production_increase in
  self ← gets factory;
  if negb (bool_decide (rc ∈ crafters self)) then
    raise (ValueError "crafter must be factory-connected to upgrade" [])
  else
    present ← (λ rs, contains rs target) <$> on_crafter rc (RecipeCrafter.rates depth);
    (if present : bool then
       rs ← on_crafter rc (RecipeCrafter.rates depth);
       r ← lift (getitem rs target);
       if Rate_le r Rate_zero then
         raise (ValueError "upgrading crafter does not produce target product" [])
       else mret tt
     else mret tt);;
    rs ← on_crafter rc (RecipeCrafter.rates depth);
    r ← lift (getitem rs target);
    if Rate_le (Rate_add r delta_rate) Rate_zero then
      raise (ValueError "final upgraded crafter rate must be positive" [])
    else
      rs ← on_crafter rc (RecipeCrafter.rates depth);
      r1 ← lift (getitem rs target);
      rs ← on_crafter rc (RecipeCrafter.rates depth);
      r2 ← lift (getitem rs target);
      upgrade_ratio ← lift (Rate_div_Rate (Rate_add r1 delta_rate) r2);
      on_crafter rc (RecipeCrafter.set_how_many (λ n, n * upgrade_ratio)%Qc);;
      on_crafter rc RecipeCrafter._compute_rates;;
      _compute_rates depth;;
      mret tt.

End Factory.
(** * The matching rule, in the words of the specification

    A long string is abbreviated by [S] when it decomposes as a run of
    characters that are not uppercase letters, then the first character
    of [S], another such run, the second character, and so on, up to the
    last character of [S] and a final run.

    [decomposes] reads the uppercase letters as the capitals A to Z, the
    class of the pattern. *)

Definition non_capitals (run : string) : Prop :=
  all_chars (λ c, negb (is_capital c)) run = true.

Inductive decomposes : string → string → Prop :=
| decomposes_final (run : string) :
    non_capitals run → decomposes "" run
| decomposes_next (run : string) (c : ascii) (S L : string) :
    non_capitals run → decomposes S L →
    decomposes (String c S) (run +:+ String c L).

(** [decomposes_as_stated] reads them as every uppercase letter, the
    accented capitals with them. *)

Definition non_uppercase (run : string) : Prop :=
  all_chars (λ c, negb (isupper_char c)) run = true.

Inductive decomposes_as_stated : string → string → Prop :=
| as_stated_final (run : string) :
    non_uppercase run → decomposes_as_stated "" run
| as_stated_next (run : string) (c : ascii) (S L : string) :
    non_uppercase run → decomposes_as_stated S L →
    decomposes_as_stated (String c S) (run +:+ String c L).

(** The characters of the 7-bit range. *)
Definition seven_bit (s : string) : Prop :=
  all_chars (λ c, (code c <? 128)%N) s = true.

(** The compiled pattern of an abbreviation, past its [^]. *)
Fixpoint gaps (S : string) : list node :=
  match S with
  | EmptyString => [NON_CAPITALS; Eol]
  | String c S' => NON_CAPITALS :: Chars (lit c) One :: gaps S'
  end.

(** The characters of [s] that are in the set [p], in order. *)
Fixpoint keep (p : ascii → bool) (s : string) : string :=
  match s with
  | EmptyString => EmptyString
  | String c s' => if p c then String c (keep p s') else keep p s'
  end.

(** * Reasoning about stateful methods *)

(** [triple P m Q]: from a state in [P], the computation [m] ends with an
    outcome and a state in [Q]. *)
Definition triple {S A} (P : S → Prop) (m : M S A) (Q : outcome A → S → Prop) : Prop :=
  ∀ s, P s → Q (m s).1 (m s).2.

(** The postcondition of a step that keeps [I] when it returns and ends
    in [F] when it does not. *)
Definition keeps {S A} (I : S → Prop) (F : S → Prop) : outcome A → S → Prop :=
  λ o s, match o with Ok _ => I s | _ => F s end.

(** * States of crafters and factories *)

(** What a crafter is made of, the rate map apart. *)
Definition same_crafter (rc rc' : RecipeCrafter.t) : Prop :=
  RecipeCrafter.recipe rc' = RecipeCrafter.recipe rc
  ∧ RecipeCrafter.facility rc' = RecipeCrafter.facility rc
  ∧ RecipeCrafter.how_many rc' = RecipeCrafter.how_many rc.

(** The accessor of a crafter gets past its first two lines: the map is
    filled already, or filling it raises nothing. *)
Definition fills (rc : RecipeCrafter.t) : Prop :=
  size (RecipeCrafter._rates rc) ≠ 0
  ∨ returns (RecipeCrafter._compute_rates rc).1 = true.

(** What the operations that read a crafter's rates come to: the outcome
    of that read. *)
Definition stops_at_read {A} (o : outcome A) (reader : RecipeCrafter.t) : Prop :=
  returns o = false
  ∧ (o = Diverge ∨ o = Raise ZeroDivisionError)
  ∧ (fills reader → o = Diverge).

(** The states a factory is in between two calls of its methods: the
    rate map is empty only as long as no crafter was connected. *)
Definition settled (f : Factory.t) : Prop :=
  size (Factory._rates f) = 0 → Factory.crafters f = [].

(** The rate map of the factory holds an entry. *)
Definition filled (w : Factory.world) : Prop :=
  size (Factory._rates (Factory.factory w)) ≠ 0.

(** A method leaves the factory settled, however it ends. *)
Definition stays_settled {A} (m : M Factory.world A) : Prop :=
  triple (λ w, settled (Factory.factory w)) m (λ _ w, settled (Factory.factory w)).

(** [ignored_rates.get(p, False)] *)
Definition marked_ignored (f : Factory.t) (p : Product) : bool :=
  default false (Factory.ignored_rates f !! p).

(** One round of the loop of [negative_rates]. *)
Definition keep_negative (f : Factory.t) (negatives : gmap Product Rate)
    (item : Product * Rate) : gmap Product Rate :=
  if negb (marked_ignored f item.1) && Rate_lt item.2 Rate_zero
  then <[item.1 := item.2]> negatives else negatives.

(** * Sample data *)

Definition ingredient {T} (q : T) (name : string) : ProductQuantity T :=
  mkProductQuantity q (mkProduct name).

Definition Smelter : FacilityCategory := mkFacilityCategory "Smelter".
Definition Arc_Smelter : Facility := mkFacility Smelter "Arc" 1%Qc.

(** One Iron Ingot from one Iron Ore every second. *)
Definition Iron_Ingot : Recipe :=
  mkRecipe "Iron Ingot" [ingredient 1%Z "Iron Ingot"] [ingredient 1%Z "Iron Ore"]
           (mkTime 1%Qc) Smelter.

Definition iron_db : DataBase :=
  mkDataBase {[Smelter]} {[mkProduct "Iron Ore"; mkProduct "Iron Ingot"]}.

(** Two smelters at work, their rates computed: 2/s of ingots out of 2/s
    of ore. *)
Definition two_smelters : RecipeCrafter.t :=
  (RecipeCrafter._compute_rates (RecipeCrafter.mk Iron_Ingot Arc_Smelter 2%Qc ∅)).2.

(** A factory asked for 2/s of ingots, with those smelters connected
    under the reference 0. *)
Definition smelting : Factory.world :=
  Factory.mkWorld
    (Factory.mk (ingredient (mkRate 2%Qc) "Iron Ingot") [0]
                {[mkProduct "Iron Ingot" := mkRate (-2)%Qc]} ∅)
    (λ _, two_smelters).

(** A factory asked for 2/s of ingots, nothing connected yet. *)
Definition planned : Factory.world :=
  Factory.mkWorld (Factory.__init__ (ingredient (mkRate 2%Qc) "Iron Ingot"))
                  (λ _, two_smelters).

(** * Splitting into blocks, by recursion on the lines

    [split_blocks current lines]: the blocks of [lines], where [current]
    holds the lines of the block that is open. *)
Fixpoint split_blocks (current : list string) (lines : list string)
    : list (list string) :=
  match lines with
  | [] => match current with [] => [] | _ => [current] end
  | line :: lines' =>
      if String.eqb line "" then
        match current with
        | [] => split_blocks [] lines'
        | _ => current :: split_blocks [] lines'
        end
      else split_blocks (current ++ [line]) lines'
  end.

(** * Net rates, as sums

    [unit_rate recipe facility how_many item]: the rate at which
    [how_many] facilities turn over one ingredient of the recipe. *)
Definition unit_rate (recipe : Recipe) (facility : Facility) (how_many : Qc)
    (item : ProductQuantity Z) : Qc :=
  (Qc_of_Z (quantity item) / seconds (period recipe) * speed facility * how_many)%Qc.

(** The rates of the ingredients among [items] that are of the product
    [p], added up. *)
Fixpoint total_rate (recipe : Recipe) (facility : Facility) (how_many : Qc)
    (items : list (ProductQuantity Z)) (p : Product) : Qc :=
  match items with
  | [] => 0%Qc
  | item :: items' =>
      ((if decide (product item = p) then unit_rate recipe facility how_many item
        else 0) + total_rate recipe facility how_many items' p)%Qc
  end.

(** The ingredients of a recipe can be turned into rates: the period is
    not zero and no quantity is. *)
Definition rateable (recipe : Recipe) : Prop :=
  Forall (λ item : ProductQuantity Z,
            seconds (period recipe) ≠ 0%Qc ∧ quantity item ≠ 0%Z)
         (outputs recipe ++ inputs recipe).

(** The rate map of a crafter, read off the recipe. *)
Definition net_rates (rc : RecipeCrafter.t) (m : gmap Product Rate) : Prop :=
  let recipe := RecipeCrafter.recipe rc in
  let total := total_rate recipe (RecipeCrafter.facility rc) (RecipeCrafter.how_many rc) in
  ∀ p, m !! p =
       if decide (p ∈ product <$> (outputs recipe ++ inputs recipe)) then
         Some (mkRate (total (outputs recipe) p - total (inputs recipe) p)%Qc)
       else None.


(** The entries of the rate map of a factory that are below zero and
    not marked as ignored. *)
Definition gaps_of (f : Factory.t) : gmap Product Rate :=
  filter (λ item : Product * Rate,
            marked_ignored f item.1 = false ∧ (per_second item.2 < 0)%Qc)
         (Factory._rates f).

(** The same factory, with other entries for what is ignored. *)
Definition with_ignored (f : Factory.t) (ignored : gmap Product bool) : Factory.t :=
  Factory.mk (Factory.goal f) (Factory.crafters f) (Factory._rates f) ignored.

(** What a factory was told: its goal, its crafters and the products to
    ignore; the rate map is computed from them. *)
Definition configuration (w : Factory.world)
  : ProductQuantity Rate * list nat * gmap Product bool :=
  (Factory.goal (Factory.factory w), Factory.crafters (Factory.factory w),
   Factory.ignored_rates (Factory.factory w)).

(** * databases.py: the dictionaries and the lookup tables

    [Facility] and [Recipe] are frozen dataclasses: members of a set are
    told apart by their fields. *)

Global Instance Time_eq_dec : EqDecision Time.
Proof. solve_decision. Defined.
Global Instance Time_countable : Countable Time :=
  inj_countable' seconds mkTime (λ t, match t with mkTime _ => eq_refl end).

Global Instance Facility_eq_dec : EqDecision Facility.
Proof. solve_decision. Defined.
Global Instance Facility_countable : Countable Facility :=
  inj_countable' (λ f, (category f, adjective f, speed f))
                 (λ x, mkFacility x.1.1 x.1.2 x.2)
                 (λ f, match f with mkFacility _ _ _ => eq_refl end).

Global Instance ProductQuantity_eq_dec `{EqDecision T} : EqDecision (ProductQuantity T).
Proof. solve_decision. Defined.
Global Instance ProductQuantity_countable `{Countable T} : Countable (ProductQuantity T) :=
  inj_countable' (λ pq, (quantity pq, product pq))
                 (λ x, mkProductQuantity x.1 x.2)
                 (λ pq, match pq with mkProductQuantity _ _ => eq_refl end).

Global Instance Recipe_eq_dec : EqDecision Recipe.
Proof. solve_decision. Defined.
Global Instance Recipe_countable : Countable Recipe :=
  inj_countable' (λ r, (recipe_name r, outputs r, inputs r, period r, made_in r))
                 (λ x, mkRecipe x.1.1.1.1 x.1.1.1.2 x.1.1.2 x.1.2 x.2)
                 (λ r, match r with mkRecipe _ _ _ _ _ => eq_refl end).

(** A [DataBase] with all its attributes; [names] holds the two sets
    the recipe reader consults. *)
Module Tables.
Record t := mk {
  names : DataBase;
  facilities : gmap string Facility;
  recipes : gmap string Recipe;
  rates : gmap string Rate;
  times : gmap string Time;
  lookup_table_facilities : gmap FacilityCategory (gset Facility);
  lookup_table_recipes : gmap Product (gset Recipe)
}.

Definition __init__ : t := mk (mkDataBase ∅ ∅) ∅ ∅ ∅ ∅ ∅ ∅.

Definition set_lookup_table_facilities
    (f : gmap FacilityCategory (gset Facility) → gmap FacilityCategory (gset Facility))
    : M t unit :=
  modify (λ self, mk (names self) (facilities self) (recipes self) (rates self)
                     (times self) (f (lookup_table_facilities self))
                     (lookup_table_recipes self)).

Definition set_lookup_table_recipes
    (f : gmap Product (gset Recipe) → gmap Product (gset Recipe)) : M t unit :=
  modify (λ self, mk (names self) (facilities self) (recipes self) (rates self)
                     (times self) (lookup_table_facilities self)
                     (f (lookup_table_recipes self))).

(** The loop runs over the values of the dictionary; the table it
    builds holds sets, so that the order of the values is of no
    account. *)
Definition _make_table_facilities : M t unit :=
  self ← get;
  for_each (map_to_list (facilities self)).*2 (λ facility,
    table ← gets lookup_table_facilities;
    (if negb (bool_decide (is_Some (table !! category facility)))
     then set_lookup_table_facilities (<[category facility := ∅]>)
     else mret tt);;
    table ← gets lookup_table_facilities;
    match table !! category facility with
    | Some members =>
        set_lookup_table_facilities (<[category facility := members ∪ {[facility]}]>)
    | None => raise (KeyError (category_name (category facility)))
    end).

Definition _make_table_recipes : M t unit :=
  self ← get;
  for_each (map_to_list (recipes self)).*2 (λ recipe,
    for_each (outputs recipe) (λ quantity,
      table ← gets lookup_table_recipes;
      (if negb (bool_decide (is_Some (table !! product quantity)))
       then set_lookup_table_recipes (<[product quantity := ∅]>)
       else mret tt);;
      table ← gets lookup_table_recipes;
      match table !! product quantity with
      | Some members =>
          set_lookup_table_recipes (<[product quantity := members ∪ {[recipe]}]>)
      | None => raise (KeyError (product_name (product quantity)))
      end)).

(** The argument of [find_facilities]: a category, the name of one, or
    a recipe. *)
Inductive category_like :=
| of_category (c : FacilityCategory)
| of_str (name : string)
| of_recipe (recipe : Recipe).

Definition find_facilities (self : t) (category : category_like)
    : outcome (gset Facility) :=
  category ← match category with
             | of_str name => FacilityCategory_init name
             | of_recipe recipe => Ok (made_in recipe)
             | of_category c => Ok c
             end;
  Ok (default ∅ (lookup_table_facilities self !! category)).

Definition find_recipes (self : t) (recipe_output : Product + string)
    : outcome (gset Recipe) :=
  recipe_output ← match recipe_output with
                  | inl p => Ok p
                  | inr name => Product_init name
                  end;
  Ok (default ∅ (lookup_table_recipes self !! recipe_output)).
End Tables.

(** * data_loaders.py *)

Definition set_names (f : DataBase → DataBase) : M Tables.t unit :=
  modify (λ db, Tables.mk (f (Tables.names db)) (Tables.facilities db) (Tables.recipes db)
                          (Tables.rates db) (Tables.times db)
                          (Tables.lookup_table_facilities db)
                          (Tables.lookup_table_recipes db)).

Definition set_facilities (f : gmap string Facility → gmap string Facility)
    : M Tables.t unit :=
  modify (λ db, Tables.mk (Tables.names db) (f (Tables.facilities db)) (Tables.recipes db)
                          (Tables.rates db) (Tables.times db)
                          (Tables.lookup_table_facilities db)
                          (Tables.lookup_table_recipes db)).

Definition set_recipes (f : gmap string Recipe → gmap string Recipe) : M Tables.t unit :=
  modify (λ db, Tables.mk (Tables.names db) (Tables.facilities db) (f (Tables.recipes db))
                          (Tables.rates db) (Tables.times db)
                          (Tables.lookup_table_facilities db)
                          (Tables.lookup_table_recipes db)).

Definition set_db_rates (f : gmap string Rate → gmap string Rate) : M Tables.t unit :=
  modify (λ db, Tables.mk (Tables.names db) (Tables.facilities db) (Tables.recipes db)
                          (f (Tables.rates db)) (Tables.times db)
                          (Tables.lookup_table_facilities db)
                          (Tables.lookup_table_recipes db)).

Definition set_times (f : gmap string Time → gmap string Time) : M Tables.t unit :=
  modify (λ db, Tables.mk (Tables.names db) (Tables.facilities db) (Tables.recipes db)
                          (Tables.rates db) (f (Tables.times db))
                          (Tables.lookup_table_facilities db)
                          (Tables.lookup_table_recipes db)).

Definition _load_data_facility_category (toml_data : string) : M Tables.t unit :=
  let fc_name := toml_data in
  fc ← lift (FacilityCategory_init fc_name);
  db ← get;
  if bool_decide (fc ∈ facility_categories (Tables.names db)) then
    raise (ValueError "duplicate facility category name: " [category_name fc])
  else
    set_names (λ n, mkDataBase ({[fc]} ∪ facility_categories n) (products n)).

(** A table of the facilities file, with the three entries the loader
    reads; the speed stands for the value of [Fraction(speed)]. *)
Record FacilityData := mkFacilityData {
  data_category : string;
  data_adjective : string;
  data_speed : Qc
}.

Definition _load_data_facility (toml_data : FacilityData) : M Tables.t unit :=
  let f_category_name := data_category toml_data in
  let f_adjective := data_adjective toml_data in
  let f_speed := data_speed toml_data in
  f ← lift (Facility_init (inr f_category_name) f_adjective f_speed);
  db ← get;
  if bool_decide (is_Some (Tables.facilities db !! Facility_name f)) then
    raise (ValueError "duplicate facility name: " [Facility_name f])
  else if negb (bool_decide (category f ∈ facility_categories (Tables.names db))) then
    raise (ValueError "unknown facility category: " [category_name (category f)])
  else
    set_facilities (<[Facility_name f := f]>).

Definition _load_data_product (toml_data : string) : M Tables.t unit :=
  let p_name := toml_data in
  p ← lift (Product_init p_name);
  db ← get;
  if bool_decide (p ∈ products (Tables.names db)) then
    raise (ValueError "duplicate product name: " [product_name p])
  else
    set_names (λ n, mkDataBase (facility_categories n) ({[p]} ∪ products n)).

Section loading.
Variable hash_str : string → Z.
Variable hash_tuple : list Z → Z.

Definition _load_data_recipe (recipe_data : list string) : M Tables.t unit :=
  let recipe_block := recipe_data in
  r ← lift (read_recipe hash_str hash_tuple recipe_block);
  db ← get;
  if bool_decide (is_Some (Tables.recipes db !! recipe_name r)) then
    raise (ValueError "duplicate recipe name: " [recipe_name r])
  else
    set_recipes (<[recipe_name r := r]>).
End loading.

Definition _load_data_rate (toml_data : string * Z) : M Tables.t unit :=
  let rate_name := toml_data.1 in
  let r_per_second := toml_data.2 in
  let r := mkRate (Qc_of_Z r_per_second) in
  db ← get;
  if bool_decide (is_Some (Tables.rates db !! rate_name)) then
    raise (ValueError "duplicate rate name: " [rate_name])
  else
    set_db_rates (<[rate_name := r]>).

Definition _load_data_time (toml_data : string * Z) : M Tables.t unit :=
  let time_name := toml_data.1 in
  let t_seconds := toml_data.2 in
  let rate_name := "/" +:+ time_name in
  let t := mkTime (Qc_of_Z t_seconds) in
  r ← lift (Rate_of_Time t);
  db ← get;
  if bool_decide (is_Some (Tables.times db !! time_name)) then
    raise (ValueError "duplicate time name: " [time_name])
  else if bool_decide (is_Some (Tables.rates db !! rate_name)) then
    raise (ValueError "duplicate rate name was generated: " [rate_name])
  else
    set_times (<[time_name := t]>);;
    set_db_rates (<[rate_name := r]>).

(** * algorithms.py *)

Definition find_production_gaps (depth : nat) (db : Tables.t)
    : M Factory.world (list (ProductQuantity Rate)) :=
  possible_gaps ← Factory.negative_rates depth;
  fold_each (map_to_list possible_gaps) [] (λ verified_gaps item,
    let '(product, rate) := item in
    found ← lift (Tables.find_recipes db (inl product));
    if bool_decide (size found = 0) then
      Factory.set_ignored depth product;;
      mret verified_gaps
    else
      mret (verified_gaps ++ [mkProductQuantity (Rate_neg rate) product])).

(** * What the loaders maintain

    Every facility and recipe is filed under its own name, every
    facility belongs to a known category, and every named time comes
    with its inverse among the rates, under the name with a slash in
    front. *)
Record well_formed (db : Tables.t) : Prop := {
  facilities_named : ∀ key f, Tables.facilities db !! key = Some f →
    Facility_name f = key ∧ category f ∈ facility_categories (Tables.names db);
  recipes_named : ∀ key r, Tables.recipes db !! key = Some r → recipe_name r = key;
  times_inverted : ∀ key t, Tables.times db !! key = Some t →
    ∃ r, Tables.rates db !! ("/" +:+ key) = Some r
         ∧ (per_second r * seconds t = 1)%Qc
}.

(** A loader that fails has changed nothing; one that returns has kept
    the database well formed. *)
Definition loads {A} (m : M Tables.t A) : Prop :=
  ∀ db, well_formed db →
    well_formed (m db).2 ∧ (returns (m db).1 = false → (m db).2 = db).

(** Some recipe of the lookup table makes the product. *)
Definition makeable (db : Tables.t) (p : Product) : Prop :=
  default ∅ (Tables.lookup_table_recipes db !! p) ≠ (∅ : gset Recipe).

(** The category an argument of [find_facilities] stands for. *)
Definition denotes (like : Tables.category_like) (c : FacilityCategory) : Prop :=
  match like with
  | Tables.of_category c' => c' = c
  | Tables.of_str name => FacilityCategory_init name = Ok c
  | Tables.of_recipe recipe => made_in recipe = c
  end.

(** The product an argument of [find_recipes] stands for. *)
Definition names_product (like : Product + string) (p : Product) : Prop :=
  match like with
  | inl p' => p' = p
  | inr name => Product_init name = Ok p
  end.

(** Two databases that differ in their lookup tables at most. *)
Definition same_data (db db' : Tables.t) : Prop :=
  Tables.names db' = Tables.names db
  ∧ Tables.facilities db' = Tables.facilities db
  ∧ Tables.recipes db' = Tables.recipes db
  ∧ Tables.rates db' = Tables.rates db
  ∧ Tables.times db' = Tables.times db.

(** * The lookup tables, as folds *)

(** One round of the loops of [_make_table_facilities] and
    [_make_table_recipes]: the set under [key] gets one more member,
    and is created when the key is new. *)
Definition filed {K V : Type} {eqK : EqDecision K} {cK : Countable K} {eqV : EqDecision V}
    {cV : Countable V} (key : K) (v : V)
    (table : gmap K (gset V)) : gmap K (gset V) :=
  <[key := default ∅ (table !! key) ∪ {[v]}]> table.

(** The pairs the two loops of [_make_table_recipes] go through. *)
Definition made_by (l : list Recipe) : list (Product * Recipe) :=
  l ≫= λ recipe, (λ quantity, (product quantity, recipe)) <$> outputs recipe.


Global Instance makeable_dec (db : Tables.t) (p : Product) : Decision (makeable db p).
Proof. unfold makeable. apply _. Defined.

(** * The gaps of a factory, against the database *)

(** One round of the loop of [find_production_gaps], on the ignore marks
    and on the list it builds. *)
Definition ignore_unmakeable (db : Tables.t) (ignored : gmap Product bool)
    (item : Product * Rate) : gmap Product bool :=
  if decide (makeable db item.1) then ignored else <[item.1 := true]> ignored.

Definition demands (db : Tables.t) (l : list (Product * Rate))
    : list (ProductQuantity Rate) :=
  (λ item, mkProductQuantity (Rate_neg item.2) item.1)
    <$> filter (λ item, makeable db item.1) l.

(** * How a read of the rates of a crafter ends *)

(** The first pass of the accessor fails: the rate map is empty, and
    [_compute_rates] divides by a period or by a quantity that is
    zero. *)
Definition stalls (rc : RecipeCrafter.t) : Prop :=
  size (RecipeCrafter._rates rc) = 0
  ∧ Exists (λ item : ProductQuantity Z,
              seconds (period (RecipeCrafter.recipe rc)) = 0%Qc ∨ quantity item = 0%Z)
           (outputs (RecipeCrafter.recipe rc) ++ inputs (RecipeCrafter.recipe rc)).

(** A call that ends as the read of the rates of [reader] does: with
    ZeroDivisionError where the reader stalls, at every depth that lets
    the read begin, and at no depth otherwise. *)
Definition ends_as_read {A} (call : nat → outcome A) (reader : RecipeCrafter.t) : Prop :=
  (∀ depth, returns (call depth) = false)
  ∧ (stalls reader → ∀ depth, call (S depth) = Raise ZeroDivisionError)
  ∧ (¬ stalls reader → ∀ depth, call depth = Diverge).

(** The claim that the accessor never terminates. *)
Definition never_terminates (rc : RecipeCrafter.t) : Prop :=
  ∀ depth, (RecipeCrafter.rates depth rc).1 = Diverge.

(** An ingot out of ore in no time, and one smelter set to it. *)
Definition Instant_Ingot : Recipe :=
  mkRecipe "Iron Ingot" [ingredient 1%Z "Iron Ingot"] [ingredient 1%Z "Iron Ore"]
           (mkTime 0%Qc) Smelter.

Definition instant_smelter : RecipeCrafter.t :=
  RecipeCrafter.mk Instant_Ingot Arc_Smelter 1%Qc ∅.

(** * The rate map of a factory, in the words of the specification

    "[{goal.product: -goal.rate}] merged with the sum of all connected
    crafters' rate maps", the rate map of a crafter being the one that
    [RecipeCrafter._compute_rates] computes. *)

Definition crafter_rates (rc : RecipeCrafter.t) : gmap Product Rate :=
  match (RecipeCrafter._compute_rates rc).1 with
  | Ok rates => rates
  | _ => ∅
  end.

Definition merged (a b : gmap Product Rate) : gmap Product Rate :=
  union_with (λ x y, Some (Rate_add x y)) a b.

Definition aggregate (w : Factory.world) : gmap Product Rate :=
  let self := Factory.factory w in
  foldl (λ rates rc, merged rates (crafter_rates (Factory.store w rc)))
        {[product (Factory.goal self) := Rate_neg (quantity (Factory.goal self))]}
        (Factory.crafters self).

(** What the claim asks of [negative_rates]: the products whose net rate
    is below zero and that are not marked as ignored, with that rate. *)
Definition unmet (w : Factory.world) : gmap Product Rate :=
  filter (λ item : Product * Rate,
            marked_ignored (Factory.factory w) item.1 = false
            ∧ (per_second item.2 < 0)%Qc)
         (aggregate w).

(** The same factory with no crafter connected. *)
Definition alone (w : Factory.world) : Factory.world :=
  let self := Factory.factory w in
  Factory.mkWorld
    (Factory.mk (Factory.goal self) [] (Factory._rates self) (Factory.ignored_rates self))
    (Factory.store w).

(** The rate map of a factory holds the demand of the goal and nothing
    else. *)
Definition demand_filled (w : Factory.world) : Prop :=
  let self := Factory.factory w in
  Factory._rates self
  = {[product (Factory.goal self) := Rate_neg (quantity (Factory.goal self))]}.

(** The states the methods leave a factory in, as far as its rate map
    goes: empty before the first crafter, the demand of the goal ever
    after. *)
Definition goal_only (w : Factory.world) : Prop :=
  (Factory._rates (Factory.factory w) = ∅ ∧ Factory.crafters (Factory.factory w) = [])
  ∨ demand_filled w.

Definition stays_goal_only {A} (m : M Factory.world A) : Prop :=
  triple goal_only m (λ _, goal_only).

(** A factory asked for 2/s of ingots, and two smelters not yet
    connected, under the reference 0. *)
Definition ordered : Factory.world :=
  Factory.mkWorld (Factory.__init__ (ingredient (mkRate 2%Qc) "Iron Ingot"))
                  (λ _, RecipeCrafter.mk Iron_Ingot Arc_Smelter 2%Qc ∅).

(** * Properties *)

(** * Strings *)

Lemma append_nil_l (a : string) : "" +:+ a = a.
Proof. reflexivity. Qed.

Lemma append_cons (x : ascii) (a b : string) :
  String x a +:+ b = String x (a +:+ b).
Proof. reflexivity. Qed.

Lemma append_assoc (a b c : string) : (a +:+ b) +:+ c = a +:+ (b +:+ c).
Proof.
  induction a as [|x a IH]; [done|]. rewrite !append_cons. by f_equal.
Qed.

Lemma append_nil_r (a : string) : a +:+ "" = a.
Proof.
  induction a as [|x a IH]; [done|]. rewrite append_cons. by f_equal.
Qed.

Lemma all_chars_append p (a b : string) :
  all_chars p (a +:+ b) = all_chars p a && all_chars p b.
Proof.
  induction a as [|x a IH]; [done|].
  rewrite append_cons. simpl. rewrite IH. by rewrite andb_assoc.
Qed.

Lemma keep_append p (a b : string) : keep p (a +:+ b) = keep p a +:+ keep p b.
Proof.
  induction a as [|x a IH]; [done|].
  rewrite append_cons. simpl. destruct (p x); rewrite IH; by rewrite ?append_cons.
Qed.

Lemma keep_none p (a : string) :
  all_chars (λ c, negb (p c)) a = true → keep p a = "".
Proof.
  induction a as [|x a IH]; simpl; [done |].
  destruct (p x); simpl; [done | exact IH].
Qed.

(** * The matcher *)

(** A greedy repetition succeeds exactly when some split of the subject
    does: a run inside the set, and a rest the continuation accepts. *)
Lemma greedy_is_Some {A} set (k : string → string → option A) (s taken : string) :
  is_Some (greedy set k taken s) ↔
  ∃ run rest, s = run +:+ rest ∧ all_chars set run = true
              ∧ is_Some (k (taken +:+ run) rest).
Proof.
  revert taken. induction s as [|c s IH]; intros taken; simpl.
  - split.
    + intros Hk. exists "", "". by rewrite (append_nil_r taken).
    + intros (run & rest & Hs & _ & Hk).
      destruct run; [|discriminate]. rewrite append_nil_l in Hs. subst rest.
      by rewrite append_nil_r in Hk.
  - destruct (set c) eqn:Hc.
    + split.
      * destruct (greedy set k (taken +:+ String c "") s) eqn:Hg.
        -- intros _.
           destruct (proj1 (IH (taken +:+ String c ""))) as (run & rest & -> & Hrun & Hk).
           { by rewrite Hg. }
           exists (String c run), rest. simpl. rewrite Hc.
           by rewrite append_assoc, append_cons, append_nil_l in Hk.
        -- intros Hk. exists "", (String c s). by rewrite (append_nil_r taken).
      * intros (run & rest & Hs & Hrun & Hk).
        destruct run as [|c' run].
        -- rewrite append_nil_l in Hs. subst rest. rewrite append_nil_r in Hk.
           by destruct (greedy set k (taken +:+ String c "") s).
        -- rewrite append_cons in Hs. injection Hs as <- ->. simpl in Hrun.
           apply andb_true_iff in Hrun as [_ Hrun].
           destruct (proj2 (IH (taken +:+ String c ""))) as [r Hr].
           { exists run, rest. by rewrite append_assoc, append_cons, append_nil_l. }
           by rewrite Hr.
    + split.
      * intros Hk. exists "", (String c s). by rewrite (append_nil_r taken).
      * intros (run & rest & Hs & Hrun & Hk).
        destruct run as [|c' run].
        -- rewrite append_nil_l in Hs. subst rest. by rewrite append_nil_r in Hk.
        -- rewrite append_cons in Hs. injection Hs as <- ->.
           simpl in Hrun. by rewrite Hc in Hrun.
Qed.

(** * Abbreviations *)

Lemma fragment_letter (c : ascii) :
  isalpha_char c = true → fragment c = Chars (lit c) One.
Proof.
  destruct c as [[] [] [] [] [] [] [] []]; try discriminate; reflexivity.
Qed.

Lemma abbrev_regex_gaps (S : string) :
  all_chars isalpha_char S = true →
  join NON_CAPITALS (fragment <$> string_chars ("^" +:+ S +:+ "$")) = Bol :: gaps S.
Proof.
  intros Halpha.
  change (join NON_CAPITALS (Bol :: (fragment <$> string_chars (S +:+ "$")))
          = Bol :: gaps S).
  assert (Htail : NON_CAPITALS :: join NON_CAPITALS (fragment <$> string_chars (S +:+ "$"))
                  = gaps S).
  { induction S as [|c S IH]; [reflexivity|].
    simpl in Halpha. apply andb_true_iff in Halpha as [Hc HS].
    simpl gaps. rewrite <- (IH HS). simpl. rewrite (fragment_letter c Hc).
    by destruct S. }
  rewrite <- Htail. by destruct S.
Qed.

Lemma decomposes_next_inv (c : ascii) (S L : string) :
  decomposes (String c S) L ↔
  ∃ run L', L = run +:+ String c L' ∧ non_capitals run ∧ decomposes S L'.
Proof.
  split.
  - inversion 1; subst. eauto.
  - intros (run & L' & -> & Hrun & HS). by constructor.
Qed.

Lemma run_gaps (S : string) : ∀ (bol : bool) (L : string),
  is_Some (run (gaps S) bol L) ↔ decomposes S L.
Proof.
  induction S as [|c S IH]; intros bol L.
  - simpl. unfold repeated. rewrite greedy_is_Some. split.
    + intros (run & rest & -> & Hrun & Hend). constructor.
      unfold non_capitals. rewrite all_chars_append, Hrun. simpl.
      destruct (at_end rest) eqn:Hrest; [|by destruct Hend].
      destruct rest as [|x [|y rest]]; simpl in *; try done.
      apply N.eqb_eq in Hrest. unfold is_capital. rewrite Hrest. done.
    + inversion 1; subst. exists L, "". by rewrite append_nil_r.
  - simpl. rewrite greedy_is_Some, decomposes_next_inv.
    split.
    + intros (run & rest & -> & Hrun & Hk). simpl in Hk.
      destruct rest as [|c' rest]; [by destruct Hk|].
      unfold lit in Hk. destruct (Ascii.eqb_spec c c') as [<-|]; [|by destruct Hk].
      exists run, rest. split_and!; [done..|]. by eapply IH.
    + intros (run & L' & -> & Hrun & HS).
      exists run, (String c L'). split_and!; [done..|]. simpl.
      unfold lit. rewrite Ascii.eqb_refl. by apply IH.
Qed.

Lemma Abbreviation_init_alpha (S : string) :
  isalpha S = true →
  Abbreviation_init S = Ok {| abbrev_string := S; abbrev_regex := Bol :: gaps S |}.
Proof.
  intros Halpha. unfold Abbreviation_init. rewrite Halpha.
  unfold isalpha in Halpha. apply andb_true_iff in Halpha as [Hne Hall].
  destruct (String.eqb S "") eqn:HS; [done|]. cbn [negb].
  by rewrite (abbrev_regex_gaps S Hall).
Qed.

Lemma decomposes_capitals (S L : string) :
  decomposes S L → keep is_capital L = keep is_capital S.
Proof.
  induction 1 as [run Hrun|run c S L Hrun _ IH].
  - by apply keep_none.
  - rewrite keep_append, (keep_none _ _ Hrun). simpl. by rewrite IH.
Qed.

Lemma as_stated_uppercase (S L : string) :
  decomposes_as_stated S L → keep isupper_char L = keep isupper_char S.
Proof.
  induction 1 as [run Hrun|run c S L Hrun _ IH].
  - by apply keep_none.
  - rewrite keep_append, (keep_none _ _ Hrun). simpl. by rewrite IH.
Qed.

Lemma non_uppercase_non_capitals (run : string) : non_uppercase run → non_capitals run.
Proof.
  unfold non_uppercase, non_capitals. induction run as [|c run IH]; [done|]. simpl.
  intros [Hc Hrun]%andb_true_iff. rewrite IH by done.
  unfold isupper_char in Hc. by destruct (is_capital c).
Qed.

Lemma non_capitals_seven_bit (run : string) :
  seven_bit run → non_capitals run → non_uppercase run.
Proof.
  unfold seven_bit, non_uppercase, non_capitals.
  induction run as [|c run IH]; [done|]. simpl.
  intros [Hc Hrun]%andb_true_iff [Hcap Hcaps]%andb_true_iff.
  rewrite IH by done. unfold isupper_char.
  destruct (is_capital c); [done|]. simpl.
  apply N.ltb_lt in Hc. rewrite andb_true_r.
  apply negb_true_iff, orb_false_iff.
  split; apply andb_false_iff; left; apply N.leb_gt; lia.
Qed.

Lemma as_stated_decomposes (S L : string) : decomposes_as_stated S L → decomposes S L.
Proof.
  induction 1 as [run Hrun|run c S L Hrun _ IH]; constructor;
    auto using non_uppercase_non_capitals.
Qed.

Lemma seven_bit_append (a b : string) : seven_bit (a +:+ b) ↔ seven_bit a ∧ seven_bit b.
Proof. unfold seven_bit. by rewrite all_chars_append, andb_true_iff. Qed.

Lemma decomposes_seven_bit (S L : string) :
  seven_bit L → decomposes S L → decomposes_as_stated S L.
Proof.
  intros HL H. induction H as [run Hrun|run c S L Hrun _ IH].
  - constructor. by apply non_capitals_seven_bit.
  - apply seven_bit_append in HL as [Hr HL]. constructor.
    + by apply non_capitals_seven_bit.
    + apply IH. unfold seven_bit in *. simpl in HL. by apply andb_true_iff in HL as [_ ?].
Qed.

(** C5. For a non-empty alphabetic shorthand [S], [Abbreviation(S)] is
    built and abbreviates a string [L] exactly when [L] decomposes as runs
    of characters other than the capitals A to Z around the characters of
    [S], in order; the capitals A to Z of [L] are then those of [S]. A
    string that decomposes with runs free of every uppercase letter is
    abbreviated, and on a string of 7-bit characters the two readings
    agree. XRC abbreviates X-Ray Cracking. An empty or non-alphabetic
    string is refused with a ValueError. *)
Theorem abbreviates_iff_decomposes (S L : string) :
  (isalpha S = true →
     ∃ a, Abbreviation_init S = Ok a ∧ abbrev_string a = S ∧
          (abbreviates a L = true ↔ decomposes S L) ∧
          (abbreviates a L = true → keep is_capital L = keep is_capital S) ∧
          (decomposes_as_stated S L → abbreviates a L = true) ∧
          (seven_bit L → (abbreviates a L = true ↔ decomposes_as_stated S L)))
  ∧ (S = "" ∨ isalpha S = false →
     ∃ msg, Abbreviation_init S = Raise (ValueError msg []))
  ∧ (∃ a, Abbreviation_init "XRC" = Ok a ∧ abbreviates a "X-Ray Cracking" = true).
Proof.
  split_and!.
  - intros Halpha. eexists. split; [by apply Abbreviation_init_alpha|].
    assert (Hiff : abbreviates {| abbrev_string := S; abbrev_regex := Bol :: gaps S |} L = true
                   ↔ decomposes S L).
    { unfold abbreviates, re_match. simpl. rewrite bool_decide_eq_true. apply run_gaps. }
    split_and!; [done..| | |].
    + intros Hab. apply decomposes_capitals. by apply Hiff.
    + intros Hd. by apply Hiff, as_stated_decomposes.
    + intros HL. rewrite Hiff. split; [by apply decomposes_seven_bit|].
      apply as_stated_decomposes.
  - intros [->|Hnot]; unfold Abbreviation_init.
    + eauto.
    + destruct (String.eqb S ""); [eauto|]. rewrite Hnot. simpl. eauto.
  - eexists. split; [by apply Abbreviation_init_alpha|]. by vm_compute.
Qed.

Lemma abbreviates_iff_decomposes_witness :
  ∃ a, Abbreviation_init "XRCr" = Ok a ∧ abbrev_string a = "XRCr" ∧
       (abbreviates a "X-Ray Cracking" = true ↔ decomposes "XRCr" "X-Ray Cracking") ∧
       (abbreviates a "X-Ray Cracking" = true →
        keep is_capital "X-Ray Cracking" = keep is_capital "XRCr") ∧
       (decomposes_as_stated "XRCr" "X-Ray Cracking" →
        abbreviates a "X-Ray Cracking" = true) ∧
       (seven_bit "X-Ray Cracking" →
        (abbreviates a "X-Ray Cracking" = true
         ↔ decomposes_as_stated "XRCr" "X-Ray Cracking")).
Proof.
  apply (proj1 (abbreviates_iff_decomposes "XRCr" "X-Ray Cracking")).
  reflexivity.
Defined.

(** The accented capital E is no capital of the pattern: "a" abbreviates
    the string made of that letter and an "a", which holds an uppercase
    letter that "a" does not account for. Python builds the shorthand
    made of the accented letter alone. *)
Lemma abbreviates_accented_capital :
  (∃ a, Abbreviation_init "a" = Ok a
        ∧ abbreviates a (String "201" "a") = true
        ∧ ¬ decomposes_as_stated "a" (String "201" "a"))
  ∧ (∃ a, Abbreviation_init (String "201" "") = Ok a).
Proof.
  split.
  - eexists. split; [reflexivity|]. split; [by vm_compute|].
    intros H. apply as_stated_uppercase in H. by vm_compute in H.
  - eexists. reflexivity.
Qed.

(** * The resolver *)

Lemma resolve_state (abbrev_str : string) (r : AbbreviationResolver) :
  (resolve abbrev_str r).2 = r.
Proof.
  unfold resolve, _resolve_abbreviation, mbind, M_bind, get, lift, raise, mret, M_ret.
  destruct (lookup_table r !! abbrev_str); [done|].
  destruct (Abbreviation_init abbrev_str); [|done..].
  repeat case_decide; [done..|].
  by destruct (elements _).
Qed.

Section resolving.
Variable r : AbbreviationResolver.
Variable a : Abbreviation.

Let possible_matches : gset string :=
  filter (λ long_string, abbreviates a long_string = true) (string_collection r).

Lemma _resolve_abbreviation_unique (full : string) :
  possible_matches = {[full]} → _resolve_abbreviation a r = (Ok full, r).
Proof.
  unfold _resolve_abbreviation, mbind, M_bind, get. fold possible_matches.
  intros ->. rewrite size_singleton, elements_singleton.
  repeat case_decide; [lia..|done].
Qed.

Lemma _resolve_abbreviation_none :
  possible_matches = ∅ →
  _resolve_abbreviation a r
  = (Raise (ValueError "found no strings matching abbreviation: " [abbrev_string a]), r).
Proof.
  unfold _resolve_abbreviation, mbind, M_bind, get. fold possible_matches.
  intros ->. rewrite size_empty.
  repeat case_decide; [lia|done|done].
Qed.

Lemma _resolve_abbreviation_many :
  1 < size possible_matches →
  _resolve_abbreviation a r
  = (Raise (ValueError "too many strings match abbreviation: "
              (abbrev_string a :: elements possible_matches)), r).
Proof.
  unfold _resolve_abbreviation, mbind, M_bind, get. fold possible_matches.
  intros Hmany. by case_decide.
Qed.
End resolving.

(** C6. The lookup table of a resolver is read and never written:
    whatever [resolve] returns, it leaves the resolver as it found it. A
    shorthand with a single match is resolved, here XRC among X-Ray
    Cracking and Iron Ore, and is still absent from the table
    afterwards, so the next call matches the candidates again. *)
Theorem resolve_never_caches :
  (∀ abbrev_str r, (resolve abbrev_str r).2 = r)
  ∧ (let r := AbbreviationResolver_init ["X-Ray Cracking"; "Iron Ore"] in
     (resolve "XRC" r).1 = Ok "X-Ray Cracking"
     ∧ lookup_table (resolve "XRC" r).2 !! "XRC" = None
     ∧ lookup_table (resolve "XRC" r).2 = ∅).
Proof.
  split; [apply resolve_state|].
  intros r. rewrite resolve_state. split_and!; [by vm_compute|done..].
Qed.

(** * Recipes *)

Lemma hash_int_collision : hash_int (2 ^ 61) = hash_int 1.
Proof. reflexivity. Qed.

Lemma sorted_equal_keys {A} (key : A → Z) (x y : A) :
  key x = key y → sorted key [x; y] = [x; y].
Proof. intros Hkey. unfold sorted. simpl. by rewrite Hkey, Z.leb_refl. Qed.

Lemma insert_by_key_Permutation {A} (key : A → Z) (x : A) (l : list A) :
  insert_by_key key x l ≡ₚ x :: l.
Proof.
  induction l as [|y l IH]; simpl; [done|].
  destruct (key x <=? key y)%Z; [done|]. by rewrite IH, Permutation_swap.
Qed.

Lemma sorted_Permutation {A} (key : A → Z) (l : list A) : sorted key l ≡ₚ l.
Proof.
  induction l as [|x l IH]; [done|].
  unfold sorted in *. simpl. by rewrite insert_by_key_Permutation, IH.
Qed.

Lemma insert_by_key_Sorted {A} (key : A → Z) (x : A) (l : list A) :
  Sorted (λ a b, key a ≤ key b)%Z l →
  Sorted (λ a b, key a ≤ key b)%Z (insert_by_key key x l).
Proof.
  induction 1 as [|y l Hl IH Hy]; simpl; [by repeat constructor|].
  destruct (Z.leb_spec (key x) (key y)).
  - by repeat constructor.
  - constructor; [done|].
    destruct Hy as [|z l Hz]; simpl.
    + constructor. lia.
    + destruct (key x <=? key z)%Z; constructor; [lia|done].
Qed.

Lemma sorted_Sorted {A} (key : A → Z) (l : list A) :
  Sorted (λ a b, key a ≤ key b)%Z (sorted key l).
Proof.
  induction l as [|x l IH]; [constructor|]. by apply insert_by_key_Sorted.
Qed.

(** Where the elements of a list have distinct keys, sorting forgets the
    order they came in. *)
Lemma sorted_order_independent {A} (key : A → Z) (l l' : list A) :
  (∀ x y, x ∈ l → y ∈ l → key x = key y → x = y) →
  l ≡ₚ l' → sorted key l = sorted key l'.
Proof.
  intros Hinj Hperm.
  assert (Transitive (λ a b : A, key a ≤ key b)%Z) by (intros ???; lia).
  apply (Sorted_unique_strong (λ a b, key a ≤ key b)%Z);
    [|apply sorted_Sorted..|by rewrite !sorted_Permutation].
  intros x y Hx Hy ??. apply Hinj; [| |lia].
  - by rewrite sorted_Permutation in Hx.
  - by rewrite sorted_Permutation, <- Hperm in Hy.
Qed.

Section recipes.
Variable hash_str : string → Z.
Variable hash_tuple : list Z → Z.

Lemma Recipe_init_order_independent name outs outs' ins ins' period made_in :
  (∀ x y, x ∈ outs → y ∈ outs →
          hash_ProductQuantity hash_str hash_tuple x
          = hash_ProductQuantity hash_str hash_tuple y → x = y) →
  (∀ x y, x ∈ ins → y ∈ ins →
          hash_ProductQuantity hash_str hash_tuple x
          = hash_ProductQuantity hash_str hash_tuple y → x = y) →
  outs ≡ₚ outs' → ins ≡ₚ ins' → name ≠ None →
  Recipe_init hash_str hash_tuple name outs ins period made_in
  = Recipe_init hash_str hash_tuple name outs' ins' period made_in.
Proof.
  intros Hout Hin Pout Pin Hname. unfold Recipe_init.
  destruct name as [name|]; [|done]. simpl.
  rewrite (sorted_order_independent _ outs outs' Hout Pout).
  rewrite (sorted_order_independent _ ins ins' Hin Pin).
  by rewrite (Permutation_length Pout), (Permutation_length Pin).
Qed.

Lemma Recipe_init_sole_output (output : ProductQuantity Z) ins period made_in r :
  Recipe_init hash_str hash_tuple None [output] ins period made_in = Ok r →
  recipe_name r = strip (ProductQuantity_name output).
Proof.
  unfold Recipe_init. simpl.
  destruct (String.eqb _ ""); [done|].
  destruct (length ins <? 1)%nat; [done|]. by intros [= <-].
Qed.
End recipes.

(** C7. Two ingredients whose hashes collide keep the order they were
    given in: the quantities 1 and 2^61 have the same hash, so do the two
    ingredients of product A that carry them, and the recipes built from
    the two orders of that pair differ. *)
Theorem Recipe_init_order_dependent (hash_str : string → Z) (hash_tuple : list Z → Z) :
  let a := mkProductQuantity 1%Z (mkProduct "A") in
  let b := mkProductQuantity (2 ^ 61)%Z (mkProduct "A") in
  let ins := [mkProductQuantity 1%Z (mkProduct "B")] in
  let init outs :=
    Recipe_init hash_str hash_tuple (Some "R") outs ins (mkTime 1%Qc)
                (mkFacilityCategory "Smelter") in
  [a; b] ≡ₚ [b; a]
  ∧ hash_ProductQuantity hash_str hash_tuple a
    = hash_ProductQuantity hash_str hash_tuple b
  ∧ ∃ r1 r2, init [a; b] = Ok r1 ∧ init [b; a] = Ok r2
             ∧ outputs r1 = [a; b] ∧ outputs r2 = [b; a] ∧ r1 ≠ r2.
Proof.
  intros a b ins init.
  assert (Hkey : hash_ProductQuantity hash_str hash_tuple a
                 = hash_ProductQuantity hash_str hash_tuple b).
  { unfold hash_ProductQuantity. simpl quantity. by rewrite hash_int_collision. }
  split_and!; [apply Permutation_swap|done|].
  exists (mkRecipe "R" [a; b] ins (mkTime 1%Qc) (mkFacilityCategory "Smelter")),
         (mkRecipe "R" [b; a] ins (mkTime 1%Qc) (mkFacilityCategory "Smelter")).
  split_and!; [| |done..].
  - unfold init, Recipe_init. cbn -[sorted].
    by rewrite (sorted_equal_keys _ a b Hkey).
  - unfold init, Recipe_init. cbn -[sorted].
    by rewrite (sorted_equal_keys _ b a (eq_sym Hkey)).
Qed.

(** C8. A recipe built without a name from two or more outputs, or from
    none, reads the local [autoname] that was never bound: the
    constructor ends in UnboundLocalError, not in a validation error of
    its own. With a single output the recipe takes that output's name. *)
Theorem Recipe_init_unnamed_multi_output
    (hash_str : string → Z) (hash_tuple : list Z → Z)
    (o1 o2 : ProductQuantity Z) (outs ins : list (ProductQuantity Z))
    (period : Time) (made_in : FacilityCategory) :
  Recipe_init hash_str hash_tuple None (o1 :: o2 :: outs) ins period made_in
  = Raise (UnboundLocalError "autoname")
  ∧ Recipe_init hash_str hash_tuple None [] ins period made_in
    = Raise (UnboundLocalError "autoname")
  ∧ (∃ r, Recipe_init hash_str hash_tuple None
            [mkProductQuantity 1%Z (mkProduct "Iron Ingot")]
            [mkProductQuantity 1%Z (mkProduct "Iron Ore")] period made_in = Ok r
          ∧ recipe_name r = "Iron Ingot").
Proof.
  split_and!; [done..|]. eexists. split; [reflexivity|]. by vm_compute.
Qed.

(** * The recipe reader *)

Lemma for_each_raises {S A} (x : A) (l : list A) (body : A → M S unit) (s s' : S) e :
  body x s = (Raise e, s') → for_each (x :: l) body s = (Raise e, s').
Proof. intros H. simpl. unfold mbind, M_bind. by rewrite H. Qed.

(** A file whose first line names a product the database does not know
    stops the substitution pass. *)
Lemma read_recipe_file_first_line (db : DataBase) (line number name : string)
    (rest : list string) :
  re_match COMMENT_LINE_REGEX (strip line) = None →
  re_match INGREDIENT_LINE_REGEX (strip line) = Some [number; name] →
  name ∉ (set_map product_name (products db) : gset string) →
  read_recipe_file (line :: rest) db = Raise (NameError "productname").
Proof.
  intros Hcomment Hingredient Hunknown. unfold read_recipe_file.
  rewrite fmap_cons, filter_cons_True by done.
  unfold enumerate. rewrite imap_cons.
  erewrite for_each_raises; [done|].
  rewrite Hingredient. by rewrite decide_True.
Qed.

(** C9. The product branch of the substitution pass passes the unbound
    name [productname] to the resolver: a file with the abbreviated
    ingredient 1 IO is not read, the pass ends in NameError, although IO
    resolves to Iron Ore. The category branch does substitute. *)
Theorem read_recipe_file_product_abbreviation :
  read_recipe_file ["1 Iron Ingot"; "^ 1 s (Smelter)"; "1 IO"] iron_db
  = Raise (NameError "productname")
  ∧ (resolve "IO" (AbbreviationResolver_init ["Iron Ore"; "Iron Ingot"])).1
    = Ok "Iron Ore"
  ∧ read_recipe_file ["1 Iron Ingot"; "^ 1 s (S)"; "1 Iron Ore"] iron_db
    = Ok [["1 Iron Ingot"; "^ 1 s (Smelter)"; "1 Iron Ore"]]
  ∧ ∀ rest, read_recipe_file ("1 IO" :: rest) iron_db = Raise (NameError "productname").
Proof.
  split_and!; [by vm_compute..|].
  intros rest. by apply (read_recipe_file_first_line _ _ "1" "IO"); vm_compute.
Qed.

Lemma _parse_nametag_line_last (block : list string) (line : string) :
  _parse_nametag_line (block ++ [line]) (Z.of_nat (length block))
  = Raise (ValueError "started to parse nametag line before end of recipe" []).
Proof.
  unfold _parse_nametag_line. rewrite length_app. simpl.
  destruct (Z.ltb_spec (Z.of_nat (length block)) 0); [lia|].
  destruct (Z.geb_spec (Z.of_nat (length block)) (Z.of_nat (length block + 1))); [lia|].
  simpl. destruct (Z.eqb_spec (Z.of_nat (length block))
                              (Z.of_nat (length block + 1) - 1)); [done|lia].
Qed.

Section reading_blocks.
Variable hash_str : string → Z.
Variable hash_tuple : list Z → Z.

(** A block whose inputs end on its last line but one is refused,
    whatever the last line says. *)
Lemma read_recipe_last_line (block : list string) (line : string)
    r_outputs r_inputs r_period r_madein (i : Z) :
  let recipe_block := block ++ [line] in
  ingredient_lines (length recipe_block) recipe_block 0 [] = Ok (r_outputs, i) →
  _parse_arrow_line recipe_block i = Ok (r_period, r_madein) →
  ingredient_lines (length recipe_block) recipe_block (i + 1) []
  = Ok (r_inputs, Z.of_nat (length block)) →
  read_recipe hash_str hash_tuple recipe_block
  = Raise (ValueError "started to parse nametag line before end of recipe" []).
Proof.
  intros recipe_block Houts Harrow Hins. unfold read_recipe.
  rewrite Houts. simpl. rewrite Harrow. simpl. rewrite Hins. simpl.
  unfold recipe_block. by rewrite _parse_nametag_line_last.
Qed.
End reading_blocks.

(** C10. The nametag parser refuses the very position a trailing nametag
    has, the last line of the block: the block of the iron recipe with
    the nametag Smelt Iron is not read. A nametag is accepted only when
    more lines follow it; a block without one is named by default. *)
Theorem read_recipe_trailing_nametag (hash_str : string → Z) (hash_tuple : list Z → Z) :
  read_recipe hash_str hash_tuple
    ["1 Iron Ingot"; "^ 1 s (Smelter)"; "1 Iron Ore"; "<> Smelt Iron"]
  = Raise (ValueError "started to parse nametag line before end of recipe" [])
  ∧ (∀ block line,
       _parse_nametag_line (block ++ [line]) (Z.of_nat (length block))
       = Raise (ValueError "started to parse nametag line before end of recipe" []))
  ∧ recipe_name <$> read_recipe hash_str hash_tuple
      ["1 Iron Ingot"; "^ 1 s (Smelter)"; "1 Iron Ore"; "<> Smelt Iron"; "1 Iron Ore"]
    = Ok "Smelt Iron"
  ∧ recipe_name <$> read_recipe hash_str hash_tuple
      ["1 Iron Ingot"; "^ 1 s (Smelter)"; "1 Iron Ore"]
    = Ok "Iron Ingot".
Proof.
  split_and!; [by vm_compute|apply _parse_nametag_line_last|by vm_compute..].
Qed.

(** * Rules for stateful methods *)

Lemma triple_conseq {S A} (P P' : S → Prop) (Q Q' : outcome A → S → Prop) (m : M S A) :
  triple P' m Q' → (∀ s, P s → P' s) → (∀ o s, Q' o s → Q o s) → triple P m Q.
Proof. intros Hm HP HQ s Hs. apply HQ, Hm, HP, Hs. Qed.

Lemma triple_pre {S A} (P P' : S → Prop) (Q : outcome A → S → Prop) (m : M S A) :
  triple P' m Q → (∀ s, P s → P' s) → triple P m Q.
Proof. intros Hm HP s Hs. apply Hm, HP, Hs. Qed.

Lemma triple_post {S A} (P : S → Prop) (Q Q' : outcome A → S → Prop) (m : M S A) :
  triple P m Q' → (∀ o s, Q' o s → Q o s) → triple P m Q.
Proof. intros Hm HQ s Hs. apply HQ, Hm, Hs. Qed.

Lemma triple_ret {S A} (P : S → Prop) (Q : outcome A → S → Prop) (a : A) :
  (∀ s, P s → Q (Ok a) s) → triple P (mret a) Q.
Proof. intros H s Hs. by apply H. Qed.

Lemma triple_raise {S A} (P : S → Prop) (Q : outcome A → S → Prop) (e : exn) :
  (∀ s, P s → Q (Raise e) s) → triple P (raise e) Q.
Proof. intros H s Hs. by apply H. Qed.

Lemma triple_lift {S A} (P : S → Prop) (Q : outcome A → S → Prop) (o : outcome A) :
  (∀ s, P s → Q o s) → triple P (lift o) Q.
Proof. intros H s Hs. by apply H. Qed.

Lemma triple_gets {S A} (P : S → Prop) (Q : outcome A → S → Prop) (f : S → A) :
  (∀ s, P s → Q (Ok (f s)) s) → triple P (gets f) Q.
Proof. intros H s Hs. by apply H. Qed.

Lemma triple_get {S} (P : S → Prop) (Q : outcome S → S → Prop) :
  (∀ s, P s → Q (Ok s) s) → triple P get Q.
Proof. intros H s Hs. by apply H. Qed.

Lemma triple_modify {S} (P : S → Prop) (Q : outcome unit → S → Prop) (f : S → S) :
  (∀ s, P s → Q (Ok tt) (f s)) → triple P (modify f) Q.
Proof. intros H s Hs. by apply H. Qed.

Lemma triple_bind {S A B} (P : S → Prop) (R : A → S → Prop)
    (Q : outcome B → S → Prop) (m : M S A) (f : A → M S B) :
  triple P m (λ o s, match o with
                     | Ok a => R a s
                     | Raise e => Q (Raise e) s
                     | Diverge => Q Diverge s
                     end) →
  (∀ a, triple (R a) (f a) Q) →
  triple P (m ≫= f) Q.
Proof.
  intros Hm Hf s Hs. specialize (Hm s Hs).
  unfold mbind, M_bind. destruct (m s) as [[a| |] s']; simpl in *; [|done..].
  by apply Hf.
Qed.

Lemma triple_fmap {S A B} (P : S → Prop) (Q : outcome B → S → Prop)
    (m : M S A) (f : A → B) :
  triple P m (λ o s, Q (f <$> o) s) → triple P (f <$> m) Q.
Proof.
  intros Hm s Hs. specialize (Hm s Hs).
  unfold fmap, M_fmap. by destruct (m s) as [[a| |] s'].
Qed.

(** A loop keeps what each of its rounds keeps. *)
Lemma triple_for_each {S A} (I F : S → Prop) (l : list A) (body : A → M S unit) :
  (∀ x, x ∈ l → triple I (body x) (keeps I F)) →
  triple I (for_each l body) (keeps I F).
Proof.
  induction l as [|x l IH]; intros Hbody.
  - by apply triple_ret.
  - simpl. eapply triple_bind with (R := λ _, I).
    + eapply triple_conseq; [apply (Hbody x); apply list_elem_of_here|done|].
      intros [] s; simpl; by intros.
    + intros _. apply IH. intros y Hy. apply Hbody. by apply list_elem_of_further.
Qed.

Lemma triple_fold_each {S A B} (I F : S → Prop) (l : list A) (acc : B)
    (body : B → A → M S B) :
  (∀ acc x, x ∈ l → triple I (body acc x) (keeps I F)) →
  triple I (fold_each l acc body) (keeps I F).
Proof.
  revert acc. induction l as [|x l IH]; intros acc Hbody.
  - by apply triple_ret.
  - simpl. eapply triple_bind with (R := λ _, I).
    + eapply triple_conseq; [apply (Hbody acc x); apply list_elem_of_here|done|].
      intros [] s; simpl; by intros.
    + intros acc'. apply IH. intros acc'' y Hy. apply Hbody. by apply list_elem_of_further.
Qed.

(** A loop whose rounds return and leave the state alone is a fold. *)
Lemma fold_each_pure {S A B} (l : list A) (acc : B) (body : B → A → M S B)
    (step : B → A → B) (s : S) :
  (∀ acc x, x ∈ l → body acc x s = (Ok (step acc x), s)) →
  fold_each l acc body s = (Ok (foldl step acc l), s).
Proof.
  revert acc. induction l as [|x l IH]; intros acc Hbody; [done|].
  simpl. unfold mbind, M_bind. rewrite Hbody by apply list_elem_of_here.
  apply IH. intros acc' y Hy. apply Hbody. by apply list_elem_of_further.
Qed.

(** * Crafters *)

Lemma Time_rtruediv_raises (t : Time) (q : Qc) (e : exn) :
  Time_rtruediv t q = Raise e → e = ZeroDivisionError.
Proof.
  unfold Time_rtruediv, Time_div, Rate_of_Time, Fraction_div.
  repeat case_decide; simpl; repeat case_decide; simpl; congruence.
Qed.

(** Computing the rates touches the rate map only, and raises nothing
    but a division by zero. *)
Lemma _compute_rates_crafter (rc : RecipeCrafter.t) :
  triple (same_crafter rc) RecipeCrafter._compute_rates
    (λ o rc', same_crafter rc rc'
              ∧ match o with
                | Ok _ => True
                | Raise e => e = ZeroDivisionError
                | Diverge => False
                end).
Proof.
  set (F := λ rc', same_crafter rc rc' ∧ False).
  assert (Hloop : ∀ (sub : Rate → Rate → Rate) (l : list (ProductQuantity Z)),
    triple (same_crafter rc)
      (for_each l (λ item,
         self ← get;
         recipe_rate ← lift (Time_rtruediv (period (RecipeCrafter.recipe self))
                                           (Qc_of_Z (quantity item)));
         RecipeCrafter.set_rates (λ rates,
           <[product item :=
               sub (default Rate_zero (rates !! product item))
                   (Rate_mul (Rate_mul recipe_rate
                                (speed (RecipeCrafter.facility self)))
                             (RecipeCrafter.how_many self))]> rates)))
      (λ o rc', same_crafter rc rc'
                ∧ match o with
                  | Ok _ => True
                  | Raise e => e = ZeroDivisionError
                  | Diverge => False
                  end)).
  { intros sub l. induction l as [|x l IH]; [by apply triple_ret|].
    simpl. intros s Hs. unfold mbind, M_bind, get, lift, RecipeCrafter.set_rates, modify.
    destruct (Time_rtruediv _ _) as [r| |] eqn:Hr; simpl.
    - apply IH. by destruct s.
    - split; [done|]. by eapply Time_rtruediv_raises.
    - exfalso. revert Hr. unfold Time_rtruediv, Time_div, Rate_of_Time, Fraction_div.
      repeat case_decide; simpl; repeat case_decide; simpl; congruence. }
  unfold RecipeCrafter._compute_rates.
  eapply triple_bind with (R := λ _, same_crafter rc).
  { apply triple_modify. intros []; done. }
  intros _. eapply triple_bind with (R := λ self rc', same_crafter rc rc' ∧ same_crafter rc self).
  { apply triple_get. done. }
  intros self. apply triple_pre with (P' := same_crafter rc); [|by intros ? []].
  eapply triple_bind with (R := λ _, same_crafter rc).
  { eapply triple_conseq; [apply (Hloop Rate_add)|done|]. intros [] ?; tauto. }
  intros _. eapply triple_bind with (R := λ _, same_crafter rc).
  { eapply triple_conseq; [apply (Hloop Rate_sub)|done|]. intros [] ?; tauto. }
  intros _. by apply triple_gets.
Qed.

Lemma same_crafter_refl (rc : RecipeCrafter.t) : same_crafter rc rc.
Proof. done. Qed.

(** The computation starts from an empty map: it depends on the rest of
    the crafter only. *)
Lemma _compute_rates_same (rc rc' : RecipeCrafter.t) :
  same_crafter rc rc' →
  RecipeCrafter._compute_rates rc' = RecipeCrafter._compute_rates rc.
Proof.
  destruct rc, rc'. intros (? & ? & ?); simpl in *; subst. reflexivity.
Qed.

Lemma _compute_rates_again (rc : RecipeCrafter.t) :
  RecipeCrafter._compute_rates (RecipeCrafter._compute_rates rc).2
  = RecipeCrafter._compute_rates rc.
Proof.
  apply _compute_rates_same.
  apply (_compute_rates_crafter rc rc (same_crafter_refl rc)).
Qed.

Lemma _compute_rates_outcome (rc : RecipeCrafter.t) :
  returns (RecipeCrafter._compute_rates rc).1 = true
  ∨ (RecipeCrafter._compute_rates rc).1 = Raise ZeroDivisionError.
Proof.
  destruct (_compute_rates_crafter rc rc (same_crafter_refl rc)) as [_ H].
  destruct (RecipeCrafter._compute_rates rc).1; [by left|right; by subst|done].
Qed.

(** One level of the accessor. *)
Lemma rates_unfold (depth : nat) (rc : RecipeCrafter.t) :
  RecipeCrafter.rates (S depth) rc =
  if bool_decide (size (RecipeCrafter._rates rc) = 0) then
    match RecipeCrafter._compute_rates rc with
    | (Ok _, rc') => RecipeCrafter.rates depth rc'
    | (Raise e, rc') => (Raise e, rc')
    | (Diverge, rc') => (Diverge, rc')
    end
  else RecipeCrafter.rates depth rc.
Proof.
  simpl. unfold mbind, M_bind, get. case_bool_decide; [|done].
  by destruct (RecipeCrafter._compute_rates rc) as [[| |] ?].
Qed.

(** The accessor returns at no depth. *)
Lemma rates_never_returns (depth : nat) (rc : RecipeCrafter.t) :
  returns (RecipeCrafter.rates depth rc).1 = false.
Proof.
  revert rc. induction depth as [|depth IH]; intros rc; [done|].
  rewrite rates_unfold. case_bool_decide; [|apply IH].
  destruct (RecipeCrafter._compute_rates rc) as [[| |] rc']; [apply IH|done..].
Qed.

Lemma fills_step (rc : RecipeCrafter.t) m rc' :
  RecipeCrafter._compute_rates rc = (Ok m, rc') → fills rc'.
Proof.
  intros H. right. replace rc' with (RecipeCrafter._compute_rates rc).2 by by rewrite H.
  rewrite _compute_rates_again. by rewrite H.
Qed.

(** Once the map is filled, nothing stops the accessor reading itself. *)
Lemma rates_diverges (depth : nat) (rc : RecipeCrafter.t) :
  fills rc → (RecipeCrafter.rates depth rc).1 = Diverge.
Proof.
  revert rc. induction depth as [|depth IH]; intros rc Hrc; [done|].
  rewrite rates_unfold. case_bool_decide as Hsize; [|by apply IH].
  destruct Hrc as [|Hrc]; [done|].
  destruct (RecipeCrafter._compute_rates rc) as [[m| |] rc'] eqn:Hc; [|done..].
  eapply IH, fills_step, Hc.
Qed.

Lemma rates_outcome (depth : nat) (rc : RecipeCrafter.t) :
  (RecipeCrafter.rates depth rc).1 = Diverge
  ∨ (RecipeCrafter.rates depth rc).1 = Raise ZeroDivisionError.
Proof.
  revert rc. induction depth as [|depth IH]; intros rc; [by left|].
  rewrite rates_unfold. case_bool_decide; [|apply IH].
  destruct (_compute_rates_outcome rc) as [Ho|Ho];
    destruct (RecipeCrafter._compute_rates rc) as [[| |] rc']; simpl in *;
    try done; try apply IH. injection Ho as ->. by right.
Qed.

Lemma not_returns_cases {A} (o : outcome A) :
  returns o = false → (∃ e, o = Raise e) ∨ o = Diverge.
Proof. destruct o; eauto; done. Qed.

Lemma __init___one (recipe : Recipe) (facility : Facility) :
  RecipeCrafter.__init__ recipe facility 1%Qc
  = Ok (RecipeCrafter.mk recipe facility 1%Qc ∅).
Proof.
  unfold RecipeCrafter.__init__. rewrite bool_decide_eq_false_2; [done|].
  intros H. by apply H.
Qed.

(** [with_goal] reads the accessor first: it ends as that first read
    does. *)
Lemma with_goal_first_read depth recipe facility (goal : ProductQuantity Rate) :
  RecipeCrafter.with_goal depth recipe facility goal
  = match (RecipeCrafter.rates depth (RecipeCrafter.mk recipe facility 1%Qc ∅)).1 with
    | Ok _ => Diverge
    | Raise e => Raise e
    | Diverge => Diverge
    end.
Proof.
  unfold RecipeCrafter.with_goal. rewrite __init___one. simpl.
  unfold mbind at 1, M_bind at 1, fmap, M_fmap.
  pose proof (rates_never_returns depth (RecipeCrafter.mk recipe facility 1%Qc ∅)) as H.
  by destruct (RecipeCrafter.rates depth _) as [[| |] ?].
Qed.

Lemma with_goal_outcome depth recipe facility (goal : ProductQuantity Rate) :
  RecipeCrafter.with_goal depth recipe facility goal = Diverge
  ∨ RecipeCrafter.with_goal depth recipe facility goal = Raise ZeroDivisionError.
Proof.
  rewrite with_goal_first_read.
  destruct (rates_outcome depth (RecipeCrafter.mk recipe facility 1%Qc ∅)) as [-> | ->];
    auto.
Qed.

Lemma with_goal_diverges depth recipe facility (goal : ProductQuantity Rate) :
  fills (RecipeCrafter.mk recipe facility 1%Qc ∅) →
  RecipeCrafter.with_goal depth recipe facility goal = Diverge.
Proof.
  intros Hfills. rewrite with_goal_first_read. by rewrite rates_diverges.
Qed.

(** * Factories *)

(** Reading the rates of a connected crafter: the read does not return,
    and the factory itself is left alone. *)
Lemma on_crafter_rates (depth : nat) (rc : nat) (w : Factory.world) :
  ∃ o w', Factory.on_crafter rc (RecipeCrafter.rates depth) w = (o, w')
          ∧ returns o = false
          ∧ (o = Diverge ∨ o = Raise ZeroDivisionError)
          ∧ (fills (Factory.store w rc) → o = Diverge)
          ∧ Factory.factory w' = Factory.factory w.
Proof.
  unfold Factory.on_crafter.
  pose proof (rates_never_returns depth (Factory.store w rc)) as Hnever.
  pose proof (rates_outcome depth (Factory.store w rc)) as Hout.
  pose proof (rates_diverges depth (Factory.store w rc)) as Hdiv.
  destruct (RecipeCrafter.rates depth (Factory.store w rc)) as [o c].
  by do 2 eexists.
Qed.

Lemma stops_at_read_intro {A B} (o : outcome A) (o' : outcome B)
    (reader : RecipeCrafter.t) :
  returns o = false →
  o = Diverge ∨ o = Raise ZeroDivisionError →
  (fills reader → o = Diverge) →
  o' = match o with Ok _ | Diverge => Diverge | Raise e => Raise e end →
  stops_at_read o' reader.
Proof.
  intros Hret Hout Hdiv ->. unfold stops_at_read.
  destruct o; [done|..].
  - destruct Hout as [|[= ->]]; [done|]. split_and!; [done|by right|].
    intros H. by specialize (Hdiv H).
  - split_and!; [done|by left|done].
Qed.

Lemma _compute_rates_reads (depth : nat) (w : Factory.world) (rc : nat) (rest : list nat) :
  Factory.crafters (Factory.factory w) = rc :: rest →
  stops_at_read (Factory._compute_rates depth w).1 (Factory.store w rc).
Proof.
  destruct w as [[g cs rs ig] st]. simpl. intros ->.
  unfold Factory._compute_rates, Factory.set_rates, mbind, M_bind, modify, gets. simpl.
  unfold mbind, M_bind.
  destruct (on_crafter_rates depth rc
              (Factory.mkWorld
                 (Factory.mk g (rc :: rest) (<[product g := Rate_neg (quantity g)]> ∅) ig) st))
    as (o & w' & -> & Hret & Hout & Hdiv & _).
  eapply stops_at_read_intro; [exact Hret|exact Hout|exact Hdiv|].
  by destruct o.
Qed.

Lemma find_crafters_reads (depth : nat) (p : Product) (w : Factory.world)
    (rc : nat) (rest : list nat) :
  Factory.crafters (Factory.factory w) = rc :: rest →
  stops_at_read (Factory.find_crafters depth p w).1 (Factory.store w rc).
Proof.
  intros Hcs.
  unfold Factory.find_crafters, mbind at 1, M_bind at 1, gets. rewrite Hcs. simpl.
  unfold mbind at 1, M_bind at 1, mbind at 1, M_bind at 1, fmap, M_fmap.
  destruct (on_crafter_rates depth rc w) as (o & w' & -> & Hret & Hout & Hdiv & _).
  eapply stops_at_read_intro; [exact Hret|exact Hout|exact Hdiv|].
  by destruct o.
Qed.

Lemma upgrade_crafter_reads (depth : nat) (rc : nat)
    (production_increase : ProductQuantity Rate) (w : Factory.world) :
  rc ∈ Factory.crafters (Factory.factory w) →
  stops_at_read (Factory.upgrade_crafter depth rc production_increase w).1
                (Factory.store w rc).
Proof.
  intros Hrc.
  unfold Factory.upgrade_crafter, mbind at 1, M_bind at 1, gets.
  rewrite bool_decide_eq_true_2 by done. simpl.
  unfold mbind at 1, M_bind at 1, fmap, M_fmap.
  destruct (on_crafter_rates depth rc w) as (o & w' & -> & Hret & Hout & Hdiv & _).
  eapply stops_at_read_intro; [exact Hret|exact Hout|exact Hdiv|].
  by destruct o.
Qed.

(** An unconnected crafter is refused before anything is read. *)
Lemma upgrade_crafter_unconnected (depth : nat) (rc : nat)
    (production_increase : ProductQuantity Rate) (w : Factory.world) :
  rc ∉ Factory.crafters (Factory.factory w) →
  Factory.upgrade_crafter depth rc production_increase w
  = (Raise (ValueError "crafter must be factory-connected to upgrade" []), w).
Proof.
  intros Hrc. unfold Factory.upgrade_crafter, mbind, M_bind, gets.
  by rewrite bool_decide_eq_false_2.
Qed.

(** ** The rate map of a settled factory *)

Lemma size_zero_empty (m : gmap Product Rate) : size m = 0 → m = ∅.
Proof. apply map_size_empty_inv. Qed.

(** The factory of [w] with the rate map [rs]. *)
Lemma rates_settled (depth : nat) (w : Factory.world) :
  settled (Factory.factory w) →
  ∃ current w',
    Factory.rates depth w = (Ok current, w')
    ∧ Factory._rates (Factory.factory w') = current
    ∧ size current ≠ 0
    ∧ Factory.ignored_rates (Factory.factory w') = Factory.ignored_rates (Factory.factory w)
    ∧ Factory.crafters (Factory.factory w') = Factory.crafters (Factory.factory w)
    ∧ Factory.goal (Factory.factory w') = Factory.goal (Factory.factory w)
    ∧ Factory.store w' = Factory.store w.
Proof.
  destruct w as [[g cs rs ig] st]. unfold settled. simpl. intros Hsettled.
  unfold Factory.rates, mbind, M_bind, gets. simpl.
  case_bool_decide as Hsize.
  - rewrite (Hsettled Hsize).
    do 2 eexists. split; [reflexivity|]. simpl. split_and!; try done.
    by rewrite map_size_insert_None.
  - do 2 eexists. split; [reflexivity|]. done.
Qed.

Lemma rates_cached (depth : nat) (w : Factory.world) :
  size (Factory._rates (Factory.factory w)) ≠ 0 →
  Factory.rates depth w = (Ok (Factory._rates (Factory.factory w)), w).
Proof.
  intros Hsize. unfold Factory.rates, mbind, M_bind, gets.
  by rewrite bool_decide_eq_false_2.
Qed.

Lemma is_ignored_cached (depth : nat) (p : Product) (w : Factory.world) :
  size (Factory._rates (Factory.factory w)) ≠ 0 →
  is_Some (Factory._rates (Factory.factory w) !! p) →
  Factory.is_ignored depth p w = (Ok (marked_ignored (Factory.factory w) p), w).
Proof.
  intros Hsize Hp. unfold Factory.is_ignored, mbind, M_bind.
  rewrite rates_cached by done. unfold contains.
  by rewrite bool_decide_eq_true_2.
Qed.

Lemma foldl_keep_negative (f : Factory.t) (l : list (Product * Rate)) :
  NoDup l.*1 →
  ∀ p r, foldl (keep_negative f) ∅ l !! p = Some r ↔
         (p, r) ∈ l ∧ negb (marked_ignored f p) && Rate_lt r Rate_zero = true.
Proof.
  induction l as [|[q s] l IH] using rev_ind; intros Hnodup p r.
  - simpl. rewrite lookup_empty. split; [done|]. intros [H _]. by apply elem_of_nil in H.
  - rewrite fmap_app in Hnodup. apply NoDup_app in Hnodup as (Hl & Hfresh & _).
    rewrite foldl_app. simpl. unfold keep_negative at 1. simpl.
    rewrite elem_of_app, list_elem_of_singleton.
    destruct (negb (marked_ignored f q) && Rate_lt s Rate_zero) eqn:Hkeep.
    + destruct (decide (q = p)) as [->|Hne].
      * rewrite lookup_insert_eq. split.
        -- intros [= ->]. split; [by right|done].
        -- intros [[Hin|[= ->]] _]; [|done].
           exfalso. apply (Hfresh p); [|simpl; by left].
           apply list_elem_of_fmap. by exists (p, r).
      * rewrite lookup_insert_ne by done. rewrite (IH Hl). split.
        -- intros [? ?]. split; [by left|done].
        -- intros [[?|[= -> ->]] ?]; done.
    + rewrite (IH Hl). split.
      * intros [? ?]. split; [by left|done].
      * intros [[?|[= -> ->]] Hk]; [done|]. by rewrite Hkeep in Hk.
Qed.

Lemma negative_rates_loop (depth : nat) (w : Factory.world) :
  size (Factory._rates (Factory.factory w)) ≠ 0 →
  fold_each (map_to_list (Factory._rates (Factory.factory w))) ∅
    (λ negatives item,
       let '(product, product_rate) := item in
       ignored ← Factory.is_ignored depth product;
       if negb ignored && Rate_lt product_rate Rate_zero
       then mret (<[product := product_rate]> negatives)
       else mret negatives) w
  = (Ok (foldl (keep_negative (Factory.factory w)) ∅
           (map_to_list (Factory._rates (Factory.factory w)))), w).
Proof.
  intros Hsize. apply fold_each_pure. intros acc [p r] Hin.
  apply elem_of_map_to_list in Hin.
  unfold mbind, M_bind. rewrite is_ignored_cached by (done || eauto).
  unfold keep_negative. simpl.
  by destruct (negb _ && _).
Qed.

Lemma Rate_lt_zero (r : Rate) : Rate_lt r Rate_zero = true ↔ (per_second r < 0)%Qc.
Proof. unfold Rate_lt. by rewrite bool_decide_eq_true. Qed.


(** ** The states of a factory *)

Lemma triple_bind_inv {S A B} (I J : S → Prop) (m : M S A) (f : A → M S B) :
  triple I m (λ o s, match o with Ok _ => I s | _ => J s end) →
  (∀ a, triple I (f a) (λ _, J)) →
  triple I (m ≫= f) (λ _, J).
Proof.
  intros Hm Hf. eapply triple_bind with (R := λ _, I); [|done].
  eapply triple_conseq; [apply Hm|done|]. by intros [].
Qed.

Lemma triple_for_each_inv {S A} (I : S → Prop) (l : list A) (body : A → M S unit) :
  (∀ x, triple I (body x) (λ _, I)) → triple I (for_each l body) (λ _, I).
Proof.
  intros Hbody. eapply triple_conseq; [apply (triple_for_each I I)|done|].
  - intros x _. eapply triple_conseq; [apply Hbody|done|]. by intros [].
  - by intros [].
Qed.

Lemma triple_fold_each_inv {S A B} (I : S → Prop) (l : list A) (acc : B)
    (body : B → A → M S B) :
  (∀ acc x, triple I (body acc x) (λ _, I)) → triple I (fold_each l acc body) (λ _, I).
Proof.
  intros Hbody. eapply triple_conseq; [apply (triple_fold_each I I)|done|].
  - intros acc' x _. eapply triple_conseq; [apply Hbody|done|]. by intros [].
  - by intros [].
Qed.

(** A method of a crafter leaves the factory as it is. *)
Lemma on_crafter_factory {A} (Φ : Factory.t → Prop) (rc : nat) (m : M RecipeCrafter.t A) :
  triple (λ w, Φ (Factory.factory w)) (Factory.on_crafter rc m)
         (λ _ w, Φ (Factory.factory w)).
Proof.
  intros w Hw. unfold Factory.on_crafter. by destruct (m (Factory.store w rc)).
Qed.

Lemma set_rates_insert_filled (p : Product) (f : gmap Product Rate → Rate) :
  triple (λ _, True) (Factory.set_rates (λ rates, <[p := f rates]> rates)) (λ _, filled).
Proof.
  intros [[g cs rs ig] st] _. unfold filled. simpl.
  intros Hsize. apply map_size_empty_inv in Hsize.
  by apply insert_non_empty in Hsize.
Qed.

(** Whatever its outcome, the rate computation of a factory leaves a
    rate map with the goal in it. *)
Lemma _compute_rates_filled (depth : nat) :
  triple (λ _, True) (Factory._compute_rates depth) (λ _, filled).
Proof.
  unfold Factory._compute_rates.
  eapply triple_bind with (R := λ _ _, True); [by apply triple_modify|]. intros _.
  eapply triple_bind with (R := λ _ _, True); [by apply triple_gets|]. intros self.
  eapply triple_bind with (R := λ _, filled).
  { eapply triple_conseq;
      [apply (set_rates_insert_filled _ (λ _, Rate_neg (quantity (Factory.goal self))))
      |done|by intros []]. }
  intros _. apply triple_bind_inv with (I := filled); [|intros; by apply triple_gets].
  eapply triple_conseq; [apply triple_for_each_inv|done|by intros []].
  intros rc. apply triple_bind_inv with (I := filled).
  { eapply triple_conseq; [apply (on_crafter_factory (λ f, size (Factory._rates f) ≠ 0))
                          |done|by intros []]. }
  intros crafter_rates. apply triple_for_each_inv. intros [p r].
  eapply triple_pre;
    [apply (set_rates_insert_filled p (λ rates, Rate_add (default Rate_zero (rates !! p)) r))
    |done].
Qed.

Lemma filled_settled (w : Factory.world) : filled w → settled (Factory.factory w).
Proof. by intros Hw Hsize. Qed.

Lemma rates_filled (depth : nat) :
  triple (λ _, True) (Factory.rates depth) (λ _, filled).
Proof.
  unfold Factory.rates.
  eapply triple_bind with (R := λ self w, self = Factory.factory w);
    [by apply triple_gets|].
  intros self. eapply triple_bind with (R := λ _, filled); [|intros; by apply triple_gets].
  case_bool_decide as Hsize.
  - eapply triple_bind with (R := λ _, filled); [|intros; by apply triple_ret].
    eapply triple_conseq; [apply _compute_rates_filled|done|by intros []].
  - apply triple_ret. by intros w ->.
Qed.

Lemma set_ignored_rates_filled f :
  triple filled (Factory.set_ignored_rates f) (λ _, filled).
Proof. by intros [[g cs rs ig] st] Hw. Qed.

Lemma after_rates {A} (depth : nat) (f : gmap Product Rate → M Factory.world A) :
  (∀ rs, triple filled (f rs) (λ _, filled)) →
  stays_settled (Factory.rates depth ≫= f).
Proof.
  intros Hf. unfold stays_settled.
  eapply triple_conseq with (P' := λ _, True) (Q' := λ _, filled);
    [|done|intros; by apply filled_settled].
  eapply triple_bind with (R := λ _, filled); [|done].
  eapply triple_conseq; [apply rates_filled|done|]. by intros [].
Qed.

(** Every method of a factory leaves it settled, however the call
    ends. *)
Lemma Factory_settled (depth : nat) (p : Product) (rc : nat)
    (production_increase : ProductQuantity Rate) (goal : ProductQuantity Rate) :
  settled (Factory.__init__ goal)
  ∧ stays_settled (Factory.rates depth)
  ∧ stays_settled (Factory.is_ignored depth p)
  ∧ stays_settled (Factory.negative_rates depth)
  ∧ stays_settled (Factory.find_crafters depth p)
  ∧ stays_settled (Factory.set_ignored depth p)
  ∧ stays_settled (Factory.set_all_ignored depth)
  ∧ stays_settled (Factory.connect_crafter depth rc)
  ∧ stays_settled (Factory.upgrade_crafter depth rc production_increase).
Proof.
  assert (Hcompute : ∀ P, triple P (Factory._compute_rates depth;; mret tt)
                            (λ _ w, settled (Factory.factory w))).
  { intros P. eapply triple_conseq with (P' := λ _, True) (Q' := λ _, filled);
      [|done|intros; by apply filled_settled].
    eapply triple_bind with (R := λ _, filled); [|intros; by apply triple_ret].
    eapply triple_conseq; [apply _compute_rates_filled|done|by intros []]. }
  assert (Hread : ∀ A (m : M RecipeCrafter.t A) c,
    triple (λ w, settled (Factory.factory w)) (Factory.on_crafter c m)
      (λ o w, match o with
              | Ok _ => settled (Factory.factory w)
              | _ => settled (Factory.factory w)
              end)).
  { intros A m c. eapply triple_conseq; [apply (on_crafter_factory settled)|done|].
    by intros []. }
  split_and!; unfold stays_settled.
  - done.
  - eapply triple_conseq with (P' := λ _, True) (Q' := λ _, filled);
      [|done|intros; by apply filled_settled].
    eapply triple_conseq; [apply rates_filled|done|by intros []].
  - apply after_rates. intros rs.
    destruct (negb _); [by apply triple_raise|by apply triple_gets].
  - apply after_rates. intros rs. apply triple_fold_each_inv. intros acc [q r].
    apply triple_bind_inv with (I := filled).
    + unfold Factory.is_ignored.
      eapply triple_bind with (R := λ _, filled).
      * eapply triple_conseq; [apply rates_filled|done|by intros []].
      * intros rs'. destruct (negb _); [by apply triple_raise|by apply triple_gets].
    + intros ig. destruct (negb ig && _); by apply triple_ret.
  - unfold Factory.find_crafters.
    apply triple_bind_inv with (I := λ w, settled (Factory.factory w));
      [by apply triple_gets|].
    intros self. apply triple_fold_each_inv. intros found c.
    apply triple_bind_inv with (I := λ w, settled (Factory.factory w)).
    { apply triple_fmap. eapply triple_conseq; [apply (Hread _ _ c)|done|by intros []]. }
    intros present. apply triple_bind_inv with (I := λ w, settled (Factory.factory w));
      [|intros; by apply triple_ret].
    destruct present; [|by apply triple_ret].
    eapply triple_post with (Q' := λ _ w, settled (Factory.factory w));
      [|by intros []].
    apply triple_bind_inv with (I := λ w, settled (Factory.factory w)); [apply Hread|].
    intros rs. apply triple_bind_inv with (I := λ w, settled (Factory.factory w));
      [apply triple_lift; intros ??; by case_match|].
    intros; by apply triple_ret.
  - apply after_rates. intros rs.
    destruct (negb _); [by apply triple_raise|apply set_ignored_rates_filled].
  - apply after_rates. intros rs. apply triple_for_each_inv. intros item.
    apply set_ignored_rates_filled.
  - unfold Factory.connect_crafter.
    apply triple_bind_inv with (I := λ w, settled (Factory.factory w));
      [by apply triple_gets|].
    intros self. case_bool_decide; [by apply triple_raise|].
    eapply triple_bind with (R := λ _ _, True); [by apply triple_modify|].
    intros _. apply Hcompute.
  - unfold Factory.upgrade_crafter.
    apply triple_bind_inv with (I := λ w, settled (Factory.factory w));
      [by apply triple_gets|].
    intros self. destruct (negb _); [by apply triple_raise|].
    apply triple_bind_inv with (I := λ w, settled (Factory.factory w)).
    { apply triple_fmap. eapply triple_conseq; [apply (Hread _ _ rc)|done|by intros []]. }
    intros present.
    apply triple_bind_inv with (I := λ w, settled (Factory.factory w)).
    { destruct present; [|by apply triple_ret].
      eapply triple_post with (Q' := λ _ w, settled (Factory.factory w));
        [|by intros []].
      apply triple_bind_inv with (I := λ w, settled (Factory.factory w)); [apply Hread|].
      intros rs. apply triple_bind_inv with (I := λ w, settled (Factory.factory w));
        [apply triple_lift; intros ??; by case_match|].
      intros r. destruct (Rate_le _ _); [by apply triple_raise|by apply triple_ret]. }
    intros _.
    apply triple_bind_inv with (I := λ w, settled (Factory.factory w)); [apply Hread|].
    intros rs. apply triple_bind_inv with (I := λ w, settled (Factory.factory w));
      [apply triple_lift; intros ??; by case_match|].
    intros r. destruct (Rate_le _ _); [by apply triple_raise|].
    apply triple_bind_inv with (I := λ w, settled (Factory.factory w)); [apply Hread|].
    intros rs1. apply triple_bind_inv with (I := λ w, settled (Factory.factory w));
      [apply triple_lift; intros ??; by case_match|].
    intros r1.
    apply triple_bind_inv with (I := λ w, settled (Factory.factory w)); [apply Hread|].
    intros rs2. apply triple_bind_inv with (I := λ w, settled (Factory.factory w));
      [apply triple_lift; intros ??; by case_match|].
    intros r2. apply triple_bind_inv with (I := λ w, settled (Factory.factory w));
      [apply triple_lift; intros ??; by case_match|].
    intros ratio.
    apply triple_bind_inv with (I := λ w, settled (Factory.factory w)); [apply Hread|].
    intros _.
    apply triple_bind_inv with (I := λ w, settled (Factory.factory w)); [apply Hread|].
    intros _. apply Hcompute.
Qed.

(** * The claims on crafters and their factories *)

(** With its map filled, the accessor changes nothing while it reads
    itself. *)
Lemma rates_filled_state (depth : nat) (rc : RecipeCrafter.t) :
  size (RecipeCrafter._rates rc) ≠ 0 →
  RecipeCrafter.rates depth rc = (Diverge, rc).
Proof.
  intros Hsize. induction depth as [|depth IH]; [done|].
  rewrite rates_unfold. by rewrite bool_decide_eq_false_2.
Qed.

Lemma fills_two_smelters : fills two_smelters.
Proof. left. by vm_compute. Qed.

Lemma fills_unit_smelter : fills (RecipeCrafter.mk Iron_Ingot Arc_Smelter 1%Qc ∅).
Proof. right. by vm_compute. Qed.

(** The rates of the two smelters, as [_compute_rates] left them: what
    the accessor was to return. *)
Lemma two_smelters_rates :
  (λ r, Qcanon.this (per_second r)) <$> RecipeCrafter._rates two_smelters
  = {[mkProduct "Iron Ingot" := Qmake 2 1; mkProduct "Iron Ore" := Qmake (-2) 1]}.
Proof. by vm_compute. Qed.

(** C1. [with_goal] reads the rates of the crafter it has just built
    through the accessor, and ends as that read does: at no depth does
    it return a crafter, and it never refuses a recipe that does not
    produce the goal. It diverges on the iron recipe, asked for 2/s of
    ingots (where a multiplicity of 2 was due) as well as for ore
    (where the recipe was to be refused). *)
Theorem with_goal_never_returns :
  (∀ depth recipe facility goal,
     returns (RecipeCrafter.with_goal depth recipe facility goal) = false
     ∧ RecipeCrafter.with_goal depth recipe facility goal
       ≠ Raise (ValueError "given recipe does not produce goal product" []))
  ∧ (∀ depth,
       RecipeCrafter.with_goal depth Iron_Ingot Arc_Smelter
         (ingredient (mkRate 2%Qc) "Iron Ingot") = Diverge)
  ∧ (∀ depth,
       RecipeCrafter.with_goal depth Iron_Ingot Arc_Smelter
         (ingredient (mkRate 2%Qc) "Iron Ore") = Diverge).
Proof.
  split_and!.
  - intros depth recipe facility goal.
    by destruct (with_goal_outcome depth recipe facility goal) as [-> | ->].
  - intros depth. apply with_goal_diverges, fills_unit_smelter.
  - intros depth. apply with_goal_diverges, fills_unit_smelter.
Qed.

(** C4. The two smelters make 2/s of ingots; lowering that by 3/s would
    leave less than nothing. [upgrade_crafter] does not refuse: it
    reads the crafter's rates through the accessor and diverges there,
    leaving crafter and factory as they were. No call of it ends in the
    error on the final rate. *)
Theorem upgrade_crafter_never_refuses :
  let delta := ingredient (mkRate (Qc_of_Z (-3))) "Iron Ingot" in
  (∃ r, RecipeCrafter._rates (Factory.store smelting 0) !! mkProduct "Iron Ingot" = Some r
        ∧ Rate_gt r Rate_zero = true
        ∧ Rate_le (Rate_add r (quantity delta)) Rate_zero = true)
  ∧ 0 ∈ Factory.crafters (Factory.factory smelting)
  ∧ (∀ depth, (Factory.upgrade_crafter depth 0 delta smelting).1 = Diverge
              ∧ Factory.factory (Factory.upgrade_crafter depth 0 delta smelting).2
                = Factory.factory smelting
              ∧ Factory.store (Factory.upgrade_crafter depth 0 delta smelting).2 0
                = Factory.store smelting 0)
  ∧ (∀ depth rc production_increase w,
       (Factory.upgrade_crafter depth rc production_increase w).1
       ≠ Raise (ValueError "final upgraded crafter rate must be positive" [])).
Proof.
  intros delta. split_and!.
  - eexists. split; [by vm_compute|]. split; by vm_compute.
  - by apply list_elem_of_here.
  - intros depth.
    assert (H : Factory.upgrade_crafter depth 0 delta smelting
                = (Diverge, Factory.mkWorld (Factory.factory smelting)
                              (<[0 := two_smelters]> (Factory.store smelting)))).
    { unfold Factory.upgrade_crafter, mbind at 1, M_bind at 1, gets. simpl.
      unfold mbind at 1, M_bind at 1, fmap, M_fmap, Factory.on_crafter. simpl.
      by rewrite rates_filled_state by by vm_compute. }
    rewrite H. simpl. split_and!; [done..|]. by rewrite fn_lookup_insert.
  - intros depth rc production_increase w.
    destruct (decide (rc ∈ Factory.crafters (Factory.factory w))) as [Hrc|Hrc].
    + destruct (upgrade_crafter_reads depth rc production_increase w Hrc)
        as (_ & [-> | ->] & _); done.
    + by rewrite upgrade_crafter_unconnected.
Qed.

(** * More on abbreviations *)

Lemma decomposes_skip (c : ascii) (S L : string) :
  is_capital c = false → decomposes S L → decomposes S (String c L).
Proof.
  intros Hc. inversion 1 as [run Hrun|run c' S' L' Hrun HS]; subst.
  - constructor. unfold non_capitals. simpl. by rewrite Hc.
  - rewrite <- append_cons. constructor; [|done].
    unfold non_capitals. simpl. by rewrite Hc.
Qed.

Lemma decomposes_skip_run (run S L : string) :
  non_capitals run → decomposes S L → decomposes S (run +:+ L).
Proof.
  induction run as [|c run IH]; intros Hrun HS; [done|].
  unfold non_capitals in Hrun. simpl in Hrun.
  apply andb_true_iff in Hrun as [Hc Hrun]. rewrite append_cons.
  apply decomposes_skip; [by apply negb_true_iff|by apply IH].
Qed.

Lemma decomposes_capitals_only (L : string) : decomposes (keep is_capital L) L.
Proof.
  induction L as [|c L IH]; [by constructor|]. simpl.
  destruct (is_capital c) eqn:Hc.
  - by apply (decomposes_next "" c).
  - by apply decomposes_skip.
Qed.

Lemma decomposes_refl (S : string) : decomposes S S.
Proof.
  induction S as [|c S IH]; [by constructor|]. by apply (decomposes_next "" c).
Qed.

Lemma keep_empty_non_capitals (L : string) :
  keep is_capital L = "" → non_capitals L.
Proof.
  unfold non_capitals. induction L as [|c L IH]; [done|]. simpl.
  destruct (is_capital c); [done|]. exact IH.
Qed.

Lemma decomposes_trans (S M L : string) :
  decomposes S M → decomposes M L → decomposes S L.
Proof.
  intros HSM HML. revert S HSM.
  induction HML as [run Hrun|run c M L Hrun HML IH]; intros S HSM.
  - inversion HSM as [run' Hrun'|run' c' S' L' Hrun' HS' Heq]; subst.
    + by constructor.
    + by destruct run'.
  - inversion HSM as [run' Hrun'|run' c' S' L' Hrun' HS' Heq Hcons]; subst.
    + constructor. apply keep_empty_non_capitals.
      rewrite (decomposes_capitals (String c M) (run +:+ String c L))
        by (by constructor).
      by apply keep_none.
    + destruct run' as [|x run'].
      * rewrite append_nil_l in Hcons. injection Hcons as <- <-.
        constructor; [done|]. by apply IH.
      * rewrite append_cons in Hcons. injection Hcons as <- <-.
        unfold non_capitals in Hrun'. simpl in Hrun'.
        apply andb_true_iff in Hrun' as [Hx Hrun'].
        apply decomposes_skip_run; [done|].
        apply decomposes_skip; [by apply negb_true_iff|].
        apply IH. by constructor.
Qed.

Lemma capitals_alpha (L : string) :
  all_chars isalpha_char (keep is_capital L) = true.
Proof.
  induction L as [|c L IH]; [done|]. simpl.
  destruct (is_capital c) eqn:Hc; [|done]. simpl.
  rewrite IH. unfold isalpha_char. by rewrite Hc.
Qed.

Lemma abbreviates_gaps (S L : string) :
  abbreviates {| abbrev_string := S; abbrev_regex := Bol :: gaps S |} L = true
  ↔ decomposes S L.
Proof.
  unfold abbreviates, re_match. simpl. rewrite bool_decide_eq_true. apply run_gaps.
Qed.

Lemma String_eqb_empty (s : string) : String.eqb s "" = false ↔ s ≠ "".
Proof. apply String.eqb_neq. Qed.

(** X1. The capitals of a name, where it has any, are a valid shorthand
    that abbreviates the name: the abbreviation standard the module
    describes. *)
Theorem capitals_abbreviate (L : string) :
  keep is_capital L ≠ "" →
  ∃ a, Abbreviation_init (keep is_capital L) = Ok a
       ∧ abbreviates a L = true.
Proof.
  intros Hne. eexists. split.
  - apply Abbreviation_init_alpha. unfold isalpha.
    by rewrite (proj2 (String_eqb_empty _) Hne), capitals_alpha.
  - apply abbreviates_gaps, decomposes_capitals_only.
Qed.

Lemma capitals_abbreviate_witness :
  keep is_capital "X-Ray Cracking" ≠ ""
  ∧ ∃ a, Abbreviation_init (keep is_capital "X-Ray Cracking") = Ok a
         ∧ abbreviates a "X-Ray Cracking" = true.
Proof.
  assert (H : keep is_capital "X-Ray Cracking" ≠ "") by (by vm_compute).
  split; [exact H|]. exact (capitals_abbreviate "X-Ray Cracking" H).
Defined.

(** X2. Abbreviating is reflexive and transitive on valid shorthands: a
    shorthand abbreviates itself, and a shorthand of a shorthand of a
    name is a shorthand of that name. *)
Theorem abbreviates_preorder (S M L : string) (a_S a_M : Abbreviation) :
  Abbreviation_init S = Ok a_S → Abbreviation_init M = Ok a_M →
  abbreviates a_S S = true
  ∧ (abbreviates a_S M = true → abbreviates a_M L = true → abbreviates a_S L = true).
Proof.
  intros HS HM.
  assert (Hvalid : ∀ X a, Abbreviation_init X = Ok a →
            a = {| abbrev_string := X; abbrev_regex := Bol :: gaps X |}).
  { intros X a Ha. destruct (isalpha X) eqn:HX.
    - rewrite Abbreviation_init_alpha in Ha by done. by injection Ha.
    - unfold Abbreviation_init in Ha. rewrite HX in Ha.
      by destruct (String.eqb X ""). }
  rewrite (Hvalid S a_S HS), (Hvalid M a_M HM), !abbreviates_gaps.
  split; [apply decomposes_refl|apply decomposes_trans].
Qed.

Lemma abbreviates_preorder_witness :
  ∃ a_S a_M,
    Abbreviation_init "XRC" = Ok a_S ∧ Abbreviation_init "XRCr" = Ok a_M
    ∧ abbreviates a_S "XRC" = true
    ∧ (abbreviates a_S "XRCr" = true → abbreviates a_M "X-Ray Cracking" = true →
       abbreviates a_S "X-Ray Cracking" = true).
Proof.
  do 2 eexists. split; [reflexivity|]. split; [reflexivity|].
  exact (abbreviates_preorder "XRC" "XRCr" "X-Ray Cracking" _ _ eq_refl eq_refl).
Defined.

(** ** Resolving *)

Lemma resolve_miss (s : string) (r : AbbreviationResolver) (a : Abbreviation) :
  lookup_table r !! s = None → Abbreviation_init s = Ok a →
  resolve s r = _resolve_abbreviation a r.
Proof.
  intros Hmiss Ha. unfold resolve, mbind, M_bind, get, lift. by rewrite Hmiss, Ha.
Qed.

Lemma resolve_invalid (s : string) (r : AbbreviationResolver) (e : exn) :
  lookup_table r !! s = None → Abbreviation_init s = Raise e →
  resolve s r = (Raise e, r).
Proof.
  intros Hmiss Ha. unfold resolve, mbind, M_bind, get, lift. by rewrite Hmiss, Ha.
Qed.

Lemma Abbreviation_init_outcome (s : string) :
  (∃ a, Abbreviation_init s = Ok a ∧ abbrev_string a = s)
  ∨ (∃ msg, Abbreviation_init s = Raise (ValueError msg [])).
Proof.
  unfold Abbreviation_init. destruct (String.eqb s ""); [eauto|].
  destruct (negb (isalpha s)); eauto.
Qed.

(** X3. A shorthand that is not in the lookup table resolves to a name
    exactly when it is a valid abbreviation and that name is the one
    candidate it abbreviates. *)
Theorem resolve_unique_match (s full : string) (r : AbbreviationResolver) :
  lookup_table r !! s = None →
  (resolve s r).1 = Ok full ↔
  ∃ a, Abbreviation_init s = Ok a
       ∧ filter (λ long_string, abbreviates a long_string = true) (string_collection r)
         = {[full]}.
Proof.
  intros Hmiss. split.
  - destruct (Abbreviation_init_outcome s) as [(a & Ha & _)|(msg & Ha)].
    + rewrite (resolve_miss s r a Hmiss Ha). intros Hok. exists a. split; [done|].
      revert Hok. unfold _resolve_abbreviation, mbind, M_bind, get. simpl.
      set (matches := filter _ _).
      destruct (decide (1 < size matches)); [done|].
      destruct (decide (size matches = 0)); [done|].
      assert (Hone : size matches = 1) by lia.
      apply size_1_elem_of in Hone as [x Hx]. apply leibniz_equiv in Hx.
      rewrite Hx, elements_singleton. simpl. by intros [= ->].
    + by rewrite (resolve_invalid s r _ Hmiss Ha).
  - intros (a & Ha & Hmatches).
    rewrite (resolve_miss s r a Hmiss Ha).
    by rewrite (_resolve_abbreviation_unique r a full Hmatches).
Qed.

Lemma resolve_unique_match_witness :
  let r := AbbreviationResolver_init ["X-Ray Cracking"; "Iron Ore"] in
  (resolve "IO" r).1 = Ok "Iron Ore" ↔
  ∃ a, Abbreviation_init "IO" = Ok a
       ∧ filter (λ long_string, abbreviates a long_string = true) (string_collection r)
         = {[ "Iron Ore" ]}.
Proof.
  intros r. apply (resolve_unique_match "IO" "Iron Ore" r). reflexivity.
Defined.

(** X4. A valid shorthand that is not in the lookup table fails as
    ambiguous exactly when more than one candidate matches, and the
    error then lists those candidates and no other; it fails as
    unmatched exactly when none does. *)
Theorem resolve_failures (s : string) (r : AbbreviationResolver) (a : Abbreviation) :
  lookup_table r !! s = None → Abbreviation_init s = Ok a →
  let matches : gset string :=
    filter (λ long_string, abbreviates a long_string = true) (string_collection r) in
  (1 < size matches ↔
   ∃ reported, (resolve s r).1
               = Raise (ValueError "too many strings match abbreviation: "
                          (abbrev_string a :: reported))
               ∧ ∀ x, x ∈ reported ↔ x ∈ string_collection r ∧ abbreviates a x = true)
  ∧ (size matches = 0 ↔
     (resolve s r).1
     = Raise (ValueError "found no strings matching abbreviation: " [abbrev_string a])).
Proof.
  intros Hmiss Ha matches. rewrite (resolve_miss s r a Hmiss Ha).
  unfold _resolve_abbreviation, mbind, M_bind, get. simpl. fold matches.
  destruct (decide (1 < size matches)) as [Hmany|Hfew].
  - split; split; [|done|lia|done].
    intros _. exists (elements matches). split; [done|].
    intros x. rewrite elem_of_elements. unfold matches.
    by rewrite elem_of_filter, (comm and).
  - destruct (decide (size matches = 0)) as [Hnone|Hsome].
    + split; split; [lia|by intros (? & [=] & _)|done..].
    + split; split; try done.
      * by destruct (elements matches); intros (? & [=] & _).
      * by destruct (elements matches).
Qed.

Lemma resolve_failures_witness :
  let r := AbbreviationResolver_init ["X-Ray Cracking"; "X-Ray Crystallography"] in
  ∃ a, Abbreviation_init "XRC" = Ok a ∧
  let matches : gset string :=
    filter (λ long_string, abbreviates a long_string = true) (string_collection r) in
  (1 < size matches ↔
   ∃ reported, (resolve "XRC" r).1
               = Raise (ValueError "too many strings match abbreviation: "
                          (abbrev_string a :: reported))
               ∧ ∀ x, x ∈ reported ↔ x ∈ string_collection r ∧ abbreviates a x = true)
  ∧ (size matches = 0 ↔
     (resolve "XRC" r).1
     = Raise (ValueError "found no strings matching abbreviation: " [abbrev_string a])).
Proof.
  intros r. eexists. split; [reflexivity|].
  exact (resolve_failures "XRC" r _ eq_refl eq_refl).
Defined.

(** * Names *)

Lemma lstrip_idemp (s : string) : lstrip (lstrip s) = lstrip s.
Proof.
  induction s as [|c s IH]; [done|]. simpl.
  destruct (isspace_char c) eqn:Hc; [done|]. simpl. by rewrite Hc.
Qed.

Lemma rstrip_idemp (s : string) : rstrip (rstrip s) = rstrip s.
Proof.
  induction s as [|c s IH]; [done|]. simpl.
  destruct (isspace_char c && String.eqb (rstrip s) "") eqn:Hc; [done|].
  simpl. by rewrite IH, Hc.
Qed.

Lemma lstrip_rstrip (s : string) : lstrip (rstrip s) = rstrip (lstrip s).
Proof.
  induction s as [|c s IH]; [done|]. simpl.
  destruct (isspace_char c) eqn:Hc; simpl.
  - destruct (String.eqb_spec (rstrip s) "") as [Hr|Hr]; simpl.
    + by rewrite <- IH, Hr.
    + by rewrite Hc.
  - by rewrite Hc.
Qed.

Lemma strip_idemp (s : string) : strip (strip s) = strip s.
Proof.
  unfold strip.
  by rewrite (lstrip_rstrip (lstrip s)), lstrip_idemp, rstrip_idemp.
Qed.

Lemma strip_lstrip (s : string) : lstrip (strip s) = strip s.
Proof. unfold strip. by rewrite lstrip_rstrip, lstrip_idemp. Qed.

Lemma strip_rstrip (s : string) : rstrip (strip s) = strip s.
Proof. unfold strip. by rewrite rstrip_idemp. Qed.

(** X5. The constructors of [Product] and [FacilityCategory] refuse a
    name that is empty once stripped and otherwise keep the stripped
    name: it has no white space at either end, and building the object
    again from its own name gives the same object. *)
Theorem names_are_canonical (name : string) :
  (strip name = "" →
     Product_init name
     = Raise (ValueError "product name empty or all whitespace" [])
     ∧ FacilityCategory_init name
       = Raise (ValueError "facility category name empty or all whitespace" []))
  ∧ (strip name ≠ "" →
     ∃ p c, Product_init name = Ok p ∧ FacilityCategory_init name = Ok c
            ∧ product_name p = strip name ∧ category_name c = strip name
            ∧ lstrip (product_name p) = product_name p
            ∧ rstrip (product_name p) = product_name p
            ∧ Product_init (product_name p) = Ok p
            ∧ FacilityCategory_init (category_name c) = Ok c).
Proof.
  unfold Product_init, FacilityCategory_init. split.
  - by intros ->.
  - intros Hne. pose proof (proj2 (String.eqb_neq _ _) Hne) as Heqb.
    exists (mkProduct (strip name)), (mkFacilityCategory (strip name)). simpl.
    rewrite !strip_idemp, Heqb.
    split_and!; try reflexivity.
    + apply strip_lstrip.
    + apply strip_rstrip.
Qed.

Lemma names_are_canonical_witness :
  ∃ p c, Product_init "  Iron Ore " = Ok p ∧ FacilityCategory_init "  Iron Ore " = Ok c
         ∧ product_name p = strip "  Iron Ore " ∧ category_name c = strip "  Iron Ore "
         ∧ lstrip (product_name p) = product_name p
         ∧ rstrip (product_name p) = product_name p
         ∧ Product_init (product_name p) = Ok p
         ∧ FacilityCategory_init (category_name c) = Ok c.
Proof.
  apply (proj2 (names_are_canonical "  Iron Ore ")). by vm_compute.
Defined.

(** * Times and rates *)

Lemma Qc_inv_inv (x : Qc) : x ≠ 0%Qc → (1 / (1 / x))%Qc = x.
Proof. intros Hx. by field. Qed.

Lemma Qc_inv_nonzero (x : Qc) : x ≠ 0%Qc → (1 / x)%Qc ≠ 0%Qc.
Proof.
  intros Hx Hinv. assert (H : (x * (1 / x))%Qc = 1%Qc) by by field.
  rewrite Hinv, Qcmult_0_r in H. discriminate.
Qed.

(** X6. A time and a rate are dual: the rate of a non-zero time is
    defined, its time is the time one started from, and their product is
    1. The rate of the zero time is a division by zero. *)
Theorem Time_Rate_dual (t : Time) :
  (seconds t ≠ 0%Qc →
     ∃ r, Rate_of_Time t = Ok r ∧ Time_of_Rate r = Ok t
          ∧ Time_mul_Rate t r = 1%Qc ∧ Rate_mul_Time r t = 1%Qc)
  ∧ (seconds t = 0%Qc → Rate_of_Time t = Raise ZeroDivisionError).
Proof.
  destruct t as [s]. simpl. unfold Rate_of_Time, Time_of_Rate, Fraction_div. simpl.
  split.
  - intros Hs. rewrite decide_False by done. simpl. eexists. split; [reflexivity|].
    simpl. rewrite decide_False by by apply Qc_inv_nonzero. simpl.
    rewrite Qc_inv_inv by done.
    unfold Time_mul_Rate, Rate_mul_Time. simpl. split_and!; [done|by field..].
  - intros ->. by rewrite decide_True.
Qed.

Lemma Time_Rate_dual_witness :
  ∃ r, Rate_of_Time (mkTime 2%Qc) = Ok r ∧ Time_of_Rate r = Ok (mkTime 2%Qc)
       ∧ Time_mul_Rate (mkTime 2%Qc) r = 1%Qc ∧ Rate_mul_Time r (mkTime 2%Qc) = 1%Qc.
Proof.
  apply (proj1 (Time_Rate_dual (mkTime 2%Qc))). by vm_compute.
Defined.

(** [other / self] where neither is zero. *)
Lemma Time_rtruediv_defined (t : Time) (k : Qc) :
  k ≠ 0%Qc → seconds t ≠ 0%Qc →
  Time_rtruediv t k = Ok (mkRate (k / seconds t)%Qc).
Proof.
  destruct t as [s]. simpl. intros Hk Hs.
  unfold Time_rtruediv, Time_div, Rate_of_Time, Fraction_div.
  rewrite decide_False by done. simpl.
  assert (Hsk : (s / k)%Qc ≠ 0%Qc).
  { intros H. assert (H' : ((s / k) * k)%Qc = s) by by field.
    rewrite H, Qcmult_0_l in H'. by subst. }
  rewrite decide_False by done. simpl. do 2 f_equal. by field.
Qed.

(** [other / self] where one of them is zero. *)
Lemma Time_rtruediv_undefined (t : Time) (k : Qc) :
  k = 0%Qc ∨ seconds t = 0%Qc → Time_rtruediv t k = Raise ZeroDivisionError.
Proof.
  destruct t as [s]. simpl.
  unfold Time_rtruediv, Time_div, Rate_of_Time, Fraction_div.
  intros [->| ->].
  - by rewrite decide_True.
  - destruct (decide (k = 0%Qc)); [done|]. simpl.
    first [done|rewrite decide_True; [done|]; unfold Qcdiv; by rewrite Qcmult_0_l].
Qed.

(** X7. A number divided by a time is a rate, computed through the
    quotient of the time by the number: the division is defined when
    both are non-zero, and is then the rate of that many events per
    time; zero divided by a time is a division by zero, like a division
    by the zero time. Dividing the number by that rate gives the time
    back. *)
Theorem Time_rtruediv_spec (t : Time) (k : Qc) :
  (k ≠ 0%Qc → seconds t ≠ 0%Qc →
     Time_rtruediv t k = Ok (mkRate (k / seconds t)%Qc)
     ∧ Rate_rtruediv (mkRate (k / seconds t)%Qc) k = Ok t)
  ∧ (k = 0%Qc ∨ seconds t = 0%Qc → Time_rtruediv t k = Raise ZeroDivisionError).
Proof.
  split; [|apply Time_rtruediv_undefined].
  intros Hk Hs. split; [by apply Time_rtruediv_defined|].
  destruct t as [s]. simpl in *.
  unfold Rate_rtruediv, Rate_div, Time_of_Rate, Fraction_div. simpl.
  rewrite decide_False by done. simpl.
  assert (Hkk : (k / s / k)%Qc ≠ 0%Qc).
  { intros H. assert (H' : ((k / s / k) * s)%Qc = 1%Qc) by by field.
    rewrite H, Qcmult_0_l in H'. discriminate. }
  rewrite decide_False by done. simpl. do 2 f_equal. by field.
Qed.

Lemma Time_rtruediv_spec_witness :
  Time_rtruediv (mkTime 2%Qc) 1%Qc = Ok (mkRate (1 / 2)%Qc)
  ∧ Rate_rtruediv (mkRate (1 / 2)%Qc) 1%Qc = Ok (mkTime 2%Qc).
Proof.
  apply (proj1 (Time_rtruediv_spec (mkTime 2%Qc) 1%Qc)); by vm_compute.
Defined.

(** The classes on the upper half of the range: the accented capital E
    is a letter and an uppercase one, the sign of multiplication is
    neither; the no-break space and the next-line control are stripped
    like a space. *)
Lemma classes_above_127 :
  isalpha (String "201" "") = true
  ∧ isupper_char "201" = true
  ∧ is_capital "201" = false
  ∧ isalpha (String "215" "") = false
  ∧ strip (String "160" (String "133" "Smelter ")) = "Smelter"
  ∧ Product_init (String "160" "")
    = Raise (ValueError "product name empty or all whitespace" [])
  ∧ FacilityCategory_init (String "160" "Smelter") = Ok Smelter.
Proof. by vm_compute. Qed.

(** * More on recipes *)

Lemma sorted_fixed {A} (key : A → Z) (l : list A) :
  Sorted (λ a b, key a ≤ key b)%Z l → sorted key l = l.
Proof.
  induction 1 as [|x l Hl IH Hx]; [done|].
  change (sorted key (x :: l)) with (insert_by_key key x (sorted key l)).
  rewrite IH. destruct Hx as [|y l Hxy]; [done|]. simpl.
  by rewrite (proj2 (Z.leb_le _ _) Hxy).
Qed.

Section more_recipes.
Variable hash_str : string → Z.
Variable hash_tuple : list Z → Z.

Let hash := hash_ProductQuantity hash_str hash_tuple.

Lemma Recipe_init_Ok name outs ins period made_in r :
Recipe_init hash_str hash_tuple name outs ins period made_in = Ok r →
∃ given, (name = Some given ∨ name = None ∧ ∃ o, outs = [o] ∧ given = ProductQuantity_name o)
         ∧ strip given ≠ "" ∧ outs ≠ [] ∧ ins ≠ []
         ∧ r = mkRecipe (strip given) (sorted hash outs) (sorted hash ins) period made_in.
Proof.
unfold Recipe_init.
assert (Hbody : ∀ given,
  (if String.eqb (strip given) "" then
     Raise (ValueError "recipe name empty or all whitespace" [])
   else if (length outs <? 1)%nat then
     Raise (ValueError "recipe output collection is empty" [])
   else if (length ins <? 1)%nat then
     Raise (ValueError "recipe input collection is empty" [])
   else Ok (mkRecipe (strip given) (sorted hash outs) (sorted hash ins) period made_in))
  = Ok r →
  strip given ≠ "" ∧ outs ≠ [] ∧ ins ≠ []
  ∧ r = mkRecipe (strip given) (sorted hash outs) (sorted hash ins) period made_in).
{ intros given. destruct (String.eqb_spec (strip given) ""); [done|].
  destruct outs; [done|]. destruct ins; [done|]. simpl. by intros [= <-]. }
destruct name as [given|]; simpl.
- intros H. exists given. split; [by left|]. by apply Hbody.
- destruct outs as [|o [|o' outs']]; [done| |done]. simpl.
  intros H. exists (ProductQuantity_name o). split; [right; eauto|]. by apply Hbody.
Qed.

(** X8. A recipe that was built has a stripped, non-empty name, holds
  the very ingredients it was given, none missing and none twice, in
  the order of their hashes, and has at least one output and one
  input. *)
Theorem Recipe_init_invariants name outs ins per cat r :
Recipe_init hash_str hash_tuple name outs ins per cat = Ok r →
recipe_name r ≠ "" ∧ strip (recipe_name r) = recipe_name r
∧ outputs r ≡ₚ outs ∧ inputs r ≡ₚ ins
∧ outputs r ≠ [] ∧ inputs r ≠ []
∧ Sorted (λ a b, hash a ≤ hash b)%Z (outputs r)
∧ Sorted (λ a b, hash a ≤ hash b)%Z (inputs r)
∧ period r = per ∧ made_in r = cat.
Proof.
intros H. apply Recipe_init_Ok in H as (given & _ & Hname & Houts & Hins & ->). simpl.
split_and!; try done.
- apply strip_idemp.
- apply sorted_Permutation.
- apply sorted_Permutation.
- intros Hnil. apply Houts. apply Permutation_nil_r.
  by rewrite <- Hnil, sorted_Permutation.
- intros Hnil. apply Hins. apply Permutation_nil_r.
  by rewrite <- Hnil, sorted_Permutation.
- apply sorted_Sorted.
- apply sorted_Sorted.
Qed.

(** X9. A recipe is in canonical form: building a recipe again from the
  name, the outputs, the inputs, the period and the category of one
  that was built gives that recipe. *)
Theorem Recipe_init_rebuild name outs ins per cat r :
Recipe_init hash_str hash_tuple name outs ins per cat = Ok r →
Recipe_init hash_str hash_tuple (Some (recipe_name r)) (outputs r) (inputs r)
            (period r) (made_in r) = Ok r.
Proof.
intros H. apply Recipe_init_Ok in H as (given & _ & Hname & Houts & Hins & ->).
assert (Ho : sorted hash outs ≠ []).
{ intros Hnil. apply Houts, Permutation_nil_r. by rewrite <- Hnil, sorted_Permutation. }
assert (Hi : sorted hash ins ≠ []).
{ intros Hnil. apply Hins, Permutation_nil_r. by rewrite <- Hnil, sorted_Permutation. }
unfold Recipe_init. cbn [recipe_name outputs inputs period made_in mbind outcome_bind].
rewrite strip_idemp, (proj2 (String.eqb_neq _ _) Hname).
change (hash_ProductQuantity hash_str hash_tuple) with hash.
pose proof (sorted_fixed hash (sorted hash outs) (sorted_Sorted _ _)) as ->.
pose proof (sorted_fixed hash (sorted hash ins) (sorted_Sorted _ _)) as ->.
destruct (sorted hash outs) as [|o outs'] eqn:Eo; [done|].
destruct (sorted hash ins) as [|i ins'] eqn:Ei; [done|]. done.
Qed.

(** X10. Where the ingredients of each list have distinct hashes, the
  order in which they are given does not matter: the constructor ends
  the same way, and with equal recipes, on any two arrangements of the
  outputs and of the inputs. *)
Theorem Recipe_init_permutation name outs outs' ins ins' period made_in :
(∀ x y, x ∈ outs → y ∈ outs → hash x = hash y → x = y) →
(∀ x y, x ∈ ins → y ∈ ins → hash x = hash y → x = y) →
outs ≡ₚ outs' → ins ≡ₚ ins' →
Recipe_init hash_str hash_tuple name outs ins period made_in
= Recipe_init hash_str hash_tuple name outs' ins' period made_in.
Proof.
intros Hout Hin Pout Pin. destruct name as [name|].
- by apply Recipe_init_order_independent.
- unfold Recipe_init.
  assert (Hauto : match outs with [o] => Some (ProductQuantity_name o) | _ => None end
                  = match outs' with [o] => Some (ProductQuantity_name o) | _ => None end).
  { pose proof (Permutation_length Pout) as Hlen.
    destruct outs as [|o [|??]], outs' as [|o' [|??]]; try done.
    apply Permutation_singleton_l in Pout. by injection Pout as <-. }
  rewrite Hauto. destruct (match outs' with [o] => _ | _ => _ end); [|done]. simpl.
  fold hash.
  rewrite (sorted_order_independent _ outs outs' Hout Pout).
  rewrite (sorted_order_independent _ ins ins' Hin Pin).
  by rewrite (Permutation_length Pout), (Permutation_length Pin).
Qed.
End more_recipes.

Lemma Recipe_init_invariants_witness :
  ∃ r, Recipe_init (λ s, Z.of_nat (String.length s)) (foldr (λ x acc, x + 1000 * acc)%Z 0%Z)
         None [ingredient 1%Z "Iron Ingot"] [ingredient 1%Z "Iron Ore"]
         (mkTime 1%Qc) Smelter = Ok r
       ∧ recipe_name r ≠ "" ∧ outputs r ≡ₚ [ingredient 1%Z "Iron Ingot"]
       ∧ inputs r ≠ [].
Proof.
  eexists. split; [reflexivity|].
  pose proof (Recipe_init_invariants (λ s, Z.of_nat (String.length s))
                (foldr (λ x acc, x + 1000 * acc)%Z 0%Z)
                None [ingredient 1%Z "Iron Ingot"] [ingredient 1%Z "Iron Ore"]
                (mkTime 1%Qc) Smelter _ eq_refl) as H.
  split_and!; apply H.
Defined.

Lemma Recipe_init_rebuild_witness :
  Recipe_init (λ s, Z.of_nat (String.length s)) (foldr (λ x acc, x + 1000 * acc)%Z 0%Z)
    (Some "Iron Ingot") [ingredient 1%Z "Iron Ingot"] [ingredient 1%Z "Iron Ore"]
    (mkTime 1%Qc) Smelter
  = Ok (mkRecipe "Iron Ingot" [ingredient 1%Z "Iron Ingot"] [ingredient 1%Z "Iron Ore"]
          (mkTime 1%Qc) Smelter).
Proof.
  exact (Recipe_init_rebuild (λ s, Z.of_nat (String.length s))
           (foldr (λ x acc, x + 1000 * acc)%Z 0%Z)
           (Some "  Iron Ingot ") [ingredient 1%Z "Iron Ingot"] [ingredient 1%Z "Iron Ore"]
           (mkTime 1%Qc) Smelter _ eq_refl).
Defined.

Lemma Recipe_init_permutation_witness :
  let hash_str := λ s, Z.of_nat (String.length s) in
  let hash_tuple := foldr (λ x acc, x + 1000 * acc)%Z 0%Z in
  Recipe_init hash_str hash_tuple (Some "Smelt")
    [ingredient 1%Z "Iron Ingot"; ingredient 2%Z "Slag"] [ingredient 1%Z "Iron Ore"]
    (mkTime 1%Qc) Smelter
  = Recipe_init hash_str hash_tuple (Some "Smelt")
      [ingredient 2%Z "Slag"; ingredient 1%Z "Iron Ingot"] [ingredient 1%Z "Iron Ore"]
      (mkTime 1%Qc) Smelter.
Proof.
  intros hash_str hash_tuple.
  apply Recipe_init_permutation.
  - intros x y Hx Hy.
    apply elem_of_cons in Hx as [->|Hx]; [|apply list_elem_of_singleton in Hx as ->];
      (apply elem_of_cons in Hy as [->|Hy]; [|apply list_elem_of_singleton in Hy as ->]);
      by vm_compute.
  - intros x y Hx Hy.
    apply list_elem_of_singleton in Hx as ->. by apply list_elem_of_singleton in Hy as ->.
  - apply Permutation_swap.
  - reflexivity.
Defined.

(** * More on the recipe reader *)

(** ** Blocks *)

Lemma slice_prefix {A} (s : nat) (pre post : list A) :
  (s ≤ length pre)%nat → slice s (length pre) (pre ++ post) = drop s pre.
Proof.
  intros Hs. unfold slice. rewrite drop_app_le by done.
  rewrite take_app_le by (rewrite length_drop; lia).
  apply take_ge. rewrite length_drop. lia.
Qed.

(** The loop of [_split_on_blank_lines], from any line on: [pre] holds
    the lines that were visited, [start] the index where the open block
    began. *)
Lemma split_loop (pre post : list string) (blocks : list (list string))
    (start : option nat) :
  match start with Some s => (s < length pre)%nat | None => True end →
  (let '(list_of_blocks, current_block_start) :=
     foldl (λ (st : list (list string) * option nat) (il : nat * string),
              let '(list_of_blocks, current_block_start) := st in
              let '(i, line) := il in
              if String.eqb line "" then
                (match current_block_start with
                 | Some start => list_of_blocks ++ [slice start i (pre ++ post)]
                 | None => list_of_blocks
                 end, None)
              else
                match current_block_start with
                | None => (list_of_blocks, Some i)
                | Some _ => st
                end)
           (blocks, start) (imap (λ i x, (length pre + i, x)) post) in
   match current_block_start with
   | Some start => list_of_blocks ++ [drop start (pre ++ post)]
   | None => list_of_blocks
   end)
  = blocks ++ split_blocks (match start with Some s => drop s pre | None => [] end) post.
Proof.
  revert pre blocks start. induction post as [|x post IH]; intros pre blocks start Hstart.
  - simpl. rewrite app_nil_r. destruct start as [s|]; [|by rewrite app_nil_r].
    destruct (drop s pre) eqn:Hd; [|done].
    apply (f_equal length) in Hd. rewrite length_drop in Hd. simpl in Hd. lia.
  - rewrite imap_cons. cbn [foldl]. rewrite Nat.add_0_r.
    replace (pre ++ x :: post) with ((pre ++ [x]) ++ post) by by rewrite <- app_assoc.
    assert (Himap : imap ((λ i y, (length pre + i, y)) ∘ S) post
                    = imap (λ i y, (length (pre ++ [x]) + i, y)) post).
    { apply imap_ext. intros i y _. simpl. rewrite length_app. simpl. f_equal. lia. }
    rewrite Himap. simpl split_blocks.
    destruct (String.eqb_spec x "") as [->|Hx].
    + destruct start as [s|].
      * rewrite <- (app_assoc pre [""] post), slice_prefix by lia.
        rewrite (app_assoc pre [""] post).
        rewrite (IH (pre ++ [""]) (blocks ++ [drop s pre]) None I).
        rewrite <- app_assoc. simpl.
        destruct (drop s pre) eqn:Hd; [|done].
        apply (f_equal length) in Hd. rewrite length_drop in Hd. simpl in Hd. lia.
      * by rewrite (IH (pre ++ [""]) blocks None I).
    + destruct start as [s|].
      * rewrite (IH (pre ++ [x]) blocks (Some s)) by (rewrite length_app; simpl; lia).
        by rewrite drop_app_le by lia.
      * rewrite (IH (pre ++ [x]) blocks (Some (length pre)))
          by (rewrite length_app; simpl; lia).
        by rewrite drop_app_length.
Qed.

Lemma _split_on_blank_lines_blocks (lines : list string) :
  _split_on_blank_lines lines = split_blocks [] lines.
Proof.
  pose proof (split_loop [] lines [] None I) as H. simpl in H.
  unfold _split_on_blank_lines, enumerate. exact H.
Qed.

Lemma split_blocks_run (current run : list string) :
  Forall (λ line, line ≠ "") run → current ++ run ≠ [] →
  split_blocks current run = [current ++ run].
Proof.
  revert current. induction run as [|x run IH]; intros current Hrun Hne.
  - rewrite app_nil_r in *. simpl. by destruct current.
  - apply Forall_cons in Hrun as [Hx Hrun]. simpl.
    rewrite (proj2 (String.eqb_neq _ _) Hx).
    rewrite IH; [by rewrite <- app_assoc|done|].
    rewrite <- app_assoc. by destruct current.
Qed.

Lemma split_blocks_blank (current a b : list string) :
  split_blocks current (a ++ "" :: b) = split_blocks current a ++ split_blocks [] b.
Proof.
  revert current. induction a as [|x a IH]; intros current.
  - simpl. by destruct current.
  - simpl. destruct (String.eqb x ""); [|apply IH].
    destruct current; by rewrite IH.
Qed.

(** X11. The blocks of a file are its maximal runs of lines that are
    not blank: lines without a blank one among them form one block, a
    blank line ends a block and is dropped, and the blocks on either
    side of a blank line are those of the two parts. *)
Theorem _split_on_blank_lines_runs :
  _split_on_blank_lines [] = []
  ∧ (∀ run, run ≠ [] → Forall (λ line, line ≠ "") run →
            _split_on_blank_lines run = [run])
  ∧ (∀ a b, _split_on_blank_lines (a ++ "" :: b)
            = _split_on_blank_lines a ++ _split_on_blank_lines b).
Proof.
  split_and!.
  - done.
  - intros run Hne Hrun. rewrite _split_on_blank_lines_blocks.
    by apply (split_blocks_run [] run).
  - intros a b. rewrite !_split_on_blank_lines_blocks. apply split_blocks_blank.
Qed.

Lemma _split_on_blank_lines_runs_witness :
  _split_on_blank_lines ["1 Iron Ingot"; "^ 1 s (Smelter)"; "1 Iron Ore"]
  = [["1 Iron Ingot"; "^ 1 s (Smelter)"; "1 Iron Ore"]].
Proof.
  apply (proj1 (proj2 _split_on_blank_lines_runs)); [done|].
  repeat constructor; by vm_compute.
Defined.

Lemma split_blocks_lines (current lines : list string) :
  Forall (λ line, line ≠ "") current →
  concat (split_blocks current lines) = current ++ filter (λ line, line ≠ "") lines
  ∧ Forall (λ block, block ≠ [] ∧ Forall (λ line, line ≠ "") block)
           (split_blocks current lines).
Proof.
  revert current. induction lines as [|x lines IH]; intros current Hcur.
  - simpl. destruct current as [|y current]; simpl.
    { split; [done|constructor]. }
    rewrite !app_nil_r. split; [done|]. constructor; [by split|constructor].
  - simpl. destruct (String.eqb_spec x "") as [->|Hx].
    + rewrite filter_cons_False by (by intros ?).
      destruct (IH [] ltac:(constructor)) as [Hc Hf].
      destruct current as [|y current]; [done|]. simpl. rewrite Hc.
      split; [done|]. by constructor.
    + rewrite filter_cons_True by done.
      destruct (IH (current ++ [x])) as [Hc Hf].
      { apply Forall_app. split; [done|]. by constructor. }
      split; [|done]. by rewrite Hc, <- app_assoc.
Qed.

(** X12. Splitting loses no line and adds none: the blocks, put end to
    end, are the lines that are not blank, in their order; no block is
    empty and none holds a blank line. *)
Theorem _split_on_blank_lines_lines (lines : list string) :
  concat (_split_on_blank_lines lines) = filter (λ line, line ≠ "") lines
  ∧ Forall (λ block, block ≠ [] ∧ Forall (λ line, line ≠ "") block)
           (_split_on_blank_lines lines).
Proof.
  rewrite _split_on_blank_lines_blocks.
  exact (split_blocks_lines [] lines ltac:(constructor)).
Qed.

(** ** Reading a block *)

Lemma _parse_ingredient_in_range (block : list string) (i : Z) o :
  _parse_ingredient block i = Ok (Some o) → (0 ≤ i < Z.of_nat (length block))%Z.
Proof.
  unfold _parse_ingredient.
  destruct (Z.ltb_spec i 0), (Z.geb_spec i (Z.of_nat (length block))); simpl;
    try done; intros; lia.
Qed.

Lemma _parse_ingredient_terminates (block : list string) (i : Z) :
  _parse_ingredient block i ≠ Diverge.
Proof.
  unfold _parse_ingredient. destruct (_ || _); [done|].
  destruct (re_match _ _) as [[|n [|p [|??]]]|]; try done.
  unfold int_of_string. destruct (_ && _); [|done]. simpl.
  unfold ProductQuantity_init, Product_init. by destruct (String.eqb _ _).
Qed.

(** The loop over ingredient lines stops before the block ends. *)
Lemma ingredient_lines_terminates (rounds : nat) (block : list string) (i : Z) acc :
  (Z.of_nat (length block) - i ≤ Z.of_nat rounds)%Z →
  ingredient_lines rounds block i acc ≠ Diverge
  ∧ ∀ r i', ingredient_lines rounds block i acc = Ok (r, i') → (i ≤ i')%Z.
Proof.
  revert i acc. induction rounds as [|rounds IH]; intros i acc Hrounds.
  - simpl. pose proof (_parse_ingredient_terminates block i) as Hp.
    destruct (_parse_ingredient block i) as [[o|]| |] eqn:Ho; simpl; try done.
    + apply _parse_ingredient_in_range in Ho. lia.
    + split; [done|]. intros ?? [= _ <-]. lia.
  - simpl. pose proof (_parse_ingredient_terminates block i) as Hp.
    destruct (_parse_ingredient block i) as [[o|]| |] eqn:Ho; simpl; try done.
    + destruct (IH (i + 1)%Z (acc ++ [o])) as [Hd Hi]; [lia|].
      split; [done|]. intros r i' Hr. apply Hi in Hr. lia.
    + split; [done|]. intros ?? [= _ <-]. lia.
Qed.

(** X13. Reading a block terminates: neither loop over the ingredient
    lines goes past the end of the block, so the reader ends with a
    recipe or with an error, whatever the block. *)
Theorem read_recipe_terminates (hash_str : string → Z) (hash_tuple : list Z → Z)
    (recipe_block : list string) :
  read_recipe hash_str hash_tuple recipe_block ≠ Diverge.
Proof.
  unfold read_recipe.
  destruct (ingredient_lines_terminates (length recipe_block) recipe_block 0 [])
    as [Hd Hi]; [lia|].
  destruct (ingredient_lines _ _ 0%Z []) as [[outs i]| |] eqn:Houts; simpl; [|done..].
  specialize (Hi _ _ eq_refl).
  destruct (_parse_arrow_line recipe_block i) as [[per cat]| |] eqn:Harrow; simpl;
    [|done|].
  2:{ revert Harrow. unfold _parse_arrow_line. destruct (_ || _); [done|].
      destruct (re_match _ _) as [[|s [|c [|??]]]|]; try done.
      unfold read_rational. destruct (try_read_rational s); [|done]. simpl.
      unfold FacilityCategory_init. by destruct (String.eqb _ _). }
  destruct (ingredient_lines_terminates (length recipe_block) recipe_block (i + 1) [])
    as [Hd' _]; [lia|].
  destruct (ingredient_lines _ _ (i + 1)%Z []) as [[ins j]| |]; simpl; [|done..].
  destruct (_parse_nametag_line recipe_block j) as [name| |] eqn:Hname; simpl.
  - unfold Recipe_init.
    destruct name as [name|]; simpl.
    + destruct (String.eqb _ _); [done|]. by repeat case_match.
    + destruct outs as [|o [|??]]; simpl; try done.
      destruct (String.eqb _ _); [done|]. by repeat case_match.
  - done.
  - revert Hname. unfold _parse_nametag_line. repeat case_match; done.
Qed.

(** A line, read on its own. *)
Lemma _parse_ingredient_line (pre post : list string) (line : string) :
  _parse_ingredient (pre ++ line :: post) (Z.of_nat (length pre))
  = _parse_ingredient [line] 0.
Proof.
  unfold _parse_ingredient. rewrite length_app. simpl.
  destruct (Z.ltb_spec (Z.of_nat (length pre)) 0); [lia|].
  destruct (Z.geb_spec (Z.of_nat (length pre))
              (Z.of_nat (length pre + S (length post)))); [lia|].
  simpl. rewrite Nat2Z.id.
  by rewrite lookup_app_r, Nat.sub_diag by lia.
Qed.

Lemma _parse_arrow_line_line (pre post : list string) (line : string) :
  _parse_arrow_line (pre ++ line :: post) (Z.of_nat (length pre))
  = _parse_arrow_line [line] 0.
Proof.
  unfold _parse_arrow_line. rewrite length_app. simpl.
  destruct (Z.ltb_spec (Z.of_nat (length pre)) 0); [lia|].
  destruct (Z.geb_spec (Z.of_nat (length pre))
              (Z.of_nat (length pre + S (length post)))); [lia|].
  simpl. rewrite Nat2Z.id.
  by rewrite lookup_app_r, Nat.sub_diag by lia.
Qed.

(** An arrow line is no ingredient line. *)
Lemma arrow_not_ingredient (line : string) r :
  _parse_arrow_line [line] 0 = Ok r → _parse_ingredient [line] 0 = Ok None.
Proof.
  unfold _parse_arrow_line, _parse_ingredient. simpl.
  destruct line as [|c line]; [done|].
  destruct (Ascii.eqb_spec c "^") as [->|Hc]; [done|].
  assert (H : re_match ARROW_LINE_REGEX (String c line) = None).
  { unfold re_match, ARROW_LINE_REGEX. cbn [run repeated]. unfold lit at 1.
    by rewrite (proj2 (Ascii.eqb_neq "^" c)). }
  by rewrite H.
Qed.

Lemma ingredient_lines_run (lines : list string) :
  ∀ (pre rest : list string) (ings acc : list (ProductQuantity Z)) (rounds : nat),
  Forall2 (λ line o, _parse_ingredient [line] 0 = Ok (Some o)) lines ings →
  match rest with
  | [] => True
  | line :: _ => _parse_ingredient [line] 0 = Ok None
  end →
  (length lines ≤ rounds)%nat →
  ingredient_lines rounds (pre ++ lines ++ rest) (Z.of_nat (length pre)) acc
  = Ok (acc ++ ings, Z.of_nat (length pre + length lines)).
Proof.
  induction lines as [|line lines IH]; intros pre rest ings acc rounds Hlines Hrest Hrounds.
  - apply Forall2_nil_inv_l in Hlines as ->. rewrite app_nil_r, Nat.add_0_r. simpl.
    assert (Hstop : _parse_ingredient (pre ++ rest) (Z.of_nat (length pre)) = Ok None).
    { destruct rest as [|line rest].
      - unfold _parse_ingredient. rewrite app_nil_r.
        destruct (Z.geb_spec (Z.of_nat (length pre)) (Z.of_nat (length pre))); [|lia].
        by rewrite orb_true_r.
      - by rewrite _parse_ingredient_line. }
    destruct rounds; simpl; by rewrite Hstop.
  - apply Forall2_cons_inv_l in Hlines as (o & ings' & Ho & Hlines & ->).
    destruct rounds as [|rounds]; [simpl in Hrounds; lia|].
    cbn [ingredient_lines]. rewrite <- app_comm_cons, _parse_ingredient_line, Ho.
    cbn [mbind outcome_bind].
    replace (pre ++ line :: lines ++ rest) with ((pre ++ [line]) ++ lines ++ rest)
      by by rewrite <- app_assoc.
    replace (Z.of_nat (length pre) + 1)%Z with (Z.of_nat (length (pre ++ [line])))
      by (rewrite length_app; simpl; lia).
    rewrite (IH (pre ++ [line]) rest ings' (acc ++ [o]) rounds Hlines Hrest)
      by (simpl in Hrounds; lia).
    rewrite <- app_assoc, length_app. simpl. do 3 f_equal. lia.
Qed.

(** X14. A block of output lines, an arrow line and input lines, with
    nothing after them, is read as the recipe without a name of its own
    that is made of those outputs, that period and category, and those
    inputs: the reader ends as the constructor does on them. *)
Theorem read_recipe_block (hash_str : string → Z) (hash_tuple : list Z → Z)
    (output_lines input_lines : list string) (arrow_line : string)
    (outs ins : list (ProductQuantity Z)) (per : Time) (cat : FacilityCategory) :
  Forall2 (λ line o, _parse_ingredient [line] 0 = Ok (Some o)) output_lines outs →
  _parse_arrow_line [arrow_line] 0 = Ok (per, cat) →
  Forall2 (λ line o, _parse_ingredient [line] 0 = Ok (Some o)) input_lines ins →
  read_recipe hash_str hash_tuple (output_lines ++ arrow_line :: input_lines)
  = Recipe_init hash_str hash_tuple None outs ins per cat.
Proof.
  intros Houts Harrow Hins. unfold read_recipe.
  set (block := output_lines ++ arrow_line :: input_lines).
  assert (Hlen : length block = length output_lines + S (length input_lines)).
  { unfold block. by rewrite length_app. }
  pose proof (ingredient_lines_run output_lines [] (arrow_line :: input_lines)
                outs [] (length block) Houts
                (arrow_not_ingredient arrow_line _ Harrow)) as H1.
  specialize (H1 ltac:(lia)).
  change (ingredient_lines (length block) block 0 []
          = Ok (outs, Z.of_nat (length output_lines))) in H1.
  rewrite H1. cbn [mbind outcome_bind].
  assert (Ha : _parse_arrow_line block (Z.of_nat (length output_lines)) = Ok (per, cat)).
  { unfold block. by rewrite _parse_arrow_line_line. }
  rewrite Ha. cbn [mbind outcome_bind].
  pose proof (ingredient_lines_run input_lines (output_lines ++ [arrow_line]) []
                ins [] (length block) Hins I) as H2.
  specialize (H2 ltac:(lia)).
  rewrite app_nil_r, <- app_assoc, length_app in H2.
  change (ingredient_lines (length block) block
            (Z.of_nat (length output_lines + 1)) []
          = Ok (ins, Z.of_nat (length output_lines + 1 + length input_lines))) in H2.
  replace (Z.of_nat (length output_lines) + 1)%Z
    with (Z.of_nat (length output_lines + 1)) by lia.
  rewrite H2. cbn [mbind outcome_bind].
  assert (Hname : _parse_nametag_line block
            (Z.of_nat (length output_lines + 1 + length input_lines)) = Ok None).
  { unfold _parse_nametag_line. rewrite Hlen.
    destruct (Z.geb_spec (Z.of_nat (length output_lines + 1 + length input_lines))
                (Z.of_nat (length output_lines + S (length input_lines)))); [|lia].
    by rewrite orb_true_r. }
  by rewrite Hname.
Qed.

Lemma read_recipe_block_witness :
  read_recipe (λ s, Z.of_nat (String.length s)) (foldr (λ x acc, x + 1000 * acc)%Z 0%Z)
    (["1 Iron Ingot"] ++ "^ 1 s (Smelter)" :: ["1 Iron Ore"])
  = Recipe_init (λ s, Z.of_nat (String.length s)) (foldr (λ x acc, x + 1000 * acc)%Z 0%Z)
      None [ingredient 1%Z "Iron Ingot"] [ingredient 1%Z "Iron Ore"]
      (mkTime (Qc_of_Z 1)) Smelter.
Proof.
  apply read_recipe_block.
  - repeat constructor.
  - reflexivity.
  - repeat constructor.
Defined.

(** ** The substitution pass *)

Lemma for_each_skip {S A} (l : list A) (body : A → M S unit) (s : S) :
  (∀ x, x ∈ l → body x s = (Ok tt, s)) → for_each l body s = (Ok tt, s).
Proof.
  induction l as [|x l IH]; intros Hbody; [done|].
  simpl. unfold mbind, M_bind. rewrite Hbody by apply list_elem_of_here.
  apply IH. intros y Hy. apply Hbody. by apply list_elem_of_further.
Qed.

Lemma elem_of_enumerate {A} (l : list A) (i : nat) (x : A) :
  (i, x) ∈ enumerate l → x ∈ l.
Proof.
  unfold enumerate. intros H. apply elem_of_lookup_imap in H as (j & y & [= -> ->] & H).
  by eapply list_elem_of_lookup_2.
Qed.

(** X15. A file that spells every product and every category in full is
    handed on as it is: its lines are stripped, the comment lines are
    dropped without ending a block, and the rest is split into
    blocks. *)
Theorem read_recipe_file_full_names (lines : list string) (db : DataBase) :
  let kept := filter (λ line, re_match COMMENT_LINE_REGEX line = None) (strip <$> lines) in
  (∀ line number_string name,
     line ∈ kept →
     re_match INGREDIENT_LINE_REGEX line = Some [number_string; name] →
     name ∈ (set_map product_name (products db) : gset string)) →
  (∀ line seconds_string name,
     line ∈ kept →
     re_match ARROW_LINE_REGEX line = Some [seconds_string; name] →
     name ∈ (set_map category_name (facility_categories db) : gset string)) →
  read_recipe_file lines db = Ok (_split_on_blank_lines kept).
Proof.
  intros kept Hproducts Hcategories. unfold read_recipe_file. fold kept.
  rewrite for_each_skip; [done|].
  intros [i line] Hin. apply elem_of_enumerate in Hin.
  destruct (re_match INGREDIENT_LINE_REGEX line) as [groups|] eqn:Hi.
  - destruct groups as [|n [|p [|??]]]; try done.
    rewrite decide_False; [done|]. intros Hp. apply Hp. by eapply Hproducts.
  - destruct (re_match ARROW_LINE_REGEX line) as [groups|] eqn:Ha; [|done].
    destruct groups as [|n [|p [|??]]]; try done.
    rewrite decide_False; [done|]. intros Hp. apply Hp. by eapply Hcategories.
Qed.

Lemma read_recipe_file_full_names_witness :
  read_recipe_file
    ["# smelting"; "1 Iron Ingot  "; "^ 1 s (Smelter)"; "# ore"; "1 Iron Ore"; "";
     "1 Iron Ore"] iron_db
  = Ok [["1 Iron Ingot"; "^ 1 s (Smelter)"; "1 Iron Ore"]; ["1 Iron Ore"]].
Proof.
  apply (read_recipe_file_full_names
           ["# smelting"; "1 Iron Ingot  "; "^ 1 s (Smelter)"; "# ore"; "1 Iron Ore"; "";
            "1 Iron Ore"] iron_db).
  - intros line n name Hin.
    repeat (apply elem_of_cons in Hin as [->|Hin]); try (by apply elem_of_nil in Hin);
      intros [= <- <-] || intros [=]; by vm_compute.
  - intros line n name Hin.
    repeat (apply elem_of_cons in Hin as [->|Hin]); try (by apply elem_of_nil in Hin);
      intros [= <- <-] || intros [=]; by vm_compute.
Defined.

(** A line that holds a no-break space and nothing else is blank once
    stripped: it ends a block. *)
Lemma read_recipe_file_no_break_space :
  read_recipe_file ["1 Iron Ingot"; String "160" ""; "1 Iron Ore"] iron_db
  = Ok [["1 Iron Ingot"]; ["1 Iron Ore"]].
Proof. by vm_compute. Qed.

(** * More on crafters *)

Lemma Qc_of_Z_nonzero (n : Z) : n ≠ 0%Z → Qc_of_Z n ≠ 0%Qc.
Proof. intros Hn H. apply Hn. apply Z2Qc_inj. by rewrite Z2Qc_inj_0. Qed.

Lemma Time_rtruediv_quantity (t : Time) (q : Z) :
  seconds t ≠ 0%Qc → q ≠ 0%Z →
  Time_rtruediv t (Qc_of_Z q) = Ok (mkRate (Qc_of_Z q / seconds t)%Qc).
Proof.
  intros Ht Hq. by apply Time_rtruediv_defined; [apply Qc_of_Z_nonzero|].
Qed.

Lemma Time_rtruediv_zero (t : Time) (q : Z) :
  seconds t = 0%Qc ∨ q = 0%Z →
  Time_rtruediv t (Qc_of_Z q) = Raise ZeroDivisionError.
Proof.
  intros [Ht| ->]; apply Time_rtruediv_undefined; [by right|left; apply Z2Qc_inj_0].
Qed.

Lemma total_rate_absent recipe facility how_many items (p : Product) :
  p ∉ product <$> items → total_rate recipe facility how_many items p = 0%Qc.
Proof.
  induction items as [|x items IH]; [done|]. rewrite fmap_cons. simpl.
  intros H. apply not_elem_of_cons in H as [Hx Hi].
  rewrite decide_False by done. rewrite IH by done. ring.
Qed.

Section crafter_loops.
Variable recipe : Recipe.
Variable facility : Facility.
Variable how_many : Qc.
(** The loop over the outputs adds, the loop over the inputs subtracts. *)
Variable op : Rate → Rate → Rate.
Variable sign : Qc.
Hypothesis op_sign : ∀ a b, op a b = mkRate (per_second a + sign * per_second b)%Qc.

Let body (item : ProductQuantity Z) : M RecipeCrafter.t unit :=
self ← get;
recipe_rate ← lift (Time_rtruediv (period (RecipeCrafter.recipe self))
                                  (Qc_of_Z (quantity item)));
RecipeCrafter.set_rates (λ rates,
  <[product item :=
      op (default Rate_zero (rates !! product item))
         (Rate_mul (Rate_mul recipe_rate (speed (RecipeCrafter.facility self)))
                   (RecipeCrafter.how_many self))]> rates).

Let step (rates : gmap Product Rate) (item : ProductQuantity Z) : gmap Product Rate :=
<[product item :=
    op (default Rate_zero (rates !! product item))
       (mkRate (unit_rate recipe facility how_many item))]> rates.

Lemma crafter_loop_Ok (items : list (ProductQuantity Z)) (rates : gmap Product Rate) :
Forall (λ item : ProductQuantity Z,
          seconds (period recipe) ≠ 0%Qc ∧ quantity item ≠ 0%Z) items →
for_each items body (RecipeCrafter.mk recipe facility how_many rates)
= (Ok tt, RecipeCrafter.mk recipe facility how_many (foldl step rates items)).
Proof.
revert rates. induction items as [|item items IH]; intros rates Hitems; [done|].
apply Forall_cons in Hitems as [[Hs Hq] Hitems].
simpl. unfold mbind at 1, M_bind at 1, body at 1.
unfold mbind, M_bind, get, lift, RecipeCrafter.set_rates, modify. simpl.
rewrite Time_rtruediv_quantity by done. simpl.
by rewrite <- (IH _ Hitems).
Qed.

Lemma crafter_loop_Raise (items : list (ProductQuantity Z)) (rates : gmap Product Rate) :
Exists (λ item : ProductQuantity Z,
          seconds (period recipe) = 0%Qc ∨ quantity item = 0%Z) items →
(for_each items body (RecipeCrafter.mk recipe facility how_many rates)).1
= Raise ZeroDivisionError.
Proof.
revert rates. induction items as [|item items IH]; intros rates Hitems.
{ by apply Exists_nil in Hitems. }
simpl. unfold mbind at 1, M_bind at 1, body at 1.
unfold mbind, M_bind, get, lift, RecipeCrafter.set_rates, modify. simpl.
destruct (decide (seconds (period recipe) = 0%Qc ∨ quantity item = 0%Z)) as [Hbad|Hgood].
- by rewrite Time_rtruediv_zero.
- apply Exists_cons in Hitems as [?|Hitems]; [done|].
  rewrite Time_rtruediv_quantity by tauto. simpl. by apply IH.
Qed.

Lemma foldl_step_lookup (items : list (ProductQuantity Z)) (rates : gmap Product Rate)
  (p : Product) :
foldl step rates items !! p =
if decide (p ∈ product <$> items) then
  Some (mkRate (per_second (default Rate_zero (rates !! p))
                + sign * total_rate recipe facility how_many items p)%Qc)
else rates !! p.
Proof.
revert rates. induction items as [|item items IH]; intros rates.
{ simpl. destruct (decide (p ∈ [])) as [H|H]; [by apply elem_of_nil in H|done]. }
simpl foldl. rewrite IH. clear IH. rewrite fmap_cons. cbn [total_rate]. unfold step.
destruct (decide (product item = p)) as [<-|Hne].
- rewrite lookup_insert_eq. cbn [default]. rewrite op_sign. cbn [per_second].
  destruct (decide (product item ∈ product item :: (product <$> items))) as [_|Hnin];
    [|exfalso; apply Hnin, list_elem_of_here].
  destruct (decide (product item ∈ product <$> items)) as [Hin|Hnin].
  + do 2 f_equal. cbn [id per_second default]. ring.
  + rewrite (total_rate_absent _ _ _ items) by done. do 2 f_equal. cbn [id per_second default]. ring.
- rewrite lookup_insert_ne by done.
  destruct (decide (p ∈ product <$> items)) as [Hin|Hnin];
    destruct (decide (p ∈ product item :: (product <$> items))) as [Hin'|Hnin'].
  + do 2 f_equal. cbn [id per_second default]. ring.
  + exfalso. by apply Hnin', list_elem_of_further.
  + apply elem_of_cons in Hin' as [?|?]; done.
  + done.
Qed.
End crafter_loops.

Lemma total_rate_scale recipe facility how_many (k : Qc) items (p : Product) :
  total_rate recipe facility (how_many * k) items p
  = (total_rate recipe facility how_many items p * k)%Qc.
Proof.
  induction items as [|x items IH]; simpl; [ring|].
  rewrite IH. unfold unit_rate. case_decide; ring.
Qed.

Lemma rateable_dec (recipe : Recipe) :
  rateable recipe
  ∨ Exists (λ item : ProductQuantity Z,
              seconds (period recipe) = 0%Qc ∨ quantity item = 0%Z)
           (outputs recipe ++ inputs recipe).
Proof.
  unfold rateable.
  induction (outputs recipe ++ inputs recipe) as [|x l [IH|IH]].
  - left. constructor.
  - destruct (decide (seconds (period recipe) = 0%Qc)) as [Hs|Hs];
      [right; constructor; by left|].
    destruct (decide (quantity x = 0%Z)) as [Hq|Hq];
      [right; constructor; by right|].
    left. by constructor.
  - right. by apply Exists_cons_tl.
Qed.

Lemma _compute_rates_rateable (rc : RecipeCrafter.t) :
  rateable (RecipeCrafter.recipe rc) →
  ∃ m, RecipeCrafter._compute_rates rc
       = (Ok m, RecipeCrafter.mk (RecipeCrafter.recipe rc) (RecipeCrafter.facility rc)
                                 (RecipeCrafter.how_many rc) m)
       ∧ net_rates rc m.
Proof.
  destruct rc as [recipe facility how_many rates]. unfold rateable. simpl.
  intros Hitems. apply Forall_app in Hitems as [Houts Hins].
  unfold RecipeCrafter._compute_rates.
  unfold mbind at 1, M_bind at 1, RecipeCrafter.set_rates at 1, modify at 1. simpl.
  unfold mbind at 1, M_bind at 1, get at 1. simpl.
  unfold mbind at 1, M_bind at 1.
  rewrite (crafter_loop_Ok recipe facility how_many Rate_add _ _ Houts).
  unfold mbind at 1, M_bind at 1.
  rewrite (crafter_loop_Ok recipe facility how_many Rate_sub _ _ Hins).
  unfold gets. simpl. eexists. split; [reflexivity|].
  intros p. unfold net_rates. simpl.
  rewrite (foldl_step_lookup recipe facility how_many Rate_sub (-1)%Qc)
    by (intros a b; unfold Rate_sub; f_equal; ring).
  rewrite (foldl_step_lookup recipe facility how_many Rate_add 1%Qc)
    by (intros a b; unfold Rate_add; f_equal; ring).
  rewrite lookup_empty. rewrite fmap_app.
  destruct (decide (p ∈ product <$> inputs recipe)) as [Hin|Hin],
           (decide (p ∈ product <$> outputs recipe)) as [Hout|Hout],
           (decide (p ∈ (product <$> outputs recipe) ++ (product <$> inputs recipe)))
             as [Hall|Hall];
    try (exfalso; apply Hall, elem_of_app; tauto);
    try (apply elem_of_app in Hall; exfalso; tauto);
    cbn [default per_second Rate_zero];
    rewrite ?(total_rate_absent _ _ _ (outputs recipe)) by done;
    rewrite ?(total_rate_absent _ _ _ (inputs recipe)) by done;
    try done; do 2 f_equal; cbn [id per_second]; ring.
Qed.

(** X16. Where the period and the quantities of its recipe are not zero,
    [_compute_rates] fills the rate map of a crafter with the net rate
    of every product of the recipe, and of no other: the rates of the
    outputs of that product, added up, less those of its inputs, each
    ingredient at quantity / period x speed x multiplicity. An entry is
    never overwritten by a later ingredient of the same product. *)
Theorem _compute_rates_net (rc : RecipeCrafter.t) :
  rateable (RecipeCrafter.recipe rc) →
  ∃ m, RecipeCrafter._compute_rates rc
       = (Ok m, RecipeCrafter.mk (RecipeCrafter.recipe rc) (RecipeCrafter.facility rc)
                                 (RecipeCrafter.how_many rc) m)
       ∧ net_rates rc m.
Proof. apply _compute_rates_rateable. Qed.

(** X17. A recipe with a zero period or a zero quantity has no rates:
    [_compute_rates] raises ZeroDivisionError on it, and on no other
    recipe. *)
Theorem _compute_rates_zero (rc : RecipeCrafter.t) :
  (RecipeCrafter._compute_rates rc).1 = Raise ZeroDivisionError ↔
  Exists (λ item : ProductQuantity Z,
            seconds (period (RecipeCrafter.recipe rc)) = 0%Qc ∨ quantity item = 0%Z)
         (outputs (RecipeCrafter.recipe rc) ++ inputs (RecipeCrafter.recipe rc)).
Proof.
  split.
  - intros Hraise. destruct (rateable_dec (RecipeCrafter.recipe rc)) as [Hok|Hbad]; [|done].
    destruct (_compute_rates_rateable rc Hok) as (m & Hm & _).
    by rewrite Hm in Hraise.
  - destruct rc as [recipe facility how_many rates]. simpl. intros Hbad.
    unfold RecipeCrafter._compute_rates.
    unfold mbind at 1, M_bind at 1, RecipeCrafter.set_rates at 1, modify at 1. simpl.
    unfold mbind at 1, M_bind at 1, get at 1. simpl.
    unfold mbind at 1, M_bind at 1.
    destruct (decide (Forall (λ item : ProductQuantity Z,
                seconds (period recipe) ≠ 0%Qc ∧ quantity item ≠ 0%Z) (outputs recipe)))
      as [Houts|Houts].
    + rewrite (crafter_loop_Ok recipe facility how_many Rate_add _ _ Houts).
      unfold mbind at 1, M_bind at 1.
      apply Exists_app in Hbad as [Hbad|Hbad].
      { exfalso. apply Exists_exists in Hbad as (x & Hx & Hbad).
        rewrite Forall_forall in Houts. destruct (Houts x Hx). tauto. }
      match goal with
      | |- context [for_each (inputs recipe) _ (RecipeCrafter.mk _ _ _ ?m)] =>
          pose proof (crafter_loop_Raise recipe facility how_many Rate_sub
                        (inputs recipe) m Hbad) as Hr
      end.
      by destruct (for_each (inputs recipe) _ _) as [[| |] ?]; simpl in *; try done;
        injection Hr as ->.
    + assert (Hex : Exists (λ item : ProductQuantity Z,
                seconds (period recipe) = 0%Qc ∨ quantity item = 0%Z) (outputs recipe)).
      { apply not_Forall_Exists in Houts; [|solve_decision].
        eapply Exists_impl; [exact Houts|]. intros x Hx. simpl in Hx.
        destruct (decide (seconds (period recipe) = 0%Qc)); [by left|].
        destruct (decide (quantity x = 0%Z)); [by right|]. tauto. }
      pose proof (crafter_loop_Raise recipe facility how_many Rate_add
                    (outputs recipe) ∅ Hex) as Hr.
      by destruct (for_each (outputs recipe) _ _) as [[| |] ?]; simpl in *; try done;
        injection Hr as ->.
Qed.

Lemma _compute_rates_net_witness :
  let recipe :=
    mkRecipe "X-Ray Cracking"
      [ingredient 3%Z "Hydrogen"; ingredient 1%Z "Energetic Graphite"]
      [ingredient 1%Z "Refined Oil"; ingredient 2%Z "Hydrogen"]
      (mkTime (Qc_of_Z 4)) (mkFacilityCategory "Refinery") in
  let rc := RecipeCrafter.mk recipe (mkFacility (mkFacilityCategory "Refinery") "" 1%Qc)
                             1%Qc ∅ in
  ∃ m, RecipeCrafter._compute_rates rc
       = (Ok m, RecipeCrafter.mk recipe (RecipeCrafter.facility rc) 1%Qc m)
       ∧ net_rates rc m.
Proof.
  intros recipe rc. apply (_compute_rates_net rc).
  repeat constructor; by vm_compute.
Defined.

Lemma _compute_rates_zero_witness :
  (RecipeCrafter._compute_rates
     (RecipeCrafter.mk
        (mkRecipe "Iron Ingot" [ingredient 1%Z "Iron Ingot"] [ingredient 1%Z "Iron Ore"]
                  (mkTime 0%Qc) Smelter)
        Arc_Smelter 1%Qc ∅)).1
  = Raise ZeroDivisionError.
Proof.
  apply (proj2 (_compute_rates_zero _)). constructor. by left.
Defined.

Lemma _compute_rates_returns (rc : RecipeCrafter.t) m rc' :
  RecipeCrafter._compute_rates rc = (Ok m, rc') →
  rateable (RecipeCrafter.recipe rc)
  ∧ rc' = RecipeCrafter.mk (RecipeCrafter.recipe rc) (RecipeCrafter.facility rc)
                           (RecipeCrafter.how_many rc) m
  ∧ net_rates rc m.
Proof.
  intros Hc. destruct (rateable_dec (RecipeCrafter.recipe rc)) as [Hok|Hbad].
  - destruct (_compute_rates_rateable rc Hok) as (m' & Hm & Hnet).
    rewrite Hc in Hm. by injection Hm as <- ->.
  - destruct (_compute_rates_outcome rc) as [H|H]; rewrite Hc in H; [|done].
    exfalso. destruct rc as [recipe facility how_many rates]. simpl in *.
    revert Hc. unfold RecipeCrafter._compute_rates.
    unfold mbind at 1, M_bind at 1, RecipeCrafter.set_rates at 1, modify at 1. simpl.
    unfold mbind at 1, M_bind at 1, get at 1. simpl.
    unfold mbind at 1, M_bind at 1.
    destruct (decide (Forall (λ item : ProductQuantity Z,
                seconds (period recipe) ≠ 0%Qc ∧ quantity item ≠ 0%Z) (outputs recipe)))
      as [Houts|Houts].
    + rewrite (crafter_loop_Ok recipe facility how_many Rate_add _ _ Houts).
      unfold mbind at 1, M_bind at 1.
      apply Exists_app in Hbad as [Hbad|Hbad].
      { exfalso. apply Exists_exists in Hbad as (x & Hx & Hbad).
        rewrite Forall_forall in Houts. destruct (Houts x Hx). tauto. }
      match goal with
      | |- context [for_each (inputs recipe) _ (RecipeCrafter.mk _ _ _ ?m)] =>
          pose proof (crafter_loop_Raise recipe facility how_many Rate_sub
                        (inputs recipe) m Hbad) as Hr
      end.
      by destruct (for_each (inputs recipe) _ _) as [[| |] ?].
    + assert (Hex : Exists (λ item : ProductQuantity Z,
                seconds (period recipe) = 0%Qc ∨ quantity item = 0%Z) (outputs recipe)).
      { apply not_Forall_Exists in Houts; [|solve_decision].
        eapply Exists_impl; [exact Houts|]. intros x Hx. simpl in Hx.
        destruct (decide (seconds (period recipe) = 0%Qc)); [by left|].
        destruct (decide (quantity x = 0%Z)); [by right|]. tauto. }
      pose proof (crafter_loop_Raise recipe facility how_many Rate_add
                    (outputs recipe) ∅ Hex) as Hr.
      by destruct (for_each (outputs recipe) _ _) as [[| |] ?].
Qed.

(** X18. The step that [with_goal] and [upgrade_crafter] take once they
    hold the current rate of a product: where that rate is not zero,
    multiplying the multiplicity by goal / current and computing the
    rates again brings the rate of the product to the goal exactly, and
    every other rate of the crafter is scaled by the same ratio. *)
Theorem rescale_to_goal (rc rc1 : RecipeCrafter.t) (m : gmap Product Rate)
    (p : Product) (current goal : Rate) :
  RecipeCrafter._compute_rates rc = (Ok m, rc1) →
  m !! p = Some current → per_second current ≠ 0%Qc →
  ∃ ratio m' rc2,
    Rate_div_Rate goal current = Ok ratio
    ∧ (RecipeCrafter.set_how_many (λ n, n * ratio)%Qc;; RecipeCrafter._compute_rates) rc1
      = (Ok m', rc2)
    ∧ m' !! p = Some goal
    ∧ RecipeCrafter.how_many rc2 = (RecipeCrafter.how_many rc * ratio)%Qc
    ∧ ∀ q, m' !! q = (λ r, Rate_mul r ratio) <$> m !! q.
Proof.
  intros Hc Hp Hcur. apply _compute_rates_returns in Hc as (Hok & -> & Hnet).
  set (ratio := (per_second goal / per_second current)%Qc).
  destruct (_compute_rates_rateable
              (RecipeCrafter.mk (RecipeCrafter.recipe rc) (RecipeCrafter.facility rc)
                 (RecipeCrafter.how_many rc * ratio) m) Hok) as (m' & Hm' & Hnet').
  simpl in Hm'.
  assert (Hscale : ∀ q, m' !! q = (λ r, Rate_mul r ratio) <$> m !! q).
  { intros q. rewrite (Hnet' q), (Hnet q). simpl.
    case_decide; [|done]. simpl. unfold Rate_mul. simpl.
    rewrite !total_rate_scale. do 2 f_equal. ring. }
  exists ratio, m', (RecipeCrafter.mk (RecipeCrafter.recipe rc) (RecipeCrafter.facility rc)
                       (RecipeCrafter.how_many rc * ratio) m').
  split_and!; [| | |done|done].
  - unfold Rate_div_Rate, Fraction_div. by rewrite decide_False.
  - unfold mbind, M_bind, RecipeCrafter.set_how_many, modify. simpl. by rewrite Hm'.
  - rewrite Hscale, Hp. simpl. unfold Rate_mul, ratio. destruct goal as [g]. simpl.
    f_equal. f_equal. by field.
Qed.

Lemma rescale_to_goal_witness :
  ∃ ratio m' rc2,
    Rate_div_Rate (mkRate (Qc_of_Z 5)) (mkRate 2%Qc) = Ok ratio
    ∧ (RecipeCrafter.set_how_many (λ n, n * ratio)%Qc;; RecipeCrafter._compute_rates)
        two_smelters
      = (Ok m', rc2)
    ∧ m' !! mkProduct "Iron Ingot" = Some (mkRate (Qc_of_Z 5))
    ∧ RecipeCrafter.how_many rc2 = (2 * ratio)%Qc
    ∧ ∀ q, m' !! q = (λ r, Rate_mul r ratio) <$> RecipeCrafter._rates two_smelters !! q.
Proof.
  apply (rescale_to_goal (RecipeCrafter.mk Iron_Ingot Arc_Smelter 2%Qc ∅) two_smelters
           (RecipeCrafter._rates two_smelters) (mkProduct "Iron Ingot")
           (mkRate 2%Qc) (mkRate (Qc_of_Z 5))).
  - by vm_compute.
  - by vm_compute.
  - by vm_compute.
Defined.

(** * More on factories *)

Lemma negative_rates_filled (depth : nat) (w : Factory.world) :
  filled w → Factory.negative_rates depth w = (Ok (gaps_of (Factory.factory w)), w).
Proof.
  intros Hw. unfold Factory.negative_rates, mbind at 1, M_bind at 1.
  rewrite rates_cached by done. rewrite negative_rates_loop by done.
  do 2 f_equal. apply map_eq. intros p. apply option_eq. intros r.
  rewrite foldl_keep_negative by apply NoDup_fst_map_to_list.
  unfold gaps_of. rewrite map_lookup_filter_Some. simpl.
  rewrite elem_of_map_to_list, andb_true_iff, negb_true_iff, Rate_lt_zero. tauto.
Qed.

Lemma Qc_opp_lt_zero (x : Qc) : (- x < 0)%Qc ↔ (0 < x)%Qc.
Proof.
  rewrite (Qclt_minus_iff (- x) 0). by rewrite Qcopp_involutive, Qcplus_0_l.
Qed.

Lemma gaps_of_lookup (f : Factory.t) (p : Product) (r : Rate) :
  gaps_of f !! p = Some r ↔
  Factory._rates f !! p = Some r ∧ marked_ignored f p = false ∧ (per_second r < 0)%Qc.
Proof. unfold gaps_of. by rewrite map_lookup_filter_Some. Qed.

(** X19. A new factory lacks its goal and nothing else: its rate map
    has the single entry of the goal product, at minus the goal rate;
    that entry is its one gap when the goal rate is positive, and it has
    no crafter for any product. *)
Theorem new_factory (depth : nat) (goal : ProductQuantity Rate)
    (store : nat → RecipeCrafter.t) (p : Product) :
  let w := Factory.mkWorld (Factory.__init__ goal) store in
  let demand : gmap Product Rate := {[product goal := Rate_neg (quantity goal)]} in
  let w' := Factory.mkWorld (Factory.mk goal [] demand ∅) store in
  Factory.rates depth w = (Ok demand, w')
  ∧ Factory.negative_rates depth w
    = (Ok (if bool_decide (0 < per_second (quantity goal))%Qc then demand else ∅), w')
  ∧ Factory.find_crafters depth p w = (Ok [], w).
Proof.
  intros w demand w'.
  assert (Hrates : Factory.rates depth w = (Ok demand, w')) by done.
  assert (Hfilled : filled w').
  { unfold filled, w', demand. cbn [Factory._rates Factory.factory].
    by rewrite map_size_singleton. }
  split_and!; [done| |done].
  pose proof (negative_rates_filled depth w' Hfilled) as Hn.
  unfold Factory.negative_rates, mbind at 1, M_bind at 1 in Hn.
  rewrite rates_cached in Hn by done.
  unfold Factory.negative_rates, mbind at 1, M_bind at 1. rewrite Hrates.
  etrans; [exact Hn|]. clear Hn.
  do 2 f_equal. apply map_eq. intros q. apply option_eq. intros r.
  rewrite gaps_of_lookup. simpl. unfold marked_ignored. simpl.
  rewrite lookup_empty. simpl. unfold demand.
  case_bool_decide as Hpos.
  - rewrite lookup_singleton_Some. split; [tauto|]. intros [<- <-].
    split_and!; [done..|]. by apply Qc_opp_lt_zero.
  - rewrite lookup_empty, lookup_singleton_Some. split; [|done].
    intros [[<- <-] [_ Hneg]]. by apply Qc_opp_lt_zero in Hneg.
Qed.

(** The loop of [set_all_ignored]. *)
Lemma set_all_ignored_loop (l : list (Product * Rate)) (w : Factory.world) :
  for_each l (λ item, Factory.set_ignored_rates (<[item.1 := true]>)) w
  = (Ok tt,
     Factory.mkWorld
       (with_ignored (Factory.factory w)
          (foldl (λ ig (item : Product * Rate), <[item.1 := true]> ig)
                 (Factory.ignored_rates (Factory.factory w)) l))
       (Factory.store w)).
Proof.
  revert w. induction l as [|item l IH]; intros [[g cs rs ig] st]; [done|].
  simpl. unfold mbind, M_bind, Factory.set_ignored_rates at 1, modify. simpl.
  by rewrite IH.
Qed.

Lemma foldl_ignore_lookup (l : list (Product * Rate)) (ig : gmap Product bool)
    (p : Product) :
  p ∈ l.*1 → foldl (λ ig (item : Product * Rate), <[item.1 := true]> ig) ig l !! p
             = Some true.
Proof.
  revert ig. induction l as [|item l IH] using rev_ind; intros ig Hp.
  { by apply elem_of_nil in Hp. }
  rewrite foldl_app. simpl. rewrite fmap_app in Hp.
  destruct (decide (item.1 = p)) as [<-|Hne]; [by rewrite lookup_insert_eq|].
  rewrite lookup_insert_ne by done. apply IH.
  apply elem_of_app in Hp as [?|Hp]; [done|].
  simpl in Hp. by apply list_elem_of_singleton in Hp.
Qed.

(** X20. Once [set_all_ignored] has run, no gap is left: on a factory
    in a settled state it returns, and [negative_rates] is empty
    afterwards. *)
Theorem set_all_ignored_no_gaps (depth : nat) (w : Factory.world) :
  settled (Factory.factory w) →
  ∃ w1, Factory.set_all_ignored depth w = (Ok tt, w1)
        ∧ Factory.negative_rates depth w1 = (Ok ∅, w1)
        ∧ Factory.store w1 = Factory.store w
        ∧ Factory.crafters (Factory.factory w1) = Factory.crafters (Factory.factory w).
Proof.
  intros Hsettled.
  destruct (rates_settled depth w Hsettled)
    as (current & w' & Hrates & Hcur & Hsize & Hig & Hcs & _ & Hst).
  unfold Factory.set_all_ignored, mbind, M_bind. rewrite Hrates.
  rewrite set_all_ignored_loop. eexists. split; [reflexivity|].
  split_and!; [|done|done].
  rewrite negative_rates_filled by (unfold filled; simpl; by rewrite Hcur).
  do 2 f_equal. apply map_eq. intros p. rewrite lookup_empty.
  apply eq_None_not_Some. intros [r Hr]. apply gaps_of_lookup in Hr as (Hp & Hm & _).
  simpl in Hp. rewrite Hcur in Hp. unfold marked_ignored in Hm. simpl in Hm.
  rewrite foldl_ignore_lookup in Hm; [done|].
  apply list_elem_of_fmap. exists (p, r). split; [done|]. by apply elem_of_map_to_list.
Qed.

Lemma set_all_ignored_no_gaps_witness :
  ∃ w1, Factory.set_all_ignored 0 planned = (Ok tt, w1)
        ∧ Factory.negative_rates 0 w1 = (Ok ∅, w1)
        ∧ Factory.store w1 = Factory.store planned
        ∧ Factory.crafters (Factory.factory w1) = Factory.crafters (Factory.factory planned).
Proof. apply (set_all_ignored_no_gaps 0 planned). by intros _. Defined.

(** X21. Ignoring a product of the rate map takes it out of the gaps and
    leaves the other gaps as they were; a product that is not in the
    rate map cannot be ignored. *)
Theorem set_ignored_gap (depth : nat) (p : Product) (w : Factory.world) :
  settled (Factory.factory w) →
  ∃ current negatives w',
    Factory.rates depth w = (Ok current, w')
    ∧ Factory.negative_rates depth w = (Ok negatives, w')
    ∧ (is_Some (current !! p) →
       ∃ w1, Factory.set_ignored depth p w = (Ok tt, w1)
             ∧ Factory.negative_rates depth w1 = (Ok (delete p negatives), w1))
    ∧ (current !! p = None →
       Factory.set_ignored depth p w
       = (Raise (ValueError "product must exist to be set as ignored" []), w')).
Proof.
  intros Hsettled.
  destruct (rates_settled depth w Hsettled)
    as (current & w' & Hrates & Hcur & Hsize & Hig & Hcs & _ & Hst).
  assert (Hfilled : filled w') by (unfold filled; by rewrite Hcur).
  exists current, (gaps_of (Factory.factory w')), w'. split_and!.
  - done.
  - unfold Factory.negative_rates, mbind at 1, M_bind at 1. rewrite Hrates.
    pose proof (negative_rates_filled depth w' Hfilled) as Hn.
    unfold Factory.negative_rates, mbind at 1, M_bind at 1 in Hn.
    rewrite rates_cached, Hcur in Hn by done. exact Hn.
  - intros Hp. unfold Factory.set_ignored, mbind, M_bind. rewrite Hrates.
    unfold contains. rewrite bool_decide_eq_true_2 by done. simpl.
    eexists. split; [reflexivity|].
    destruct w' as [[g cs rs ig] st]. simpl in *. subst rs.
    unfold Factory.set_ignored_rates, modify. simpl.
    rewrite negative_rates_filled by done. simpl.
    do 2 f_equal. apply map_eq. intros q. apply option_eq. intros r.
    rewrite gaps_of_lookup. simpl. unfold marked_ignored. simpl.
    destruct (decide (p = q)) as [<-|Hne].
    + rewrite lookup_insert_eq, lookup_delete_eq. simpl. split; [by intros (_ & ? & _)|done].
    + rewrite lookup_insert_ne, lookup_delete_ne by done.
      by rewrite gaps_of_lookup.
  - intros Hp. unfold Factory.set_ignored, mbind, M_bind. rewrite Hrates.
    unfold contains. by rewrite bool_decide_eq_false_2 by (rewrite Hp; by intros []).
Qed.

Lemma set_ignored_gap_witness :
  ∃ current negatives w',
    Factory.rates 0 planned = (Ok current, w')
    ∧ Factory.negative_rates 0 planned = (Ok negatives, w')
    ∧ (is_Some (current !! mkProduct "Iron Ingot") →
       ∃ w1, Factory.set_ignored 0 (mkProduct "Iron Ingot") planned = (Ok tt, w1)
             ∧ Factory.negative_rates 0 w1
               = (Ok (delete (mkProduct "Iron Ingot") negatives), w1))
    ∧ (current !! mkProduct "Iron Ingot" = None →
       Factory.set_ignored 0 (mkProduct "Iron Ingot") planned
       = (Raise (ValueError "product must exist to be set as ignored" []), w')).
Proof. apply (set_ignored_gap 0 (mkProduct "Iron Ingot") planned). by intros _. Defined.

(** ** What the queries leave alone *)

Lemma triple_bind_same {S A B} (I : S → Prop) (m : M S A) (f : A → M S B) :
  triple I m (λ _, I) → (∀ a, triple I (f a) (λ _, I)) → triple I (m ≫= f) (λ _, I).
Proof.
  intros Hm Hf. apply triple_bind_inv with (I := I); [|done].
  eapply triple_post; [apply Hm|]. by intros [].
Qed.

Section frame.
Variable c : ProductQuantity Rate * list nat * gmap Product bool.

Let unchanged : Factory.world → Prop := λ w, configuration w = c.

Lemma set_rates_frame (f : gmap Product Rate → gmap Product Rate) :
triple unchanged (Factory.set_rates f) (λ _, unchanged).
Proof. by intros [[g cs rs ig] st]. Qed.

Lemma on_crafter_frame {A} (rc : nat) (m : M RecipeCrafter.t A) :
triple unchanged (Factory.on_crafter rc m) (λ _, unchanged).
Proof.
intros w Hw. unfold Factory.on_crafter. by destruct (m (Factory.store w rc)).
Qed.

Lemma _compute_rates_frame (depth : nat) :
triple unchanged (Factory._compute_rates depth) (λ _, unchanged).
Proof.
unfold Factory._compute_rates.
apply triple_bind_same; [apply set_rates_frame|]. intros _.
apply triple_bind_same; [by apply triple_gets|]. intros self.
apply triple_bind_same; [apply set_rates_frame|]. intros _.
apply triple_bind_same; [|intros; by apply triple_gets].
apply triple_for_each_inv. intros rc.
apply triple_bind_same; [apply on_crafter_frame|].
intros crafter_rates. apply triple_for_each_inv. intros [p r].
apply set_rates_frame.
Qed.

Lemma rates_frame (depth : nat) :
triple unchanged (Factory.rates depth) (λ _, unchanged).
Proof.
unfold Factory.rates.
apply triple_bind_same; [by apply triple_gets|]. intros self.
apply triple_bind_same; [|intros; by apply triple_gets].
case_bool_decide.
- apply triple_bind_same; [apply _compute_rates_frame|].
  intros; by apply triple_ret.
- by apply triple_ret.
Qed.

Lemma is_ignored_frame (depth : nat) (p : Product) :
triple unchanged (Factory.is_ignored depth p) (λ _, unchanged).
Proof.
unfold Factory.is_ignored.
apply triple_bind_same; [apply rates_frame|]. intros rs.
destruct (negb _); [by apply triple_raise|by apply triple_gets].
Qed.

Lemma negative_rates_frame (depth : nat) :
triple unchanged (Factory.negative_rates depth) (λ _, unchanged).
Proof.
unfold Factory.negative_rates.
apply triple_bind_same; [apply rates_frame|]. intros rs.
apply triple_fold_each_inv. intros negatives [p r].
apply triple_bind_same; [apply is_ignored_frame|].
intros ignored. destruct (_ && _); by apply triple_ret.
Qed.

Lemma find_crafters_frame (depth : nat) (p : Product) :
triple unchanged (Factory.find_crafters depth p) (λ _, unchanged).
Proof.
unfold Factory.find_crafters.
apply triple_bind_same; [by apply triple_gets|]. intros self.
apply triple_fold_each_inv. intros found rc.
apply triple_bind_same; [apply triple_fmap, on_crafter_frame|].
intros present. apply triple_bind_same; [|intros; by apply triple_ret].
destruct present; [|by apply triple_ret].
apply triple_bind_same; [apply on_crafter_frame|]. intros rs.
apply triple_bind_same; [by apply triple_lift|]. intros; by apply triple_ret.
Qed.

End frame.

(** X22. The queries of a factory never touch what the factory was
    told: whatever their outcome, [rates], [is_ignored],
    [negative_rates] and [find_crafters] leave the goal, the list of
    crafters and the ignore marks as they were. *)
Theorem queries_keep_configuration (depth : nat) (p : Product) (w : Factory.world) :
  configuration (Factory.rates depth w).2 = configuration w
  ∧ configuration (Factory.is_ignored depth p w).2 = configuration w
  ∧ configuration (Factory.negative_rates depth w).2 = configuration w
  ∧ configuration (Factory.find_crafters depth p w).2 = configuration w.
Proof.
  split_and!.
  - by apply (rates_frame (configuration w) depth w).
  - by apply (is_ignored_frame (configuration w) depth p w).
  - by apply (negative_rates_frame (configuration w) depth w).
  - by apply (find_crafters_frame (configuration w) depth p w).
Qed.

(** X23. [connect_crafter] refuses a crafter that is connected already
    and leaves everything as it was; any other crafter is appended to
    the list, with goal and ignore marks unchanged and a rate map that
    holds an entry, but the call itself does not return, as it reads
    the rates of a crafter. *)
Theorem connect_crafter_outcome (depth : nat) (rc : nat) (w : Factory.world) :
  let after := Factory.connect_crafter depth rc w in
  let self := Factory.factory w in
  if bool_decide (rc ∈ Factory.crafters self) then
    after = (Raise (ValueError "cannot connect same crafter to a factory twice" []), w)
  else
    configuration after.2
    = (Factory.goal self, Factory.crafters self ++ [rc], Factory.ignored_rates self)
    ∧ filled after.2
    ∧ returns after.1 = false.
Proof.
  intros after self. case_bool_decide as Hin.
  - unfold after, Factory.connect_crafter, mbind, M_bind, gets. fold self.
    by rewrite bool_decide_eq_true_2.
  - destruct w as [[g cs rs ig] st]. simpl in *.
    set (w1 := Factory.mkWorld (Factory.mk g (cs ++ [rc]) rs ig) st).
    assert (Hafter : after = ((Factory._compute_rates depth w1).1 ≫= λ _, Ok tt,
                              (Factory._compute_rates depth w1).2)).
    { unfold after, Factory.connect_crafter, mbind at 1, M_bind at 1, gets. simpl.
      rewrite bool_decide_eq_false_2 by done.
      unfold mbind at 1, M_bind at 1, Factory.set_crafters at 1, modify. simpl. fold w1.
      unfold mbind at 1, M_bind at 1.
      by destruct (Factory._compute_rates depth w1) as [[?| |] ?]. }
    rewrite Hafter. simpl. split_and!.
    + by apply (_compute_rates_frame (configuration w1) depth w1).
    + by apply (_compute_rates_filled depth w1).
    + assert (∃ first rest, cs ++ [rc] = first :: rest) as (first & rest & Hcs).
      { destruct cs; simpl; eauto. }
      destruct (_compute_rates_reads depth w1 first rest Hcs) as (Hret & _).
      by destruct (Factory._compute_rates depth w1).1.
Qed.

(** * The lookup tables *)

Lemma map_img_values {K V : Type} {eqK : EqDecision K} {cK : Countable K} {eqV : EqDecision V}
    {cV : Countable V} (m : gmap K V) :
  list_to_set (map_to_list m).*2 = (map_img m : gset V).
Proof.
  apply set_eq. intros v.
  rewrite elem_of_list_to_set, list_elem_of_fmap, elem_of_map_img. split.
  - intros ([k v'] & -> & Hkv). exists k. by apply elem_of_map_to_list.
  - intros [k Hk]. exists (k, v). split; [done|]. by apply elem_of_map_to_list.
Qed.

Lemma filed_lookup {K V : Type} {eqK : EqDecision K} {cK : Countable K} {eqV : EqDecision V}
    {cV : Countable V} (key : K) (v : V)
    (table : gmap K (gset V)) (k : K) :
  default ∅ (filed key v table !! k)
  = default ∅ (table !! k) ∪ (if decide (key = k) then {[v]} else ∅).
Proof.
  unfold filed. destruct (decide (key = k)) as [<-|Hne].
  - by rewrite lookup_insert_eq.
  - rewrite lookup_insert_ne by done. by rewrite (right_id_L ∅ (∪)).
Qed.

Lemma _make_table_facilities_round (facility : Facility) (db : Tables.t) :
  (table ← gets Tables.lookup_table_facilities;
   (if negb (bool_decide (is_Some (table !! category facility)))
    then Tables.set_lookup_table_facilities (<[category facility := ∅]>)
    else mret tt);;
   table ← gets Tables.lookup_table_facilities;
   match table !! category facility with
   | Some members =>
       Tables.set_lookup_table_facilities (<[category facility := members ∪ {[facility]}]>)
   | None => raise (KeyError (category_name (category facility)))
   end) db
  = Tables.set_lookup_table_facilities (filed (category facility) facility) db.
Proof.
  destruct db as [n fs rs rt tm tf tr].
  unfold mbind, M_bind, gets, Tables.set_lookup_table_facilities, modify, filed. simpl.
  destruct (tf !! category facility) as [members|] eqn:Hc; simpl.
  - by rewrite Hc.
  - rewrite lookup_insert_eq. cbn. by rewrite insert_insert_eq.
Qed.

Lemma _make_table_facilities_loop (l : list Facility) (db : Tables.t) :
  for_each l (λ facility,
    table ← gets Tables.lookup_table_facilities;
    (if negb (bool_decide (is_Some (table !! category facility)))
     then Tables.set_lookup_table_facilities (<[category facility := ∅]>)
     else mret tt);;
    table ← gets Tables.lookup_table_facilities;
    match table !! category facility with
    | Some members =>
        Tables.set_lookup_table_facilities (<[category facility := members ∪ {[facility]}]>)
    | None => raise (KeyError (category_name (category facility)))
    end) db
  = Tables.set_lookup_table_facilities
      (λ table, foldl (λ table f, filed (category f) f table) table l) db.
Proof.
  revert db. induction l as [|f l IH]; intros db.
  { by destruct db. }
  cbn [for_each]. unfold mbind at 1, M_bind at 1.
  rewrite _make_table_facilities_round.
  unfold Tables.set_lookup_table_facilities at 1, modify at 1.
  rewrite IH. by destruct db.
Qed.

Lemma foldl_filed_lookup {K V X : Type} {eqK : EqDecision K} {cK : Countable K} {eqV : EqDecision V}
    {cV : Countable V}
    (key : X → K) (val : X → V) (l : list X) (table : gmap K (gset V)) (k : K) :
  default ∅ (foldl (λ table x, filed (key x) (val x) table) table l !! k)
  = default ∅ (table !! k) ∪ list_to_set (val <$> filter (λ x, key x = k) l).
Proof.
  revert table. induction l as [|x l IH]; intros table; simpl.
  { by rewrite (right_id_L ∅ (∪)). }
  rewrite IH, filed_lookup, filter_cons.
  destruct (decide (key x = k)); simpl.
  - by rewrite (assoc_L (∪)).
  - by rewrite (right_id_L ∅ (∪)).
Qed.

(** X24. Once [_make_table_facilities] has run, [find_facilities]
    returns for a category, a category name or a recipe what it
    returned before, and with it the facilities of the database that are
    of that category; from the empty table of a new database, these
    alone. The call returns and changes the one table only. *)
Theorem _make_table_facilities_finds (db : Tables.t) (like : Tables.category_like)
    (c : FacilityCategory) :
  denotes like c →
  ∃ before db',
    Tables.find_facilities db like = Ok before
    ∧ Tables._make_table_facilities db = (Ok tt, db')
    ∧ Tables.find_facilities db' like
      = Ok (before ∪ filter (λ f, category f = c) (map_img (Tables.facilities db)))
    ∧ same_data db db'
    ∧ Tables.lookup_table_recipes db' = Tables.lookup_table_recipes db.
Proof.
  intros Hlike.
  assert (Hfind : ∀ db0, Tables.find_facilities db0 like
                         = Ok (default ∅ (Tables.lookup_table_facilities db0 !! c))).
  { intros db0. unfold Tables.find_facilities. destruct like; simpl in Hlike.
    - by subst.
    - by rewrite Hlike.
    - by subst. }
  unfold Tables._make_table_facilities, mbind, M_bind, get.
  rewrite _make_table_facilities_loop. do 2 eexists.
  split; [apply Hfind|]. split; [reflexivity|].
  split; [|by destruct db].
  rewrite Hfind. destruct db as [n fs rs rt tm tf tr]. simpl. f_equal.
  rewrite (foldl_filed_lookup category id). rewrite list_fmap_id.
  f_equal. rewrite <- map_img_values. apply set_eq. intros f.
  rewrite elem_of_list_to_set, list_elem_of_filter, elem_of_filter, elem_of_list_to_set.
  done.
Qed.

Lemma _make_table_facilities_finds_witness :
  let db := Tables.mk iron_db {[ "Arc Smelter" := Arc_Smelter ]} ∅ ∅ ∅ ∅ ∅ in
  denotes (Tables.of_recipe Iron_Ingot) Smelter
  ∧ ∃ before db',
    Tables.find_facilities db (Tables.of_recipe Iron_Ingot) = Ok before
    ∧ Tables._make_table_facilities db = (Ok tt, db')
    ∧ Tables.find_facilities db' (Tables.of_recipe Iron_Ingot)
      = Ok (before ∪ filter (λ f, category f = Smelter) (map_img (Tables.facilities db)))
    ∧ same_data db db'
    ∧ Tables.lookup_table_recipes db' = Tables.lookup_table_recipes db.
Proof.
  intros db. split; [reflexivity|].
  apply (_make_table_facilities_finds db (Tables.of_recipe Iron_Ingot) Smelter).
  reflexivity.
Defined.

Lemma _make_table_recipes_round (recipe : Recipe) (quantity : ProductQuantity Z)
    (db : Tables.t) :
  (table ← gets Tables.lookup_table_recipes;
   (if negb (bool_decide (is_Some (table !! product quantity)))
    then Tables.set_lookup_table_recipes (<[product quantity := ∅]>)
    else mret tt);;
   table ← gets Tables.lookup_table_recipes;
   match table !! product quantity with
   | Some members =>
       Tables.set_lookup_table_recipes (<[product quantity := members ∪ {[recipe]}]>)
   | None => raise (KeyError (product_name (product quantity)))
   end) db
  = Tables.set_lookup_table_recipes (filed (product quantity) recipe) db.
Proof.
  destruct db as [n fs rs rt tm tf tr].
  unfold mbind, M_bind, gets, Tables.set_lookup_table_recipes, modify, filed. simpl.
  destruct (tr !! product quantity) as [members|] eqn:Hc; simpl.
  - by rewrite Hc.
  - rewrite lookup_insert_eq. cbn. by rewrite insert_insert_eq.
Qed.

Lemma _make_table_recipes_inner (recipe : Recipe) (l : list (ProductQuantity Z))
    (db : Tables.t) :
  for_each l (λ quantity,
    table ← gets Tables.lookup_table_recipes;
    (if negb (bool_decide (is_Some (table !! product quantity)))
     then Tables.set_lookup_table_recipes (<[product quantity := ∅]>)
     else mret tt);;
    table ← gets Tables.lookup_table_recipes;
    match table !! product quantity with
    | Some members =>
        Tables.set_lookup_table_recipes (<[product quantity := members ∪ {[recipe]}]>)
    | None => raise (KeyError (product_name (product quantity)))
    end) db
  = Tables.set_lookup_table_recipes
      (λ table, foldl (λ table (x : Product * Recipe), filed x.1 x.2 table) table
                      ((λ quantity, (product quantity, recipe)) <$> l)) db.
Proof.
  revert db. induction l as [|q l IH]; intros db.
  { by destruct db. }
  cbn [for_each]. unfold mbind at 1, M_bind at 1.
  rewrite _make_table_recipes_round.
  unfold Tables.set_lookup_table_recipes at 1, modify at 1.
  rewrite IH. by destruct db.
Qed.

Lemma _make_table_recipes_loop (l : list Recipe) (db : Tables.t) :
  for_each l (λ recipe,
    for_each (outputs recipe) (λ quantity,
      table ← gets Tables.lookup_table_recipes;
      (if negb (bool_decide (is_Some (table !! product quantity)))
       then Tables.set_lookup_table_recipes (<[product quantity := ∅]>)
       else mret tt);;
      table ← gets Tables.lookup_table_recipes;
      match table !! product quantity with
      | Some members =>
          Tables.set_lookup_table_recipes (<[product quantity := members ∪ {[recipe]}]>)
      | None => raise (KeyError (product_name (product quantity)))
      end)) db
  = Tables.set_lookup_table_recipes
      (λ table, foldl (λ table (x : Product * Recipe), filed x.1 x.2 table) table
                      (made_by l)) db.
Proof.
  revert db. induction l as [|r l IH]; intros db.
  { by destruct db. }
  cbn [for_each]. unfold mbind at 1, M_bind at 1.
  rewrite _make_table_recipes_inner.
  unfold Tables.set_lookup_table_recipes at 1, modify at 1.
  rewrite IH. destruct db as [n fs rs rt tm tf tr].
  unfold Tables.set_lookup_table_recipes, modify.
  cbn [Tables.names Tables.facilities Tables.recipes Tables.rates Tables.times
       Tables.lookup_table_facilities Tables.lookup_table_recipes].
  unfold made_by. by rewrite bind_cons, foldl_app.
Qed.

Lemma elem_of_made_by (l : list Recipe) (p : Product) (r : Recipe) :
  (p, r) ∈ made_by l ↔ r ∈ l ∧ p ∈ product <$> outputs r.
Proof.
  unfold made_by. rewrite list_elem_of_bind. split.
  - intros (r' & Hq & Hr'). apply list_elem_of_fmap in Hq as (q & [= -> ->] & Hq).
    split; [done|]. apply list_elem_of_fmap. eauto.
  - intros [Hr Hp]. apply list_elem_of_fmap in Hp as (q & -> & Hq).
    exists r. split; [|done]. apply list_elem_of_fmap. eauto.
Qed.

(** X25. Once [_make_table_recipes] has run, [find_recipes] returns for
    a product, or the name of one, what it returned before, and with it
    the recipes of the database that have the product among their
    outputs. The call returns and changes the one table only. *)
Theorem _make_table_recipes_finds (db : Tables.t) (like : Product + string)
    (p : Product) :
  names_product like p →
  ∃ before db',
    Tables.find_recipes db like = Ok before
    ∧ Tables._make_table_recipes db = (Ok tt, db')
    ∧ Tables.find_recipes db' like
      = Ok (before ∪ filter (λ r, p ∈ product <$> outputs r)
                            (map_img (Tables.recipes db)))
    ∧ same_data db db'
    ∧ Tables.lookup_table_facilities db' = Tables.lookup_table_facilities db.
Proof.
  intros Hlike.
  assert (Hfind : ∀ db0, Tables.find_recipes db0 like
                         = Ok (default ∅ (Tables.lookup_table_recipes db0 !! p))).
  { intros db0. unfold Tables.find_recipes. destruct like; simpl in Hlike.
    - by subst.
    - by rewrite Hlike. }
  unfold Tables._make_table_recipes, mbind, M_bind, get.
  rewrite _make_table_recipes_loop. do 2 eexists.
  split; [apply Hfind|]. split; [reflexivity|].
  split; [|by destruct db].
  rewrite Hfind. destruct db as [n fs rs rt tm tf tr]. simpl. f_equal.
  rewrite (foldl_filed_lookup fst snd). f_equal.
  rewrite <- map_img_values. apply set_eq. intros r.
  rewrite elem_of_list_to_set, elem_of_filter, elem_of_list_to_set, list_elem_of_fmap.
  split.
  - intros ([p' r'] & -> & Hin). apply list_elem_of_filter in Hin as [Hp Hin].
    simpl in Hp. subst p'. apply elem_of_made_by in Hin. simpl. tauto.
  - intros [Hp Hr]. exists (p, r). split; [done|].
    apply list_elem_of_filter. split; [done|]. by apply elem_of_made_by.
Qed.

Lemma _make_table_recipes_finds_witness :
  let db := Tables.mk iron_db ∅ {[ "Iron Ingot" := Iron_Ingot ]} ∅ ∅ ∅ ∅ in
  names_product (inr " Iron Ingot ") (mkProduct "Iron Ingot")
  ∧ ∃ before db',
    Tables.find_recipes db (inr " Iron Ingot ") = Ok before
    ∧ Tables._make_table_recipes db = (Ok tt, db')
    ∧ Tables.find_recipes db' (inr " Iron Ingot ")
      = Ok (before ∪ filter (λ r, mkProduct "Iron Ingot" ∈ product <$> outputs r)
                            (map_img (Tables.recipes db)))
    ∧ same_data db db'
    ∧ Tables.lookup_table_facilities db' = Tables.lookup_table_facilities db.
Proof.
  intros db. split; [reflexivity|].
  apply (_make_table_recipes_finds db (inr " Iron Ingot ") (mkProduct "Iron Ingot")).
  reflexivity.
Defined.

(** * The loaders *)

Lemma slash_inj (a b : string) : "/" +:+ a = "/" +:+ b → a = b.
Proof. intros Heq. change (String "/" a = String "/" b) in Heq. by injection Heq. Qed.

Lemma loads_lift_bind {A B} (o : outcome A) (f : A → M Tables.t B) :
  (∀ a, o = Ok a → loads (f a)) → loads (lift o ≫= f).
Proof.
  intros Hf db Hdb. unfold mbind, M_bind, lift.
  destruct o as [a| |]; [by apply Hf|done..].
Qed.

Lemma loads_raise {A} (e : exn) : loads (raise e : M Tables.t A).
Proof. by intros db Hdb. Qed.

Lemma loads_get_bind {A} (f : Tables.t → M Tables.t A) :
  (∀ db, well_formed db →
     well_formed (f db db).2 ∧ (returns (f db db).1 = false → (f db db).2 = db)) →
  loads (get ≫= f).
Proof. intros Hf db Hdb. unfold mbind, M_bind, get. by apply Hf. Qed.

Lemma _load_data_facility_category_loads (toml_data : string) :
  loads (_load_data_facility_category toml_data).
Proof.
  unfold _load_data_facility_category. apply loads_lift_bind. intros fc _.
  apply loads_get_bind. intros db Hdb. case_bool_decide; [done|].
  split; [|done]. destruct Hdb as [Hf Hr Ht], db as [n fs rs rt tm tf tr].
  split; simpl in *; [|done..].
  intros key f Hkey. destruct (Hf key f Hkey) as [? ?]. split; [done|].
  apply elem_of_union. by right.
Qed.

Lemma _load_data_facility_loads (toml_data : FacilityData) :
  loads (_load_data_facility toml_data).
Proof.
  unfold _load_data_facility. apply loads_lift_bind. intros f _.
  apply loads_get_bind. intros db Hdb. case_bool_decide as Hdup; [done|].
  case_bool_decide as Hcat; [|done]. split; [|done].
  destruct Hdb as [Hf Hr Ht], db as [n fs rs rt tm tf tr].
  split; simpl in *; [|done..].
  intros key f'. destruct (decide (Facility_name f = key)) as [<-|Hne].
  - rewrite lookup_insert_eq. by intros [= <-].
  - rewrite lookup_insert_ne by done. apply Hf.
Qed.

Lemma _load_data_product_loads (toml_data : string) :
  loads (_load_data_product toml_data).
Proof.
  unfold _load_data_product. apply loads_lift_bind. intros p _.
  apply loads_get_bind. intros db Hdb. case_bool_decide; [done|].
  split; [|done]. destruct Hdb as [Hf Hr Ht], db as [n fs rs rt tm tf tr].
  by split.
Qed.

Lemma _load_data_recipe_loads (hash_str : string → Z) (hash_tuple : list Z → Z)
    (recipe_data : list string) :
  loads (_load_data_recipe hash_str hash_tuple recipe_data).
Proof.
  unfold _load_data_recipe. apply loads_lift_bind. intros r _.
  apply loads_get_bind. intros db Hdb. case_bool_decide as Hdup; [done|].
  split; [|done]. destruct Hdb as [Hf Hr Ht], db as [n fs rs rt tm tf tr].
  split; simpl in *; [done| |done].
  intros key r'. destruct (decide (recipe_name r = key)) as [<-|Hne].
  - rewrite lookup_insert_eq. by intros [= <-].
  - rewrite lookup_insert_ne by done. apply Hr.
Qed.

Lemma _load_data_rate_loads (toml_data : string * Z) :
  loads (_load_data_rate toml_data).
Proof.
  unfold _load_data_rate. apply loads_get_bind. intros db Hdb.
  case_bool_decide as Hdup; [done|]. split; [|done].
  destruct Hdb as [Hf Hr Ht], db as [n fs rs rt tm tf tr].
  split; simpl in *; [done..|].
  intros key t Hkey. destruct (Ht key t Hkey) as (r & Hrate & Hone).
  exists r. split; [|done]. rewrite lookup_insert_ne; [done|].
  intros Heq. apply Hdup. rewrite Heq. by eexists.
Qed.

Lemma _load_data_time_loads (toml_data : string * Z) :
  loads (_load_data_time toml_data).
Proof.
  unfold _load_data_time. apply loads_lift_bind. intros r Hrate.
  apply loads_get_bind. intros db Hdb.
  case_bool_decide as Hdup; [done|]. case_bool_decide as Hgen; [done|].
  split; [|done].
  destruct Hdb as [Hf Hr Ht], db as [n fs rs rt tm tf tr].
  split; simpl in *; [done..|].
  intros key t. destruct (decide (toml_data.1 = key)) as [<-|Hne].
  - rewrite lookup_insert_eq. intros [= <-]. exists r.
    rewrite lookup_insert_eq. split; [done|].
    revert Hrate. unfold Rate_of_Time, Fraction_div. simpl.
    destruct (decide _) as [|Hnz]; [done|]. intros [= <-]. simpl.
    field. exact Hnz.
  - rewrite lookup_insert_ne by done. intros Hkey.
    destruct (Ht key t Hkey) as (r' & Hrate' & Hone). exists r'. split; [|done].
    rewrite lookup_insert_ne; [done|]. intros Heq. by apply slash_inj in Heq.
Qed.

(** X26. The loaders keep the database well formed, and one that
    raises has changed nothing: facilities and recipes are filed under
    their own names, a facility is only accepted into a known category,
    and every named time has its inverse among the rates. A new
    database is well formed. *)
Theorem loaders_keep_well_formed (hash_str : string → Z) (hash_tuple : list Z → Z) :
  well_formed Tables.__init__
  ∧ (∀ toml_data, loads (_load_data_facility_category toml_data))
  ∧ (∀ toml_data, loads (_load_data_facility toml_data))
  ∧ (∀ toml_data, loads (_load_data_product toml_data))
  ∧ (∀ recipe_data, loads (_load_data_recipe hash_str hash_tuple recipe_data))
  ∧ (∀ toml_data, loads (_load_data_rate toml_data))
  ∧ (∀ toml_data, loads (_load_data_time toml_data)).
Proof.
  split_and!.
  - by split.
  - apply _load_data_facility_category_loads.
  - apply _load_data_facility_loads.
  - apply _load_data_product_loads.
  - apply _load_data_recipe_loads.
  - apply _load_data_rate_loads.
  - apply _load_data_time_loads.
Qed.

(** * Gaps and the database *)

Lemma negative_rates_settled (depth : nat) (w : Factory.world) :
  settled (Factory.factory w) →
  ∃ w', Factory.negative_rates depth w = (Ok (gaps_of (Factory.factory w')), w')
        ∧ filled w'
        ∧ configuration w' = configuration w
        ∧ Factory.store w' = Factory.store w.
Proof.
  intros Hsettled.
  destruct (rates_settled depth w Hsettled)
    as (current & w' & Hrates & Hcur & Hsize & Hig & Hcs & Hg & Hst).
  assert (Hfilled : filled w') by (unfold filled; by rewrite Hcur).
  exists w'. split_and!; [|done| |done].
  - unfold Factory.negative_rates, mbind at 1, M_bind at 1. rewrite Hrates.
    pose proof (negative_rates_filled depth w' Hfilled) as Hn.
    unfold Factory.negative_rates, mbind at 1, M_bind at 1 in Hn.
    rewrite rates_cached, Hcur in Hn by done. exact Hn.
  - unfold configuration. by rewrite Hig, Hcs, Hg.
Qed.

Lemma set_ignored_filled (depth : nat) (p : Product) (w : Factory.world) :
  filled w → is_Some (Factory._rates (Factory.factory w) !! p) →
  Factory.set_ignored depth p w
  = (Ok tt, Factory.mkWorld
              (with_ignored (Factory.factory w)
                 (<[p := true]> (Factory.ignored_rates (Factory.factory w))))
              (Factory.store w)).
Proof.
  intros Hw Hp. unfold Factory.set_ignored, mbind, M_bind.
  rewrite rates_cached by done. unfold contains.
  by rewrite bool_decide_eq_true_2 by done.
Qed.

Lemma find_production_gaps_loop (depth : nat) (db : Tables.t)
    (l : list (Product * Rate)) (acc : list (ProductQuantity Rate))
    (w : Factory.world) :
  filled w →
  (∀ item, item ∈ l → is_Some (Factory._rates (Factory.factory w) !! item.1)) →
  fold_each l acc (λ verified_gaps item,
    let '(product, rate) := item in
    found ← lift (Tables.find_recipes db (inl product));
    if bool_decide (size found = 0) then
      Factory.set_ignored depth product;;
      mret verified_gaps
    else
      mret (verified_gaps ++ [mkProductQuantity (Rate_neg rate) product])) w
  = (Ok (acc ++ demands db l),
     Factory.mkWorld
       (with_ignored (Factory.factory w)
          (foldl (ignore_unmakeable db) (Factory.ignored_rates (Factory.factory w)) l))
       (Factory.store w)).
Proof.
  revert acc w. induction l as [|[p r] l IH]; intros acc w Hw Hl.
  { simpl. unfold demands. simpl. rewrite app_nil_r. by destruct w as [[] ?]. }
  assert (Hstep : foldl (ignore_unmakeable db) (Factory.ignored_rates (Factory.factory w))
                        ((p, r) :: l)
                  = foldl (ignore_unmakeable db)
                      (ignore_unmakeable db (Factory.ignored_rates (Factory.factory w)) (p, r))
                      l) by done.
  rewrite Hstep. clear Hstep.
  cbn [fold_each]. unfold mbind at 1, M_bind at 1.
  unfold mbind at 1, M_bind at 1, lift, Tables.find_recipes. cbn [mbind outcome_bind].
  unfold demands, ignore_unmakeable at 2. cbn [fst snd].
  destruct (decide (makeable db p)) as [Hmake|Hnone].
  - rewrite filter_cons_True by done.
    rewrite bool_decide_eq_false_2
      by (intros Hsize; by apply size_empty_iff, leibniz_equiv in Hsize).
    cbn [mret M_ret]. rewrite IH; [|done|].
    + rewrite fmap_cons. cbn [fst snd]. unfold demands. by rewrite <- app_assoc.
    + intros item Hitem. apply Hl. by apply list_elem_of_further.
  - rewrite filter_cons_False by done.
    unfold makeable in Hnone. apply dec_stable in Hnone.
    rewrite bool_decide_eq_true_2 by (rewrite Hnone; apply size_empty).
    unfold mbind at 1, M_bind at 1.
    rewrite set_ignored_filled; [|done|apply (Hl (p, r)), list_elem_of_here].
    cbn [mret M_ret]. rewrite IH.
    + by destruct w as [[] ?].
    + by destruct w as [[] ?].
    + intros item Hitem. destruct w as [[] ?]. apply (Hl item).
      by apply list_elem_of_further.
Qed.

Lemma foldl_ignore_unmakeable (db : Tables.t) (l : list (Product * Rate))
    (ignored : gmap Product bool) (p : Product) :
  default false (foldl (ignore_unmakeable db) ignored l !! p) = false
  ↔ default false (ignored !! p) = false ∧ (p ∈ l.*1 → makeable db p).
Proof.
  revert ignored. induction l as [|[q r] l IH]; intros ignored.
  { simpl. split; [|tauto]. intros ?. split; [done|]. by intros ?%elem_of_nil. }
  cbn [foldl]. rewrite IH. unfold ignore_unmakeable. cbn [fst fmap list_fmap].
  destruct (decide (makeable db q)) as [Hq|Hq].
  - split.
    + intros [? Hl]. split; [done|]. intros [->|?]%elem_of_cons; auto.
    + intros [? Hl]. split; [done|]. intros ?. apply Hl. by apply list_elem_of_further.
  - destruct (decide (q = p)) as [->|Hne].
    + rewrite lookup_insert_eq. simpl. split; [by intros []|].
      intros [_ Hl]. destruct Hq. apply Hl, list_elem_of_here.
    + rewrite lookup_insert_ne by done. split.
      * intros [? Hl]. split; [done|]. intros [?|?]%elem_of_cons; [by subst|auto].
      * intros [? Hl]. split; [done|]. intros ?. apply Hl. by apply list_elem_of_further.
Qed.

(** X27. [find_production_gaps] keeps the gaps that some recipe of the
    database can fill and marks the others as ignored: on a factory in
    a settled state it returns, for every gap with a recipe, the
    product and the rate that is missing, and afterwards the gaps of
    the factory are those it has returned, nothing else of the factory
    having changed. *)
Theorem find_production_gaps_verified (depth : nat) (db : Tables.t)
    (w : Factory.world) :
  settled (Factory.factory w) →
  ∃ possible_gaps w' verified_gaps w1,
    Factory.negative_rates depth w = (Ok possible_gaps, w')
    ∧ find_production_gaps depth db w = (Ok verified_gaps, w1)
    ∧ verified_gaps = demands db (map_to_list possible_gaps)
    ∧ Factory.negative_rates depth w1
      = (Ok (filter (λ item, makeable db item.1) possible_gaps), w1)
    ∧ Factory.goal (Factory.factory w1) = Factory.goal (Factory.factory w)
    ∧ Factory.crafters (Factory.factory w1) = Factory.crafters (Factory.factory w)
    ∧ Factory.store w1 = Factory.store w.
Proof.
  intros Hsettled.
  destruct (negative_rates_settled depth w Hsettled) as (w' & Hneg & Hfilled & Hconf & Hst).
  assert (Hin : ∀ item, item ∈ map_to_list (gaps_of (Factory.factory w')) →
                        is_Some (Factory._rates (Factory.factory w') !! item.1)).
  { intros [p r] Hitem. apply elem_of_map_to_list, gaps_of_lookup in Hitem as [Hp _].
    by eexists. }
  exists (gaps_of (Factory.factory w')), w'. do 2 eexists. split; [done|].
  split.
  { unfold find_production_gaps, mbind at 1, M_bind at 1. rewrite Hneg.
    apply (find_production_gaps_loop depth db _ [] w' Hfilled Hin). }
  split; [done|].
  injection Hconf as Hg Hcs Hig.
  split; [|by destruct w' as [[] ?]].
  rewrite negative_rates_filled by (by destruct w' as [[] ?]).
  do 2 f_equal. apply map_eq. intros p. apply option_eq. intros r.
  rewrite gaps_of_lookup, map_lookup_filter_Some, gaps_of_lookup.
  unfold marked_ignored. cbn [Factory.factory with_ignored Factory.ignored_rates Factory._rates fst].
  rewrite foldl_ignore_unmakeable. fold (marked_ignored (Factory.factory w') p).
  split.
  - intros (Hp & [Hm Hmake] & Hr). split; [done|]. apply Hmake.
    apply list_elem_of_fmap. exists (p, r). split; [done|].
    apply elem_of_map_to_list. by apply gaps_of_lookup.
  - intros [(Hp & Hm & Hr) Hmake]. done.
Qed.

Lemma find_production_gaps_verified_witness :
  ∃ possible_gaps w' verified_gaps w1,
    Factory.negative_rates 0 planned = (Ok possible_gaps, w')
    ∧ find_production_gaps 0 Tables.__init__ planned = (Ok verified_gaps, w1)
    ∧ verified_gaps = demands Tables.__init__ (map_to_list possible_gaps)
    ∧ Factory.negative_rates 0 w1
      = (Ok (filter (λ item, makeable Tables.__init__ item.1) possible_gaps), w1)
    ∧ Factory.goal (Factory.factory w1) = Factory.goal (Factory.factory planned)
    ∧ Factory.crafters (Factory.factory w1) = Factory.crafters (Factory.factory planned)
    ∧ Factory.store w1 = Factory.store planned.
Proof. apply (find_production_gaps_verified 0 Tables.__init__ planned). by intros _. Defined.

(** * How the accessor of a crafter ends *)

Lemma _compute_rates_returns_iff (rc : RecipeCrafter.t) :
  returns (RecipeCrafter._compute_rates rc).1 = true
  ↔ rateable (RecipeCrafter.recipe rc).
Proof.
  split.
  - destruct (RecipeCrafter._compute_rates rc) as [[m| |] rc'] eqn:Hc; [|done..].
    intros _. by destruct (_compute_rates_returns rc m rc' Hc).
  - intros Hok. destruct (_compute_rates_rateable rc Hok) as (m & -> & _). done.
Qed.

Lemma rateable_not_zero (recipe : Recipe) :
  rateable recipe →
  ¬ Exists (λ item : ProductQuantity Z,
              seconds (period recipe) = 0%Qc ∨ quantity item = 0%Z)
           (outputs recipe ++ inputs recipe).
Proof.
  unfold rateable. intros Hok Hbad. apply Exists_exists in Hbad as (x & Hx & Hbad).
  rewrite Forall_forall in Hok. destruct (Hok x Hx). tauto.
Qed.

Lemma stalls_fills (rc : RecipeCrafter.t) : stalls rc ↔ ¬ fills rc.
Proof.
  unfold stalls, fills. rewrite _compute_rates_returns_iff. split.
  - intros [Hsize Hbad] [?|Hok]; [done|]. by apply (rateable_not_zero _ Hok).
  - intros Hnot. split.
    + destruct (decide (size (RecipeCrafter._rates rc) = 0)); [done|]. tauto.
    + destruct (rateable_dec (RecipeCrafter.recipe rc)); [tauto|done].
Qed.

Lemma rates_stalls (depth : nat) (rc : RecipeCrafter.t) :
  stalls rc → (RecipeCrafter.rates (S depth) rc).1 = Raise ZeroDivisionError.
Proof.
  intros Hrc. pose proof Hrc as [Hsize Hbad].
  rewrite rates_unfold, bool_decide_eq_true_2 by done.
  destruct (_compute_rates_outcome rc) as [Ho|Ho].
  - apply _compute_rates_returns_iff in Ho. by destruct (rateable_not_zero _ Ho).
  - destruct (RecipeCrafter._compute_rates rc) as [[| |] rc']; simpl in *; congruence.
Qed.

(** A call that hands on the outcome of the read it begins with. *)
Lemma ends_as_read_intro {A} (call : nat → outcome A) (reader : RecipeCrafter.t) :
  (∀ depth, call depth = match (RecipeCrafter.rates depth reader).1 with
                         | Ok _ | Diverge => Diverge
                         | Raise e => Raise e
                         end) →
  ends_as_read call reader.
Proof.
  intros Hcall. split_and!.
  - intros depth. rewrite Hcall.
    by destruct (RecipeCrafter.rates depth reader).1.
  - intros Hrc depth. by rewrite Hcall, rates_stalls.
  - intros Hrc depth. rewrite Hcall, rates_diverges; [done|].
    destruct (decide (size (RecipeCrafter._rates reader) = 0)) as [Hsize|]; [|by left].
    destruct (rateable_dec (RecipeCrafter.recipe reader)) as [Hok|Hbad].
    + right. by apply _compute_rates_returns_iff.
    + by destruct Hrc.
Qed.

Lemma on_crafter_first_read {B} (depth : nat) (rc : nat) (w : Factory.world)
    (f : gmap Product Rate → M Factory.world B) :
  ((Factory.on_crafter rc (RecipeCrafter.rates depth) ≫= f) w).1
  = match (RecipeCrafter.rates depth (Factory.store w rc)).1 with
    | Ok _ | Diverge => Diverge
    | Raise e => Raise e
    end.
Proof.
  unfold mbind, M_bind, Factory.on_crafter.
  pose proof (rates_never_returns depth (Factory.store w rc)) as Hnever.
  by destruct (RecipeCrafter.rates depth (Factory.store w rc)) as [[| |] c].
Qed.

Lemma _compute_rates_first_read (depth : nat) (w : Factory.world) (rc : nat)
    (rest : list nat) :
  Factory.crafters (Factory.factory w) = rc :: rest →
  (Factory._compute_rates depth w).1
  = match (RecipeCrafter.rates depth (Factory.store w rc)).1 with
    | Ok _ | Diverge => Diverge
    | Raise e => Raise e
    end.
Proof.
  destruct w as [[g cs rs ig] st]. simpl. intros ->.
  unfold Factory._compute_rates, Factory.set_rates, mbind, M_bind, modify, gets. simpl.
  unfold mbind, M_bind, Factory.on_crafter. simpl.
  pose proof (rates_never_returns depth (st rc)) as Hnever.
  by destruct (RecipeCrafter.rates depth (st rc)) as [[| |] c].
Qed.

Lemma find_crafters_first_read (depth : nat) (p : Product) (w : Factory.world)
    (rc : nat) (rest : list nat) :
  Factory.crafters (Factory.factory w) = rc :: rest →
  (Factory.find_crafters depth p w).1
  = match (RecipeCrafter.rates depth (Factory.store w rc)).1 with
    | Ok _ | Diverge => Diverge
    | Raise e => Raise e
    end.
Proof.
  intros Hcs.
  unfold Factory.find_crafters, mbind at 1, M_bind at 1, gets. rewrite Hcs. simpl.
  unfold mbind at 1, M_bind at 1, mbind at 1, M_bind at 1, fmap, M_fmap, Factory.on_crafter.
  pose proof (rates_never_returns depth (Factory.store w rc)) as Hnever.
  by destruct (RecipeCrafter.rates depth (Factory.store w rc)) as [[| |] c].
Qed.

Lemma upgrade_crafter_first_read (depth : nat) (rc : nat)
    (production_increase : ProductQuantity Rate) (w : Factory.world) :
  rc ∈ Factory.crafters (Factory.factory w) →
  (Factory.upgrade_crafter depth rc production_increase w).1
  = match (RecipeCrafter.rates depth (Factory.store w rc)).1 with
    | Ok _ | Diverge => Diverge
    | Raise e => Raise e
    end.
Proof.
  intros Hrc.
  unfold Factory.upgrade_crafter, mbind at 1, M_bind at 1, gets.
  rewrite bool_decide_eq_true_2 by done. simpl.
  unfold mbind at 1, M_bind at 1, fmap, M_fmap, Factory.on_crafter.
  pose proof (rates_never_returns depth (Factory.store w rc)) as Hnever.
  by destruct (RecipeCrafter.rates depth (Factory.store w rc)) as [[| |] c].
Qed.

(** C2. The accessor [rates] of a crafter returns at no depth. Where
    the rate map is empty and a period or a quantity of the recipe is
    zero, the read ends with the ZeroDivisionError of [_compute_rates];
    in every other case the map is filled, or gets filled, and the
    accessor reads itself again without end. Every operation that
    begins with such a read ends as the read does: [with_goal], the
    rate computation of a factory with a crafter, [find_crafters] on
    such a factory, and [upgrade_crafter] on a connected crafter. *)
Theorem rates_accessor_outcome :
  (∀ rc, ends_as_read (λ depth, (RecipeCrafter.rates depth rc).1) rc)
  ∧ (∀ recipe facility goal,
       ends_as_read (λ depth, RecipeCrafter.with_goal depth recipe facility goal)
                    (RecipeCrafter.mk recipe facility 1%Qc ∅))
  ∧ (∀ w rc rest,
       Factory.crafters (Factory.factory w) = rc :: rest →
       ends_as_read (λ depth, (Factory._compute_rates depth w).1) (Factory.store w rc))
  ∧ (∀ w p rc rest,
       Factory.crafters (Factory.factory w) = rc :: rest →
       ends_as_read (λ depth, (Factory.find_crafters depth p w).1) (Factory.store w rc))
  ∧ (∀ w rc production_increase,
       rc ∈ Factory.crafters (Factory.factory w) →
       ends_as_read (λ depth, (Factory.upgrade_crafter depth rc production_increase w).1)
                    (Factory.store w rc)).
Proof.
  split_and!.
  - intros rc. apply ends_as_read_intro. intros depth.
    pose proof (rates_never_returns depth rc) as Hnever.
    by destruct (RecipeCrafter.rates depth rc).1.
  - intros recipe facility goal. apply ends_as_read_intro. intros depth.
    apply with_goal_first_read.
  - intros w rc rest Hcs. apply ends_as_read_intro. intros depth.
    by apply (_compute_rates_first_read depth w rc rest).
  - intros w p rc rest Hcs. apply ends_as_read_intro. intros depth.
    by apply (find_crafters_first_read depth p w rc rest).
  - intros w rc production_increase Hrc. apply ends_as_read_intro. intros depth.
    by apply upgrade_crafter_first_read.
Qed.

Lemma rates_accessor_outcome_witness :
  ends_as_read (λ depth, (RecipeCrafter.rates depth two_smelters).1) two_smelters
  ∧ ends_as_read (λ depth, (Factory._compute_rates depth smelting).1) two_smelters
  ∧ ends_as_read (λ depth, (Factory.find_crafters depth (mkProduct "Iron Ore") smelting).1)
                 two_smelters
  ∧ ends_as_read
      (λ depth, (Factory.upgrade_crafter depth 0
                   (ingredient (mkRate 1%Qc) "Iron Ingot") smelting).1)
      two_smelters.
Proof.
  destruct rates_accessor_outcome as (H1 & _ & H3 & H4 & H5).
  split_and!.
  - apply H1.
  - apply (H3 smelting 0 []). reflexivity.
  - apply (H4 smelting _ 0 []). reflexivity.
  - apply (H5 smelting 0). by apply list_elem_of_here.
Defined.

(** The read terminates on a recipe that takes no time: the constructor
    accepts the crafter, and the first pass of the accessor ends in the
    division of the quantity by the period, as [with_goal] does on that
    recipe. *)
Lemma rates_accessor_zero_period :
  RecipeCrafter.__init__ Instant_Ingot Arc_Smelter 1%Qc = Ok instant_smelter
  ∧ (RecipeCrafter.rates 1 instant_smelter).1 = Raise ZeroDivisionError
  ∧ ¬ never_terminates instant_smelter
  ∧ RecipeCrafter.with_goal 1 Instant_Ingot Arc_Smelter
      (ingredient (mkRate 2%Qc) "Iron Ingot") = Raise ZeroDivisionError.
Proof.
  split_and!; [done|by vm_compute| |by vm_compute].
  intros Hnever. specialize (Hnever 1). by vm_compute in Hnever.
Qed.

(** * What [negative_rates] knows of the crafters *)

Lemma demand_goal_only (w : Factory.world) : demand_filled w → goal_only w.
Proof. by right. Qed.

(** Whatever its outcome, the rate computation of a factory leaves the
    demand of the goal in the rate map and nothing else: no read of the
    rates of a crafter returns. *)
Lemma _compute_rates_demand (depth : nat) :
  triple (λ _, True) (Factory._compute_rates depth) (λ _, demand_filled).
Proof.
  intros [[g cs rs ig] st] _.
  unfold Factory._compute_rates, Factory.set_rates, mbind, M_bind, modify, gets. simpl.
  destruct cs as [|rc rest]; simpl.
  - unfold demand_filled. simpl. by rewrite insert_empty.
  - unfold mbind, M_bind.
    destruct (on_crafter_rates depth rc
                (Factory.mkWorld
                   (Factory.mk g (rc :: rest) (<[product g := Rate_neg (quantity g)]> ∅) ig) st))
      as (o & w' & -> & Hret & _ & _ & Hw').
    destruct o; [done|..]; simpl; unfold demand_filled; rewrite Hw'; simpl;
      by rewrite insert_empty.
Qed.

Lemma rates_demand (depth : nat) :
  triple goal_only (Factory.rates depth) (λ _, demand_filled).
Proof.
  intros w Hw. unfold Factory.rates, mbind at 1, M_bind at 1, gets at 1.
  case_bool_decide as Hsize.
  - unfold mbind at 1, M_bind at 1, mbind at 1, M_bind at 1.
    pose proof (_compute_rates_demand depth w I) as Hc.
    by destruct (Factory._compute_rates depth w) as [[| |] w'].
  - destruct Hw as [[Hempty _]|Hw]; [|done].
    rewrite Hempty in Hsize. by rewrite map_size_empty in Hsize.
Qed.

Lemma set_ignored_rates_demand f :
  triple demand_filled (Factory.set_ignored_rates f) (λ _, demand_filled).
Proof. by intros [[g cs rs ig] st] Hw. Qed.

Lemma on_crafter_demand {A} (P : Factory.world → Prop) (rc : nat)
    (m : M RecipeCrafter.t A) :
  (∀ w w', Factory.factory w' = Factory.factory w → P w → P w') →
  triple P (Factory.on_crafter rc m) (λ _, P).
Proof.
  intros HP w Hw. unfold Factory.on_crafter.
  destruct (m (Factory.store w rc)) as [o c]. simpl. by apply (HP w).
Qed.

Lemma goal_only_factory (w w' : Factory.world) :
  Factory.factory w' = Factory.factory w → goal_only w → goal_only w'.
Proof. unfold goal_only, demand_filled. by intros ->. Qed.

Lemma after_rates_demand {A} (depth : nat) (f : gmap Product Rate → M Factory.world A) :
  (∀ rs, triple demand_filled (f rs) (λ _, demand_filled)) →
  stays_goal_only (Factory.rates depth ≫= f).
Proof.
  intros Hf. unfold stays_goal_only.
  eapply triple_post with (Q' := λ _, demand_filled); [|intros; by apply demand_goal_only].
  eapply triple_bind with (R := λ _, demand_filled); [|done].
  eapply triple_post; [apply rates_demand|]. by intros [].
Qed.

(** Every method of a factory leaves its rate map empty or with the
    demand of the goal alone, however the call ends. *)
Lemma Factory_goal_only (depth : nat) (p : Product) (rc : nat)
    (production_increase : ProductQuantity Rate) (goal : ProductQuantity Rate)
    (store : nat → RecipeCrafter.t) :
  goal_only (Factory.mkWorld (Factory.__init__ goal) store)
  ∧ stays_goal_only (Factory.rates depth)
  ∧ stays_goal_only (Factory.is_ignored depth p)
  ∧ stays_goal_only (Factory.negative_rates depth)
  ∧ stays_goal_only (Factory.find_crafters depth p)
  ∧ stays_goal_only (Factory.set_ignored depth p)
  ∧ stays_goal_only (Factory.set_all_ignored depth)
  ∧ stays_goal_only (Factory.connect_crafter depth rc)
  ∧ stays_goal_only (Factory.upgrade_crafter depth rc production_increase).
Proof.
  assert (Hcompute : ∀ P, triple P (Factory._compute_rates depth;; mret tt)
                            (λ _, goal_only)).
  { intros P. eapply triple_conseq with (P' := λ _, True) (Q' := λ _, demand_filled);
      [|done|intros; by apply demand_goal_only].
    eapply triple_bind with (R := λ _, demand_filled); [|intros; by apply triple_ret].
    eapply triple_post; [apply _compute_rates_demand|]. by intros []. }
  assert (Hread : ∀ A (m : M RecipeCrafter.t A) c,
    triple goal_only (Factory.on_crafter c m)
      (λ o w, match o with Ok _ => goal_only w | _ => goal_only w end)).
  { intros A m c. eapply triple_post; [apply on_crafter_demand, goal_only_factory|].
    by intros []. }
  split_and!; unfold stays_goal_only.
  - by left.
  - eapply triple_post; [apply rates_demand|]. intros; by apply demand_goal_only.
  - apply after_rates_demand. intros rs.
    destruct (negb _); [by apply triple_raise|by apply triple_gets].
  - apply after_rates_demand. intros rs. apply triple_fold_each_inv. intros acc [q r].
    apply triple_bind_inv with (I := demand_filled).
    + unfold Factory.is_ignored.
      eapply triple_bind with (R := λ _, demand_filled).
      * eapply triple_conseq; [apply rates_demand|apply demand_goal_only|by intros []].
      * intros rs'. destruct (negb _); [by apply triple_raise|by apply triple_gets].
    + intros ig. destruct (negb ig && _); by apply triple_ret.
  - unfold Factory.find_crafters.
    apply triple_bind_inv with (I := goal_only); [by apply triple_gets|].
    intros self. apply triple_fold_each_inv. intros found c.
    apply triple_bind_inv with (I := goal_only).
    { apply triple_fmap. eapply triple_conseq; [apply (Hread _ _ c)|done|by intros []]. }
    intros present. apply triple_bind_inv with (I := goal_only);
      [|intros; by apply triple_ret].
    destruct present; [|by apply triple_ret].
    eapply triple_post with (Q' := λ _, goal_only); [|by intros []].
    apply triple_bind_inv with (I := goal_only); [apply Hread|].
    intros rs. apply triple_bind_inv with (I := goal_only);
      [apply triple_lift; intros ??; by case_match|].
    intros; by apply triple_ret.
  - apply after_rates_demand. intros rs.
    destruct (negb _); [by apply triple_raise|apply set_ignored_rates_demand].
  - apply after_rates_demand. intros rs. apply triple_for_each_inv. intros item.
    apply set_ignored_rates_demand.
  - unfold Factory.connect_crafter.
    apply triple_bind_inv with (I := goal_only); [by apply triple_gets|].
    intros self. case_bool_decide; [by apply triple_raise|].
    eapply triple_bind with (R := λ _ _, True); [by apply triple_modify|].
    intros _. apply Hcompute.
  - unfold Factory.upgrade_crafter.
    apply triple_bind_inv with (I := goal_only); [by apply triple_gets|].
    intros self. destruct (negb _); [by apply triple_raise|].
    apply triple_bind_inv with (I := goal_only).
    { apply triple_fmap. eapply triple_conseq; [apply (Hread _ _ rc)|done|by intros []]. }
    intros present.
    apply triple_bind_inv with (I := goal_only).
    { destruct present; [|by apply triple_ret].
      eapply triple_post with (Q' := λ _, goal_only); [|by intros []].
      apply triple_bind_inv with (I := goal_only); [apply Hread|].
      intros rs. apply triple_bind_inv with (I := goal_only);
        [apply triple_lift; intros ??; by case_match|].
      intros r. destruct (Rate_le _ _); [by apply triple_raise|by apply triple_ret]. }
    intros _.
    apply triple_bind_inv with (I := goal_only); [apply Hread|].
    intros rs. apply triple_bind_inv with (I := goal_only);
      [apply triple_lift; intros ??; by case_match|].
    intros r. destruct (Rate_le _ _); [by apply triple_raise|].
    apply triple_bind_inv with (I := goal_only); [apply Hread|].
    intros rs1. apply triple_bind_inv with (I := goal_only);
      [apply triple_lift; intros ??; by case_match|].
    intros r1.
    apply triple_bind_inv with (I := goal_only); [apply Hread|].
    intros rs2. apply triple_bind_inv with (I := goal_only);
      [apply triple_lift; intros ??; by case_match|].
    intros r2. apply triple_bind_inv with (I := goal_only);
      [apply triple_lift; intros ??; by case_match|].
    intros ratio.
    apply triple_bind_inv with (I := goal_only); [apply Hread|].
    intros _.
    apply triple_bind_inv with (I := goal_only); [apply Hread|].
    intros _. apply Hcompute.
Qed.

Lemma goal_only_settled (w : Factory.world) : goal_only w → settled (Factory.factory w).
Proof.
  intros [[_ Hcs]|Hw] Hsize; [done|].
  unfold demand_filled in Hw. rewrite Hw in Hsize. by rewrite map_size_singleton in Hsize.
Qed.

Lemma unmet_alone (w : Factory.world) :
  unmet (alone w)
  = filter (λ item : Product * Rate,
              marked_ignored (Factory.factory w) item.1 = false
              ∧ (per_second item.2 < 0)%Qc)
           ({[product (Factory.goal (Factory.factory w))
              := Rate_neg (quantity (Factory.goal (Factory.factory w)))]}
              : gmap Product Rate).
Proof. by destruct w as [[g cs rs ig] st]. Qed.

(** C3. [negative_rates] does not see the crafters. In every state the
    methods leave a factory in, it returns the gap that the factory
    would have with no crafter connected: the demand of the goal, unless
    that product is marked as ignored or the goal rate is not positive.
    For a factory without crafters that is the map of the products
    whose net rate is below zero and that are not ignored. With two
    smelters connected to a factory asked for 2/s of ingots, the net
    rate of the ingots is zero and that of the ore is -2/s, and
    [negative_rates] returns the ingots at -2/s and no ore. *)
Theorem negative_rates_misses_crafters :
  (∀ depth w,
     goal_only w →
     ∃ w', Factory.negative_rates depth w = (Ok (unmet (alone w)), w')
           ∧ goal_only w'
           ∧ configuration w' = configuration w
           ∧ Factory.store w' = Factory.store w)
  ∧ (∀ w, Factory.crafters (Factory.factory w) = [] → unmet (alone w) = unmet w)
  ∧ (∀ depth p rc production_increase goal store,
       goal_only (Factory.mkWorld (Factory.__init__ goal) store)
       ∧ stays_goal_only (Factory.rates depth)
       ∧ stays_goal_only (Factory.is_ignored depth p)
       ∧ stays_goal_only (Factory.negative_rates depth)
       ∧ stays_goal_only (Factory.find_crafters depth p)
       ∧ stays_goal_only (Factory.set_ignored depth p)
       ∧ stays_goal_only (Factory.set_all_ignored depth)
       ∧ stays_goal_only (Factory.connect_crafter depth rc)
       ∧ stays_goal_only (Factory.upgrade_crafter depth rc production_increase))
  ∧ (let connected := (Factory.connect_crafter 1000 0 ordered).2 in
     let in_Q (rates : gmap Product Rate) : gmap Product Q :=
       (λ r, Qcanon.this (per_second r)) <$> rates in
     returns (Factory.connect_crafter 1000 0 ordered).1 = false
     ∧ Factory.crafters (Factory.factory connected) = [0]
     ∧ in_Q (aggregate connected)
       = {[mkProduct "Iron Ingot" := Qmake 0 1; mkProduct "Iron Ore" := Qmake (-2) 1]}
     ∧ in_Q (unmet connected) = {[mkProduct "Iron Ore" := Qmake (-2) 1]}
     ∧ ∃ negatives,
         Factory.negative_rates 1000 connected = (Ok negatives, connected)
         ∧ in_Q negatives = {[mkProduct "Iron Ingot" := Qmake (-2) 1]}).
Proof.
  split_and!.
  - intros depth w Hw.
    destruct (negative_rates_settled depth w (goal_only_settled w Hw))
      as (w' & Hneg & Hfilled & Hconf & Hst).
    assert (Hkept : goal_only w').
    { pose proof (proj1 (proj2 (proj2 (proj2
        (Factory_goal_only depth (product (Factory.goal (Factory.factory w))) 0
           (Factory.goal (Factory.factory w)) (Factory.goal (Factory.factory w))
           (Factory.store w))))) w Hw) as H.
      by rewrite Hneg in H. }
    exists w'. split_and!; [|done..]. rewrite Hneg. do 2 f_equal.
    destruct Hkept as [[Hempty _]|Hdemand].
    { unfold filled in Hfilled. by rewrite Hempty, map_size_empty in Hfilled. }
    rewrite unmet_alone. unfold gaps_of. unfold demand_filled in Hdemand.
    rewrite Hdemand. injection Hconf as -> _ Hig.
    unfold marked_ignored. by rewrite Hig.
  - intros [[g cs rs ig] st]. simpl. by intros ->.
  - intros depth p rc production_increase goal store. apply Factory_goal_only.
  - split_and!.
    + by vm_compute.
    + by vm_compute.
    + vm_compute. reflexivity.
    + vm_compute. reflexivity.
    + eexists. split; [vm_compute; reflexivity|]. vm_compute. reflexivity.
Qed.
